(** * World-map loaders of hoi4modutilities: id reconciliation, geometry,
      cross-entity validation, contiguity and the diff protocol.

    The development embeds the TypeScript functions of
    [previewdef/worldmap/loader/states.ts] (two coexisting versions),
    [strategicregion.ts], [supplyarea.ts] and the [WorldMap] session class,
    and, outside the loaders, the array utilities of the webview's
    [common.ts] and the grid placement of [focustree/contentbuilder.ts].

    Conventions of the embedding:
    - a JavaScript number that holds an id, an index or a pixel coordinate is
      a [Z];
    - a JavaScript array used with arbitrary integer subscripts (negative
      subscripts, and subscripts from 2^32 - 1 on, are ordinary properties of
      the array object) is a [gmap Z _] together with its [length];
    - [warnings.push(w)] is [ws ++ [w]] on an explicitly threaded list;
    - [localize(key, template, args...)] is a constructor of [WarningText]
      carrying the arguments;
    - a [throw] is the [Thrown] constructor of [Outcome]. *)

From Stdlib Require Import ZArith QArith List Bool Lia.
From stdpp Require Import base option list gmap strings sorting.

Open Scope Z_scope.

(** ** Data model (definitions.ts, as used by the loaders) *)

Inductive Outcome (A : Type) : Type :=
| Returned (a : A)
| Thrown (message : string).
Arguments Returned {A} a.
Arguments Thrown {A} message.

Record Zone : Type := mkZone { zx : Z; zy : Z; zw : Z; zh : Z }.

(** A centre of mass is a quotient of integer sums, kept exact as a [Q]. *)
Record Point : Type := mkPoint { ptx : Q; pty : Q }.

Record Region : Type := mkRegion {
  boundingBox : Zone;
  centerOfMass : Point;
  mass : Z
}.

Record Edge : Type := mkEdge { edgeTo : Z; edgeType : string }.

Record Province : Type := mkProvince {
  provinceId : Z;
  provinceColor : Z;
  provinceType : string;
  provinceEdges : list Edge;
  provinceRegion : Region
}.

(** [StateNoBoundingBox]: a state as read from its file, before geometry. *)
Record StateNoBoundingBox : Type := mkStateNB {
  stateId : Z;
  stateName : string;
  stateManpower : Z;
  stateCategory : string;
  stateOwner : option string;
  stateProvinces : list Z;
  stateCores : list string;
  stateImpassable : bool;
  stateVictoryPoints : gmap Z Z;
  stateFile : string
}.

(** [State] = [StateNoBoundingBox] with the fields of [Region] assigned. *)
Record State : Type := mkState {
  stateBase : StateNoBoundingBox;
  stateRegion : Region
}.

Record StrategicRegionNoRegion : Type := mkStrategicRegionNR {
  srId : Z;
  srName : string;
  srProvinces : list Z;
  srNavalTerrain : option string;
  srFile : string
}.

Record StrategicRegion : Type := mkStrategicRegion {
  srBase : StrategicRegionNoRegion;
  srRegion : Region
}.

Record SupplyAreaNoRegion : Type := mkSupplyAreaNR {
  saId : Z;
  saName : string;
  saValue : Z;
  saStates : list Z;
  saFile : string
}.

Record SupplyArea : Type := mkSupplyArea {
  saBase : SupplyAreaNoRegion;
  saRegion : Region
}.

Inductive SourceType : Type :=
| SrcState | SrcProvince | SrcStrategicRegion | SrcSupplyArea.

#[global] Instance SourceType_eq_dec : EqDecision SourceType.
Proof. solve_decision. Defined.

Record WarningSource : Type := mkSource {
  sourceType : SourceType;
  sourceId : Z;
  sourceColor : option Z
}.

(** The argument of the "doesn't exist" messages:
    [startId === endId ? startId : `${startId}-${endId}`]. *)
Inductive IdSpan : Type :=
| OneId (i : Z)
| IdRange (first last : Z).

(** One constructor per localisation key used by the loaders, with the
    arguments handed to [localize]. *)
Inductive WarningText : Type :=
| StateNoId (file : string)
| StateNoName
| StateNoCategory
| StateNoProvinces (id : Z) (file : string)
| ProvinceNotHere (province : Z)
| StateIdConflict (id : Z)
| StateNotExist (ids : IdSpan)
| StateProvinceNotExist (province state : Z)
| StateTooLarge (state w h : Z)
| StateNoValidProvinces (state : Z)
| ProvinceInMultiStates (province first second : Z)
| StateHasSea (province : Z)
| StrategicRegionNoValidProvinces (region : Z)
| StateInMultipleSupplyAreas (state first second : Z)
| StatesNotContiguous (area a b : Z)
| StateNoSupplyArea (state : Z).

Record Warning : Type := mkWarning {
  source : list WarningSource;
  relatedFiles : list string;
  text : WarningText
}.

(** A JavaScript array: its integer-keyed properties and its [length]. *)
Record JsArray (A : Type) : Type := mkJsArray {
  items : gmap Z A;
  alength : Z
}.
Arguments mkJsArray {A} items alength.
Arguments items {A} _.
Arguments alength {A} _.

Definition stateSource (id : Z) : WarningSource := mkSource SrcState id None.

(** [p.id = i] on a state record. *)
Definition withStateId (p : StateNoBoundingBox) (i : Z) : StateNoBoundingBox :=
  mkStateNB i (stateName p) (stateManpower p) (stateCategory p) (stateOwner p)
    (stateProvinces p) (stateCores p) (stateImpassable p)
    (stateVictoryPoints p) (stateFile p).

(** ** states.ts: [sortStates] *)

Module StatesInline.

(** [states.reduce((p, c) => c.id > p ? c.id : p, 0)] *)
Definition maxStateId (states : list StateNoBoundingBox) : Z :=
  fold_left (fun p c => if stateId c >? p then stateId c else p) states 0.

(** The variables the [forEach] callback of [sortStates] reads and writes. *)
Record Placement : Type := mkPlacement {
  result : gmap Z StateNoBoundingBox;
  badStateId : Z;
  warnings : list Warning
}.

Definition conflictWarning (p existing : StateNoBoundingBox) (bad : Z) : Warning :=
  mkWarning [stateSource bad] [stateFile p; stateFile existing]
    (StateIdConflict (stateId p)).

(** Body of [states.forEach(p => ...)]. *)
Definition place (st : Placement) (p : StateNoBoundingBox) : Placement :=
  let '(p1, bad1) :=
    if stateId p =? -1
    then (withStateId p (badStateId st), badStateId st - 1)
    else (p, badStateId st) in
  match result st !! stateId p1 with
  | Some existing =>
      mkPlacement (<[bad1 := withStateId p1 bad1]> (result st)) (bad1 - 1)
        (warnings st ++ [conflictWarning p1 existing bad1])
  | None =>
      mkPlacement (<[stateId p1 := p1]> (result st)) bad1 (warnings st)
  end.

Definition placeAll (states : list StateNoBoundingBox) (st : Placement) : Placement :=
  fold_left place states st.

Definition gapWarning (lastNotExist i : Z) : Warning :=
  mkWarning [stateSource i] []
    (StateNotExist (if lastNotExist =? i - 1 then OneId (i - 1)
                    else IdRange lastNotExist (i - 1))).

(** Body of [for (let i = 1; i <= maxStateId; i++)]; the accumulator is
    [lastNotExistStateId] and the warnings. *)
Definition gapStep (result : gmap Z StateNoBoundingBox)
    (acc : option Z * list Warning) (i : Z) : option Z * list Warning :=
  match result !! i, fst acc with
  | Some _, Some lastNotExist => (None, snd acc ++ [gapWarning lastNotExist i])
  | Some _, None => (None, snd acc)
  | None, None => (Some i, snd acc)
  | None, Some lastNotExist => (Some lastNotExist, snd acc)
  end.

Definition gapLoop (result : gmap Z StateNoBoundingBox) (maxId : Z)
    (ws : list Warning) : option Z * list Warning :=
  fold_left (gapStep result) (seqZ 1 maxId) (None, ws).

Record Sorted : Type := mkSorted {
  sortedStates : JsArray StateNoBoundingBox;
  sortedBadStateId : Z;
  sortedWarnings : list Warning
}.

Definition sortStates (states : list StateNoBoundingBox) (ws : list Warning)
    : Outcome Sorted :=
  let maxId := maxStateId states in
  if maxId >? 10000 then Thrown "Max state id is too large"
  else
    let st := placeAll states (mkPlacement ∅ (-1) ws) in
    let gaps := gapLoop (result st) maxId (warnings st) in
    Returned (mkSorted (mkJsArray (result st) (maxId + 1)) (badStateId st) (snd gaps)).

End StatesInline.

(** ** Warnings array and exceptions

    The loaders push onto one shared [warnings] array and may throw.  A
    computation takes the array and gives back the array as it stands when
    the computation ends, by return or by throw. *)

Definition Eff (A : Type) : Type := list Warning -> list Warning * Outcome A.

Definition ret {A : Type} (a : A) : Eff A := fun ws => (ws, Returned a).

Definition bind {A B : Type} (c : Eff A) (k : A -> Eff B) : Eff B :=
  fun ws =>
    match c ws with
    | (ws', Returned a) => k a ws'
    | (ws', Thrown m) => (ws', Thrown m)
    end.

Definition push (w : Warning) : Eff unit := fun ws => (ws ++ [w], Returned tt).

Definition throw {A : Type} (m : string) : Eff A := fun ws => (ws, Thrown m).

Notation "'let*' x := c 'in' k" := (bind c (fun x => k))
  (at level 10, x name, c at level 100, k at level 200).
Notation "c >>> k" := (bind c (fun _ => k))
  (at level 65, right associativity).

(** A loop over a list whose body updates loop-carried variables [S]. *)
Fixpoint foldEff {S A : Type} (body : S -> A -> Eff S) (l : list A) (s : S) : Eff S :=
  match l with
  | [] => ret s
  | a :: l' => let* s' := body s a in foldEff body l' s'
  end.

(** [l.map(f)] for a callback with effects. *)
Fixpoint mapEff {A B : Type} (f : A -> Eff B) (l : list A) : Eff (list B) :=
  match l with
  | [] => ret []
  | a :: l' => let* b := f a in let* bs := mapEff f l' in ret (b :: bs)
  end.

Definition when (b : bool) (c : Eff unit) : Eff unit := if b then c else ret tt.

(** ** states.ts, [loadState]: one parsed [state = { ... }] block *)

Record StateDefinition : Type := mkStateDefinition {
  defId : option Z;
  defName : option string;
  defManpower : option Z;
  defCategory : option string;
  defOwner : option string;
  defProvinces : list Z;
  defAddCoreOf : list (option string);
  defImpassable : option bool;
  defVictoryPoints : list (Z * Z)
}.

(** [state.id ? state.id : -1]: an absent id and the id 0 are both falsy. *)
Definition loadedId (d : StateDefinition) : Z :=
  match defId d with
  | Some i => if i =? 0 then -1 else i
  | None => -1
  end.

Definition idMissing (d : StateDefinition) : bool :=
  match defId d with
  | Some i => i =? 0
  | None => true
  end.

Definition truthyString (s : option string) : bool :=
  match s with
  | Some v => negb (String.eqb v "")
  | None => false
  end.

(** [a.indexOf(v)]: the first index that holds [v], or -1. *)
Fixpoint indexOf {A : Type} `{EqDecision A} (v : A) (a : list A) : Z :=
  match a with
  | [] => -1
  | x :: a' =>
      if bool_decide (x = v) then 0
      else let i := indexOf v a' in if i <? 0 then -1 else 1 + i
  end.

(** [state.history?.add_core_of.map(v => v?._name)
      .filter((v, i, a) => v !== undefined && i === a.indexOf(v))]: an entry
    of [names] is the [_name] of one [add_core_of], [None] when it has none. *)
Definition coreTags (names : list (option string)) : list string :=
  omap (fun iv => if fst iv =? indexOf (snd iv) names then snd iv else None)
    (zip (seqZ 0 (Z.of_nat (length names))) names).

(** Modelled from the spec: [arrayToMap(victoryPointsArray, "0", v => v[1])].
    [arrayToMap] of util/common is not part of the sources; the result is the
    "victory-point amounts keyed by province ID", and a later pair replaces
    an earlier one for the same province. *)
Definition victoryPointsByProvince (victoryPointsArray : list (Z * Z)) : gmap Z Z :=
  fold_left (fun result vp => <[fst vp := snd vp]> result) victoryPointsArray ∅.

(** Body of [for (const state of data.state)]: the record pushed onto
    [result] and the warnings pushed onto [globalWarnings]. *)
Definition loadStateEntry (file : string) (d : StateDefinition)
    : StateNoBoundingBox * list Warning :=
  let id := loadedId d in
  let w1 := if idMissing d then [StateNoId file] else [] in
  let name := if truthyString (defName d) then default "" (defName d) else "" in
  let w2 := if truthyString (defName d) then [] else [StateNoName] in
  let category := if truthyString (defCategory d) then default "" (defCategory d) else "" in
  let w3 := if truthyString (defCategory d) then [] else [StateNoCategory] in
  let provinces := defProvinces d in
  let g1 := if (Z.of_nat (length provinces) =? 0)
            then [mkWarning [stateSource id] [file] (StateNoProvinces id file)]
            else [] in
  let w4 := map (fun vp => ProvinceNotHere (fst vp))
              (filter (fun vp => fst vp ∉ provinces) (defVictoryPoints d)) in
  let local := w1 ++ w2 ++ w3 ++ w4 in
  (mkStateNB id name (default 0 (defManpower d)) category (defOwner d) provinces
     (coreTags (defAddCoreOf d)) (default false (defImpassable d))
     (victoryPointsByProvince (defVictoryPoints d)) file,
   g1 ++ map (fun t => mkWarning [stateSource id] [file] t) local).

Definition loadState (file : string) (defs : list StateDefinition)
    : list StateNoBoundingBox * list Warning :=
  (map (fun d => fst (loadStateEntry file d)) defs,
   flat_map (fun d => snd (loadStateEntry file d)) defs).

(** ** states.ts (Region version): geometry, validation and [mergeFiles] *)

Definition zeroRegion : Region :=
  mkRegion (mkZone 0 0 0 0) (mkPoint 0%Q 0%Q) 0.

Definition provinceSource (p : Z) (prov : Province) : WarningSource :=
  mkSource SrcProvince p (Some (provinceColor prov)).

Module StatesRegion.

Section WithCommon.

(** [mergeRegions] and [sortItems] are imported from "./common". *)
Variable mergeRegions : list Region -> Z -> Region.
Variable sortItems :
  list StateNoBoundingBox -> Z ->
  (Z -> Eff unit) ->
  (StateNoBoundingBox -> StateNoBoundingBox -> Z -> Eff unit) ->
  (Z -> Z -> Eff unit) ->
  Eff (JsArray StateNoBoundingBox * Z).

Definition sortStates (states : list StateNoBoundingBox)
    : Eff (JsArray StateNoBoundingBox * Z) :=
  sortItems states 10000
    (fun maxId => throw "Max state id is too large")
    (fun newState existingState badId =>
       push (mkWarning [stateSource badId]
               [stateFile newState; stateFile existingState]
               (StateIdConflict (stateId newState))))
    (fun startId endId =>
       push (mkWarning [stateSource startId] []
               (StateNotExist (if startId =? endId then OneId startId
                               else IdRange startId endId)))).

Definition provinceNotExistWarning (s : StateNoBoundingBox) (p : Z) : Warning :=
  mkWarning [stateSource (stateId s)] [stateFile s]
    (StateProvinceNotExist p (stateId s)).

Definition tooLargeWarning (s : StateNoBoundingBox) (r : Region) : Warning :=
  mkWarning [stateSource (stateId s)] [stateFile s]
    (StateTooLarge (stateId s) (zw (boundingBox r)) (zh (boundingBox r))).

Definition noValidProvincesWarning (s : StateNoBoundingBox) : Warning :=
  mkWarning [stateSource (stateId s)] [stateFile s]
    (StateNoValidProvinces (stateId s)).

(** The callback of [noBoundingBoxState.provinces.map(p => ...)]: pushes the
    warning for a province that does not resolve and returns the slot. *)
Definition resolveProvince (s : StateNoBoundingBox) (provinces : gmap Z Province)
    (p : Z) : Eff (option Province) :=
  match provinces !! p with
  | Some province => ret (Some province)
  | None => push (provinceNotExistWarning s p) >>> ret None
  end.

(** [w > width / 2] on integers is [2 * w > width]. *)
Definition isTooLarge (r : Region) (width height : Z) : bool :=
  (2 * zw (boundingBox r) >? width) || (2 * zh (boundingBox r) >? height).

Definition calculateBoundingBox (noBoundingBoxState : StateNoBoundingBox)
    (provinces : gmap Z Province) (width height : Z) : Eff State :=
  let* slots := mapEff (resolveProvince noBoundingBoxState provinces)
                  (stateProvinces noBoundingBoxState) in
  let provincesInState := omap id slots in
  if (0 <? Z.of_nat (length provincesInState))
  then
    let state := mkState noBoundingBoxState
                   (mergeRegions (map provinceRegion provincesInState) width) in
    when (isTooLarge (stateRegion state) width height)
         (push (tooLargeWarning noBoundingBoxState (stateRegion state)))
    >>> ret state
  else
    when (0 <? Z.of_nat (length (stateProvinces noBoundingBoxState)))
         (push (noValidProvincesWarning noBoundingBoxState))
    >>> ret (mkState noBoundingBoxState zeroRegion).

Definition multiStatesWarning (state owner : State) (ownerId p : Z)
    (province : Province) : Warning :=
  mkWarning
    [stateSource (stateId (stateBase state)); stateSource ownerId;
     provinceSource p province]
    [stateFile (stateBase state); stateFile (stateBase owner)]
    (ProvinceInMultiStates p ownerId (stateId (stateBase state))).

Definition seaWarning (state : State) (p : Z) (province : Province) : Warning :=
  mkWarning [stateSource (stateId (stateBase state)); provinceSource p province]
    [stateFile (stateBase state)] (StateHasSea p).

(** [if (province?.type === 'sea') { warnings.push(...) }] *)
Definition seaCheck (state : State) (p : Z) (province : option Province) : Eff unit :=
  match province with
  | Some prov =>
      when (String.eqb (provinceType prov) "sea") (push (seaWarning state p prov))
  | None => ret tt
  end.

(** Body of [state.provinces.forEach(p => ...)]; the loop-carried variable
    is [provinceToState]. *)
Definition visitProvince (provinces : gmap Z Province) (states : JsArray State)
    (state : State) (provinceToState : gmap Z Z) (p : Z) : Eff (gmap Z Z) :=
  let province := provinces !! p in
  match provinceToState !! p with
  | Some ownerId =>
      match province with
      | None => ret provinceToState
      | Some prov =>
          match items states !! ownerId with
          | None => throw "TypeError: states[provinceToState[p]] is undefined"
          | Some owner =>
              push (multiStatesWarning state owner ownerId p prov)
              >>> seaCheck state p province
              >>> ret provinceToState
          end
      end
  | None =>
      seaCheck state p province
      >>> ret (<[p := stateId (stateBase state)]> provinceToState)
  end.

(** Body of [for (let i = badStatesCount; i < states.length; i++)]. *)
Definition visitState (provinces : gmap Z Province) (states : JsArray State)
    (provinceToState : gmap Z Z) (i : Z) : Eff (gmap Z Z) :=
  match items states !! i with
  | None => ret provinceToState
  | Some state =>
      foldEff (visitProvince provinces states state)
        (stateProvinces (stateBase state)) provinceToState
  end.

Definition validateProvinceInState (provinces : gmap Z Province)
    (states : JsArray State) (badStatesCount : Z) : Eff unit :=
  foldEff (visitState provinces states)
    (seqZ badStatesCount (alength states - badStatesCount)) ∅
  >>> ret tt.

(** Body of [for (let i = badStateId + 1; i < sortedStates.length; i++)]. *)
Definition fillState (sortedStates : JsArray StateNoBoundingBox)
    (provinces : gmap Z Province) (width height : Z)
    (filledStates : JsArray State) (i : Z) : Eff (JsArray State) :=
  match items sortedStates !! i with
  | Some s =>
      let* state := calculateBoundingBox s provinces width height in
      ret (mkJsArray (<[i := state]> (items filledStates)) (alength filledStates))
  | None => ret filledStates
  end.

Record StateLoaderResult : Type := mkStateLoaderResult {
  states : JsArray State;
  badStatesCount : Z
}.

(** [mergeFiles]: the warnings array it starts from is
    [mergeInLoadResult(fileResults, 'warnings')], [rawStates] is the
    concatenation of the per-file results, and [provinces], [width] and
    [height] are the result of [defaultMapLoader.load(false)]. *)
Definition mergeFiles (rawStates : list StateNoBoundingBox)
    (provinces : gmap Z Province) (width height : Z) : Eff StateLoaderResult :=
  let* sorted := sortStates rawStates in
  let '(sortedStates, badStateId) := sorted in
  let* filledStates :=
    foldEff (fillState sortedStates provinces width height)
      (seqZ (badStateId + 1) (alength sortedStates - (badStateId + 1)))
      (mkJsArray ∅ (alength sortedStates)) in
  let badStatesCount := badStateId + 1 in
  validateProvinceInState provinces filledStates badStatesCount
  >>> ret (mkStateLoaderResult filledStates badStatesCount).

End WithCommon.

End StatesRegion.

(** ** strategicregion.ts: [calculateBoundingBox] *)

Module StrategicRegions.

Section WithCommon.

Variable mergeRegions : list Region -> Z -> Region.

(** The callback of [strategicRegionNoRegion.provinces.map(p => ...)].  For a
    province that does not resolve it builds the warning from
    [strategicRegion.id] and [strategicRegion.file]; [strategicRegion] is the
    [let] declared after the [map] call, still uninitialised while the callback
    runs, so reading it throws before [warnings.push] is reached. *)
Definition resolveProvince (provinces : gmap Z Province) (p : Z)
    : Eff (option Province) :=
  match provinces !! p with
  | Some province => ret (Some province)
  | None => throw "ReferenceError: Cannot access 'strategicRegion' before initialization"
  end.

Definition noValidProvincesWarning (r : StrategicRegionNoRegion) : Warning :=
  mkWarning [mkSource SrcStrategicRegion (srId r) None] [srFile r]
    (StrategicRegionNoValidProvinces (srId r)).

Definition calculateBoundingBox (strategicRegionNoRegion : StrategicRegionNoRegion)
    (provinces : gmap Z Province) (width : Z) : Eff StrategicRegion :=
  let* slots := mapEff (resolveProvince provinces)
                  (srProvinces strategicRegionNoRegion) in
  let provincesInStrategicRegion := omap id slots in
  if (0 <? Z.of_nat (length provincesInStrategicRegion))
  then
    ret (mkStrategicRegion strategicRegionNoRegion
           (mergeRegions (map provinceRegion provincesInStrategicRegion) width))
  else
    when (0 <? Z.of_nat (length (srProvinces strategicRegionNoRegion)))
         (push (noValidProvincesWarning strategicRegionNoRegion))
    >>> ret (mkStrategicRegion strategicRegionNoRegion zeroRegion).

End WithCommon.

End StrategicRegions.

(** ** supplyarea.ts: validation and contiguity *)

Module SupplyAreas.

(** [e.type !== 'impassable' && stateB.provinces.some(p2 => provinces[p2] && e.to === p2)] *)
Definition edgeReaches (provinces : gmap Z Province) (stateB : State) (e : Edge) : bool :=
  negb (String.eqb (edgeType e) "impassable")
  && existsb (fun p2 => bool_decide (is_Some (provinces !! p2)) && (edgeTo e =? p2))
       (stateProvinces (stateBase stateB)).

Definition statesAreAdjacent (stateA stateB : State) (provinces : gmap Z Province)
    : bool :=
  existsb (fun p =>
             match provinces !! p with
             | Some province => existsb (edgeReaches provinces stateB)
                                  (provinceEdges province)
             | None => false
             end)
    (stateProvinces (stateBase stateA)).

(** [accessedStates] is an object whose keys are state ids, all with value
    [true]; it is kept as the list of its keys in insertion order. *)
Definition isAccessed (accessedStates : list Z) (state : State) : bool :=
  bool_decide (stateId (stateBase state) ∈ accessedStates).

(** Body of [for (const state of states)] inside the [while]; the loop-carried
    variables are the stack (top first) and [accessedStates]. *)
Definition scanState (provinces : gmap Z Province) (currentState : State)
    (acc : list State * list Z) (state : State) : list State * list Z :=
  if isAccessed (snd acc) state then acc
  else if statesAreAdjacent state currentState provinces
       then (state :: fst acc, snd acc ++ [stateId (stateBase state)])
       else acc.

(** [while (stack.length) { ... }], at most [fuel] iterations; [None] when
    the iterations do not suffice. *)
Fixpoint traverse (fuel : nat) (provinces : gmap Z Province) (states : list State)
    (stack : list State) (accessedStates : list Z) : option (list Z) :=
  match stack with
  | [] => Some accessedStates
  | currentState :: rest =>
      match fuel with
      | O => None
      | S fuel' =>
          let acc := fold_left (scanState provinces currentState) states
                       (rest, accessedStates) in
          traverse fuel' provinces states (fst acc) (snd acc)
      end
  end.

(** [Object.keys] of an object with integer keys: the keys that are array
    indices, 0 to 2^32 - 2, in ascending order, then the others in insertion
    order. *)
Definition objectKeys (inserted : list Z) : list Z :=
  merge_sort Z.le (filter (fun k => 0 ≤ k < 4294967295) inserted)
  ++ filter (fun k => ¬ 0 ≤ k < 4294967295) inserted.

Definition checkStatesContiguous (states : list State) (provinces : gmap Z Province)
    : Outcome (option (Z * Z)) :=
  match states with
  | [] => Returned None
  | first :: _ =>
      match traverse (S (length states)) provinces states [first]
              [stateId (stateBase first)] with
      | None => Thrown "traversal did not finish"
      | Some accessedStates =>
          let accessedKeys := objectKeys accessedStates in
          if (Z.of_nat (length accessedKeys) =? Z.of_nat (length states))
          then Returned None
          else
            match find (fun state => negb (isAccessed accessedStates state)) states with
            | None => Thrown "TypeError: Cannot read properties of undefined (reading 'id')"
            | Some unreached =>
                (* [accessedStates] holds the id of [states[0]] from the
                   start, so there is a first key; [parseInt] reads back the
                   decimal digits the id was written with. *)
                Returned (Some (stateId (stateBase unreached),
                                default 0 (head accessedKeys)))
            end
      end
  end.

Definition supplyAreaSource (id : Z) : WarningSource := mkSource SrcSupplyArea id None.

Definition multiSupplyAreasWarning (supplyArea owner : SupplyArea) (ownerId s : Z)
    (state : State) : Warning :=
  mkWarning
    [supplyAreaSource (saId (saBase supplyArea)); supplyAreaSource ownerId;
     stateSource s]
    [saFile (saBase supplyArea); saFile (saBase owner); stateFile (stateBase state)]
    (StateInMultipleSupplyAreas s ownerId (saId (saBase supplyArea))).

(** The callback of [supplyArea.states.map(s => ...)]; the loop-carried
    variables are [stateToSupplyArea] and the mapped array built so far. *)
Definition visitMember (states : JsArray State) (supplyAreas : JsArray SupplyArea)
    (supplyArea : SupplyArea) (acc : gmap Z Z * list (option State)) (s : Z)
    : Eff (gmap Z Z * list (option State)) :=
  let state := items states !! s in
  match fst acc !! s with
  | Some ownerId =>
      match state with
      | None => ret (fst acc, snd acc ++ [None])
      | Some st =>
          match items supplyAreas !! ownerId with
          | None => throw "TypeError: supplyAreas[stateToSupplyArea[s]] is undefined"
          | Some owner =>
              push (multiSupplyAreasWarning supplyArea owner ownerId s st)
              >>> ret (fst acc, snd acc ++ [state])
          end
      end
  | None => ret (<[s := saId (saBase supplyArea)]> (fst acc), snd acc ++ [state])
  end.

Definition notContiguousWarning (i : Z) (supplyArea : SupplyArea) (bad : Z * Z)
    : Warning :=
  mkWarning [supplyAreaSource i] [saFile (saBase supplyArea)]
    (StatesNotContiguous i (fst bad) (snd bad)).

(** Body of the first loop of [validateStatesInSupplyAreas]. *)
Definition visitSupplyArea (states : JsArray State) (supplyAreas : JsArray SupplyArea)
    (provinces : gmap Z Province) (stateToSupplyArea : gmap Z Z) (i : Z)
    : Eff (gmap Z Z) :=
  match items supplyAreas !! i with
  | None => ret stateToSupplyArea
  | Some supplyArea =>
      let* acc := foldEff (visitMember states supplyAreas supplyArea)
                    (saStates (saBase supplyArea)) (stateToSupplyArea, []) in
      let statesInSupplyArea := omap id (snd acc) in
      match checkStatesContiguous statesInSupplyArea provinces with
      | Thrown m => throw m
      | Returned None => ret (fst acc)
      | Returned (Some badStates) =>
          push (notContiguousWarning i supplyArea badStates) >>> ret (fst acc)
      end
  end.

Definition noSupplyAreaWarning (i : Z) (state : State) : Warning :=
  mkWarning [stateSource i] [stateFile (stateBase state)] (StateNoSupplyArea i).

(** Body of the second loop: [for (let i = 1; i < states.length; i++)]. *)
Definition visitUnassigned (states : JsArray State) (stateToSupplyArea : gmap Z Z)
    (_ : unit) (i : Z) : Eff unit :=
  match items states !! i with
  | None => ret tt
  | Some state =>
      when (negb (bool_decide (is_Some (stateToSupplyArea !! i))))
           (push (noSupplyAreaWarning i state))
  end.

Definition validateStatesInSupplyAreas (states : JsArray State)
    (supplyAreas : JsArray SupplyArea) (provinces : gmap Z Province)
    (badSupplyAreasCount : Z) : Eff unit :=
  let* stateToSupplyArea :=
    foldEff (visitSupplyArea states supplyAreas provinces)
      (seqZ badSupplyAreasCount (alength supplyAreas - badSupplyAreasCount)) ∅ in
  foldEff (visitUnassigned states stateToSupplyArea)
    (seqZ 1 (alength states - 1)) tt.

End SupplyAreas.

(** ** Upstream dependencies: [shouldReload] of the three folder loaders *)

Module Loaders.

Section WithBase.

(** [super.shouldReload()] / [super.shouldReloadImpl()] of [FolderLoader] for
    the loader's own folder, and [DefaultMapLoader.shouldReload()]; both
    classes live outside these files. *)
Variable folderShouldReload : string -> bool.
Variable defaultMapShouldReload : bool.

(** [await super.shouldReload() || await this.defaultMapLoader.shouldReload()] *)
Definition StatesLoader_shouldReload : bool :=
  folderShouldReload "history/states" || defaultMapShouldReload.

Definition StrategicRegionsLoader_shouldReload : bool :=
  folderShouldReload "map/strategicregions" || defaultMapShouldReload
  || StatesLoader_shouldReload.

Definition SupplyAreasLoader_shouldReloadImpl : bool :=
  folderShouldReload "map/supplyareas" || defaultMapShouldReload
  || StatesLoader_shouldReload.

(** Modelled from the spec: [Loader.shouldReload] of common.ts in the version
    whose subclasses override [shouldReloadImpl]; the base class is not among
    these files.  Section 4.1 gives [shouldReload] as true when a tracked file
    changed or a declared upstream dependency reports it should reload, which
    is what the override computes. *)
Definition SupplyAreasLoader_shouldReload : bool := SupplyAreasLoader_shouldReloadImpl.

End WithBase.

End Loaders.

(** ** The world-map session: [sendDifferences] and [fillMessageForItem] *)

Module WorldMapSession.

Inductive Command : Type :=
| CmdWarnings | CmdContinents | CmdTerrains
| CmdProvinces | CmdStates | CmdCountries.

Section WithValues.

(** JavaScript values held by a snapshot ([unknown] in the source), compared
    with lodash's [isEqual]; [stringify] is [JSON.stringify] and
    [stringifySlice lst a b] is [JSON.stringify(slice(list, a, b))]. *)
Context {V : Type} `{EqDecision V}.
Variable stringify : V -> string.
Variable stringifySlice : (Z -> V) -> Z -> Z -> string.
Variable undefinedValue : V.

Record WorldMapData : Type := mkWorldMapData {
  width : Z;
  height : Z;
  provincesCount : Z;
  statesCount : Z;
  countriesCount : Z;
  badProvincesCount : Z;
  badStatesCount : Z;
  warnings : V;
  continents : V;
  terrains : V;
  provinces : Z -> V;
  states : Z -> V;
  countries : Z -> V
}.

Inductive WorldMapMessage : Type :=
| Change (command : Command) (data : string) (first last : Z)
| Progress (data : string)
| ProvinceMapSummary (data : WorldMapData)
| Error (data : string).

Definition isEqual (a b : V) : bool := bool_decide (a = b).

Definition changeMessagesCountLimit : Z := 30.
Definition messageCountLimit : Z := 300.

Definition overLimit (changeMessages : list WorldMapMessage) : bool :=
  Z.of_nat (length changeMessages) >? changeMessagesCountLimit.

(** The [for (let i = listStart; i <= listEnd; i++)] loop of
    [fillMessageForItem] over the remaining indices; the loop-carried
    variables are [changeMessages] and [lastDifferenceStart]. *)
Fixpoint fillLoop (lst cachedList : Z -> V) (command : Command) (listEnd : Z)
    (indices : list Z) (changeMessages : list WorldMapMessage)
    (lastDifferenceStart : option Z) : list WorldMapMessage * bool :=
  match indices with
  | [] => (changeMessages, true)
  | i :: rest =>
      if (i =? listEnd) || isEqual (lst i) (cachedList i)
      then
        match lastDifferenceStart with
        | Some s =>
            let pushed := changeMessages
                          ++ [Change command (stringifySlice lst s i) s i] in
            if overLimit pushed then (pushed, false)
            else fillLoop lst cachedList command listEnd rest pushed None
        | None => fillLoop lst cachedList command listEnd rest changeMessages None
        end
      else
        match lastDifferenceStart with
        | None => fillLoop lst cachedList command listEnd rest changeMessages (Some i)
        | Some s =>
            if (i - s >=? messageCountLimit)
            then
              let pushed := changeMessages
                            ++ [Change command (stringifySlice lst s i) s i] in
              if overLimit pushed then (pushed, false)
              else fillLoop lst cachedList command listEnd rest pushed (Some i)
            else fillLoop lst cachedList command listEnd rest changeMessages (Some s)
        end
  end.

Definition fillMessageForItem (changeMessages : list WorldMapMessage)
    (lst cachedList : Z -> V) (command : Command) (listStart listEnd : Z)
    : list WorldMapMessage * bool :=
  fillLoop lst cachedList command listEnd
    (seqZ listStart (listEnd - listStart + 1)) changeMessages None.

Definition scalarsDiffer (cachedWorldMap worldMap : WorldMapData) : bool :=
  existsb (fun k => negb (k cachedWorldMap =? k worldMap))
    [width; height; provincesCount; statesCount; countriesCount;
     badProvincesCount; badStatesCount].

Definition wholeChange (command : Command) (field : WorldMapData -> V)
    (cachedWorldMap worldMap : WorldMapData) : list WorldMapMessage :=
  if isEqual (field cachedWorldMap) (field worldMap) then []
  else [Change command (stringify (field worldMap)) 0 0].

(** [sendDifferences]: the messages posted to the webview, in order, and the
    returned boolean. *)
Definition sendDifferences (cachedWorldMap worldMap : WorldMapData)
    : list WorldMapMessage * bool :=
  let comparing := [Progress "Comparing changes..."] in
  if scalarsDiffer cachedWorldMap worldMap then (comparing, false)
  else
    let m0 := wholeChange CmdWarnings warnings cachedWorldMap worldMap
              ++ wholeChange CmdContinents continents cachedWorldMap worldMap
              ++ wholeChange CmdTerrains terrains cachedWorldMap worldMap in
    let '(m1, ok1) := fillMessageForItem m0 (provinces worldMap)
                        (provinces cachedWorldMap) CmdProvinces
                        (badProvincesCount worldMap) (provincesCount worldMap) in
    if negb ok1 then (comparing, false)
    else
      let '(m2, ok2) := fillMessageForItem m1 (states worldMap)
                          (states cachedWorldMap) CmdStates
                          (badStatesCount worldMap) (statesCount worldMap) in
      if negb ok2 then (comparing, false)
      else
        let '(m3, ok3) := fillMessageForItem m2 (countries worldMap)
                            (countries cachedWorldMap) CmdCountries
                            0 (countriesCount worldMap) in
        if negb ok3 then (comparing, false)
        else (comparing ++ [Progress "Applying changes..."] ++ m3 ++ [Progress ""],
              true).

(** [{ ...worldMap, colorByPosition: undefined, provinces: [], states: [], countries: [] }] *)
Definition summaryOf (worldMap : WorldMapData) : WorldMapData :=
  mkWorldMapData (width worldMap) (height worldMap) (provincesCount worldMap)
    (statesCount worldMap) (countriesCount worldMap) (badProvincesCount worldMap)
    (badStatesCount worldMap) (warnings worldMap) (continents worldMap)
    (terrains worldMap) (fun _ => undefinedValue) (fun _ => undefinedValue)
    (fun _ => undefinedValue).

(** [sendProvinceMapSummaryToWebview(force)]: [cachedWorldMap] is the field of
    the session, [loaded] the outcome of [worldMapLoader.load(force)]; the
    result is the new [cachedWorldMap] and the messages this method and
    [sendDifferences] post (the progress texts of the loaders, posted while
    [load] runs, come before them and are left out). *)
Definition sendProvinceMapSummaryToWebview (cachedWorldMap : option WorldMapData)
    (force : bool) (loaded : Outcome WorldMapData)
    : option WorldMapData * list WorldMapMessage :=
  match loaded with
  | Thrown e => (cachedWorldMap, [Error ("Failed to load world map " +:+ e)])
  | Returned worldMap =>
      let summary := [ProvinceMapSummary (summaryOf worldMap)] in
      match (if force then None else cachedWorldMap) with
      | Some oldCachedWorldMap =>
          let '(posted, sent) := sendDifferences oldCachedWorldMap worldMap in
          (Some worldMap, if sent then posted else posted ++ summary)
      | None => (Some worldMap, summary)
      end
  end.

(** The change messages a comparison queues when nothing bounds their
    number: the same loop as [fillLoop] without the count check. *)
Fixpoint changeRuns (lst cachedList : Z -> V) (command : Command) (listEnd : Z)
    (indices : list Z) (lastDifferenceStart : option Z) : list WorldMapMessage :=
  match indices with
  | [] => []
  | i :: rest =>
      if (i =? listEnd) || isEqual (lst i) (cachedList i)
      then
        match lastDifferenceStart with
        | Some s => Change command (stringifySlice lst s i) s i
                    :: changeRuns lst cachedList command listEnd rest None
        | None => changeRuns lst cachedList command listEnd rest None
        end
      else
        match lastDifferenceStart with
        | None => changeRuns lst cachedList command listEnd rest (Some i)
        | Some s =>
            if (i - s >=? messageCountLimit)
            then Change command (stringifySlice lst s i) s i
                 :: changeRuns lst cachedList command listEnd rest (Some i)
            else changeRuns lst cachedList command listEnd rest (Some s)
        end
  end.

Definition itemChanges (lst cachedList : Z -> V) (command : Command)
    (listStart listEnd : Z) : list WorldMapMessage :=
  changeRuns lst cachedList command listEnd
    (seqZ listStart (listEnd - listStart + 1)) None.

Definition allChanges (cachedWorldMap worldMap : WorldMapData)
    : list WorldMapMessage :=
  wholeChange CmdWarnings warnings cachedWorldMap worldMap
  ++ wholeChange CmdContinents continents cachedWorldMap worldMap
  ++ wholeChange CmdTerrains terrains cachedWorldMap worldMap
  ++ itemChanges (provinces worldMap) (provinces cachedWorldMap) CmdProvinces
       (badProvincesCount worldMap) (provincesCount worldMap)
  ++ itemChanges (states worldMap) (states cachedWorldMap) CmdStates
       (badStatesCount worldMap) (statesCount worldMap)
  ++ itemChanges (countries worldMap) (countries cachedWorldMap) CmdCountries
       0 (countriesCount worldMap).

End WithValues.

End WorldMapSession.

(** ** common.ts *)

Module Common.

(** Modelled from the spec: the union of two boxes, the smallest box that
    holds both (section 4.3, "union"). *)
Definition unionBox (a b : Zone) : Zone :=
  let xMin := Z.min (zx a) (zx b) in
  let yMin := Z.min (zy a) (zy b) in
  let xMax := Z.max (zx a + zw a) (zx b + zw b) in
  let yMax := Z.max (zy a + zh a) (zy b + zh b) in
  mkZone xMin yMin (xMax - xMin) (yMax - yMin).

(** Modelled from the spec: a box moved along the x axis, for the
    "wraparound-adjusted" union of section 4.3. *)
Definition shiftX (z : Zone) (dx : Z) : Zone :=
  mkZone (zx z + dx) (zy z) (zw z) (zh z).

(** Modelled from the spec: the three relative placements of two boxes on a
    cylinder of circumference [width] ("the map's x-axis wraps at mapWidth"):
    as given, the first moved one turn to the left, the second moved one turn
    to the left. *)
Definition placements (width : Z) : list (Z * Z) :=
  [(0, 0); (- width, 0); (0, - width)].

(** Modelled from the spec: the union of the two boxes under a placement. *)
Definition placedUnion (a b : Zone) (d : Z * Z) : Zone :=
  unionBox (shiftX a (fst d)) (shiftX b (snd d)).

(** Modelled from the spec: of two placements the one with the narrower
    union ("minimizes total width"); the earlier one on a tie. *)
Definition narrower (a b : Zone) (best d : Z * Z) : Z * Z :=
  if zw (placedUnion a b d) <? zw (placedUnion a b best) then d else best.

(** Modelled from the spec: the placement "that minimizes total width". *)
Definition bestPlacement (a b : Zone) (width : Z) : Z * Z :=
  fold_left (narrower a b) (placements width) (0, 0).

(** Modelled from the spec: [mergeBoundingBox] of common.ts, which is not
    among these files.  Section 4.3: "for two boxes, compute the
    wraparound-adjusted union that minimizes total width, assuming the map's
    x-axis wraps at mapWidth"; section 3: "merging two bounding boxes chooses
    the shorter wraparound span". *)
Definition mergeBoundingBox (a b : Zone) (width : Z) : Zone :=
  placedUnion a b (bestPlacement a b width).

(** The union a merge without wraparound gives: plain minimum and maximum. *)
Definition naiveUnion (a b : Zone) : Zone := unionBox a b.

(** Modelled from the spec: the "mass-weighted centroid" of two
    coordinates. *)
Definition weighted (ma : Z) (xa : Q) (mb : Z) (xb : Q) : Q :=
  ((inject_Z ma * xa + inject_Z mb * xb) / inject_Z (ma + mb))%Q.

(** Modelled from the spec: the merge of two regions of section 4.3: the
    cylindrical merge of the boxes, the sum of the masses, the mass-weighted
    centroid with the x coordinates moved as the boxes are. *)
Definition mergeTwoRegions (width : Z) (a b : Region) : Region :=
  let d := bestPlacement (boundingBox a) (boundingBox b) width in
  mkRegion
    (placedUnion (boundingBox a) (boundingBox b) d)
    (mkPoint
       (weighted (mass a) (ptx (centerOfMass a) + inject_Z (fst d))%Q
                 (mass b) (ptx (centerOfMass b) + inject_Z (snd d))%Q)
       (weighted (mass a) (pty (centerOfMass a)) (mass b) (pty (centerOfMass b))))
    (mass a + mass b).

(** Modelled from the spec: [mergeRegions] of common.ts, which is not among
    these files.  Section 4.3: it "reduces a non-empty list of member bounding
    boxes into one box using a cylindrical merge"; "Mass = sum of member
    masses"; "Center of mass = mass-weighted centroid, also wraparound-aware
    on x". *)
Definition mergeRegions (members : list Region) (width : Z) : Region :=
  match members with
  | [] => zeroRegion
  | first :: others => fold_left (mergeTwoRegions width) others first
  end.

(** Modelled from the spec: the dense array and the bad id that the
    reconciliation pass of section 4.2 builds up. *)
Record Reconciled : Type := mkReconciled {
  sorted : gmap Z StateNoBoundingBox;
  badId : Z
}.

Section SortItems.

Variable onConflict : StateNoBoundingBox -> StateNoBoundingBox -> Z -> Eff unit.
Variable onNotExist : Z -> Z -> Eff unit.

(** Modelled from the spec: steps 1 and 2 of section 4.2 for one record. *)
Definition placeItem (st : Reconciled) (p : StateNoBoundingBox) : Eff Reconciled :=
  let '(p1, bad1) :=
    if stateId p <=? 0
    then (withStateId p (badId st), badId st - 1)
    else (p, badId st) in
  match sorted st !! stateId p1 with
  | Some existing =>
      onConflict p1 existing bad1
      >>> ret (mkReconciled (<[bad1 := withStateId p1 bad1]> (sorted st)) (bad1 - 1))
  | None => ret (mkReconciled (<[stateId p1 := p1]> (sorted st)) bad1)
  end.

(** Modelled from the spec: step 3 of section 4.2 for one id. *)
Definition reportGaps (result : gmap Z StateNoBoundingBox)
    (lastNotExistId : option Z) (i : Z) : Eff (option Z) :=
  match result !! i, lastNotExistId with
  | Some _, Some s => onNotExist s (i - 1) >>> ret None
  | Some _, None => ret None
  | None, None => ret (Some i)
  | None, Some s => ret (Some s)
  end.

End SortItems.

(** Modelled from the spec: [sortItems] of common.ts, which is not among these
    files, at the item type of states.  Section 4.2 "ID reconciliation": a
    record with id <= 0 gets a synthetic negative id decrementing from -1; a
    record claiming an occupied id gets a synthetic id and a conflict warning
    while the earlier record keeps the id; every run of missing ids in
    [1, maxObservedId] produces one ranged gap warning; a maximum id above the
    bound is fatal; the result is the dense array and the bad id. *)
Definition sortItems (items : list StateNoBoundingBox) (validMaxId : Z)
    (onMaxIdTooLarge : Z -> Eff unit)
    (onConflict : StateNoBoundingBox -> StateNoBoundingBox -> Z -> Eff unit)
    (onNotExist : Z -> Z -> Eff unit)
    : Eff (JsArray StateNoBoundingBox * Z) :=
  let maxId := StatesInline.maxStateId items in
  when (maxId >? validMaxId) (onMaxIdTooLarge maxId) >>>
  let* st := foldEff (placeItem onConflict) items (mkReconciled ∅ (-1)) in
  foldEff (reportGaps onNotExist (sorted st)) (seqZ 1 maxId) None >>>
  ret (mkJsArray (sorted st) (maxId + 1), badId st).

End Common.

(** ** states.ts (bounding-box version): [calculateBoundingBox] *)

(** [State] of the version that keeps a bounding box only. *)
Record BoxedState : Type := mkBoxedState {
  boxedBase : StateNoBoundingBox;
  boxedBox : Zone
}.

Module StatesBox.

Section WithCommon.

(** [mergeBoundingBox] is imported from "./common". *)
Variable mergeBoundingBox : Zone -> Zone -> Z -> Zone.

(** The callback of [state.provinces.map(p => ...)]: pushes the warning for a
    province that does not resolve and returns [province?.boundingBox]. *)
Definition resolveZone (s : StateNoBoundingBox) (provinces : gmap Z Province)
    (p : Z) : Eff (option Zone) :=
  match provinces !! p with
  | Some province => ret (Some (boundingBox (provinceRegion province)))
  | None => push (StatesRegion.provinceNotExistWarning s p) >>> ret None
  end.

(** [zones.reduce((p, c) => mergeBoundingBox(p, c, width))] on a list that is
    not empty. *)
Definition reduceZones (width : Z) (first : Zone) (others : list Zone) : Zone :=
  fold_left (fun p c => mergeBoundingBox p c width) others first.

Definition tooLargeWarning (s : StateNoBoundingBox) (box : Zone) : Warning :=
  mkWarning [stateSource (stateId s)] [stateFile s]
    (StateTooLarge (stateId s) (zw box) (zh box)).

Definition calculateBoundingBox (noBoundingBoxState : StateNoBoundingBox)
    (provinces : gmap Z Province) (width height : Z) : Eff BoxedState :=
  let* slots := mapEff (resolveZone noBoundingBoxState provinces)
                  (stateProvinces noBoundingBoxState) in
  match omap id slots with
  | first :: others =>
      let box := reduceZones width first others in
      when ((2 * zw box >? width) || (2 * zh box >? height))
           (push (tooLargeWarning noBoundingBoxState box))
      >>> ret (mkBoxedState noBoundingBoxState box)
  | [] =>
      push (StatesRegion.noValidProvincesWarning noBoundingBoxState)
      >>> ret (mkBoxedState noBoundingBoxState (mkZone 0 0 0 0))
  end.

End WithCommon.

End StatesBox.

(** ** strategicregion.ts: the state loop of [validateProvincesInStrategicRegions] *)

Module StrategicRegionValidation.

(** [state.provinces.filter(p => provinces[p])
      .map(p => [p, provinceToStrategicRegion[p]]).filter(p => p[1] !== undefined)] *)
Definition strategicRegionId (provinces : gmap Z Province)
    (provinceToStrategicRegion : gmap Z Z) (stateProvinces : list Z) : list (Z * Z) :=
  omap (fun p => if bool_decide (is_Some (provinces !! p))
                 then (fun sr => (p, sr)) <$> provinceToStrategicRegion !! p
                 else None)
    stateProvinces.

(** The object [strategicRegionIdCount]: its values and its keys in the
    order they were first written. *)
Record Counts : Type := mkCounts {
  countOf : gmap Z Z;
  inserted : list Z
}.

(** [strategicRegionIdCount[sr] = (strategicRegionIdCount[sr] ?? 0) + 1] *)
Definition countStep (c : Counts) (pair : Z * Z) : Counts :=
  let sr := snd pair in
  mkCounts (<[sr := default 0 (countOf c !! sr) + 1]> (countOf c))
    (if bool_decide (is_Some (countOf c !! sr)) then inserted c else inserted c ++ [sr]).

Definition strategicRegionIdCount (pairs : list (Z * Z)) : Counts :=
  fold_left countStep pairs (mkCounts ∅ []).

(** [Object.entries(strategicRegionIdCount)] *)
Definition entries (c : Counts) : list (Z * Z) :=
  map (fun k => (k, default 0 (countOf c !! k))) (SupplyAreas.objectKeys (inserted c)).

(** [entries.sort((a, b) => b[1] - a[1])]: the sort is stable, so an entry
    goes behind the entries before it that count at least as much. *)
Fixpoint insertByCount (e : Z * Z) (l : list (Z * Z)) : list (Z * Z) :=
  match l with
  | [] => [e]
  | x :: l' => if snd x <? snd e then e :: x :: l' else x :: insertByCount e l'
  end.

Definition sortByCount (l : list (Z * Z)) : list (Z * Z) :=
  fold_left (fun acc e => insertByCount e acc) l [].

(** The [badProvinces] of the loop body for one state; [None] when the body
    pushes no warning. *)
Definition badProvinces (provinces : gmap Z Province)
    (provinceToStrategicRegion : gmap Z Z) (stateProvinces : list Z)
    : option (list Z) :=
  let pairs := strategicRegionId provinces provinceToStrategicRegion stateProvinces in
  let es := entries (strategicRegionIdCount pairs) in
  if 1 <? Z.of_nat (length es)
  then match sortByCount es with
       | entry :: _ =>
           let mostStrategicRegionId := fst entry in
           Some (map fst (List.filter (fun v => negb (snd v =? mostStrategicRegionId)) pairs))
       | [] => None
       end
  else None.

End StrategicRegionValidation.

(** ** Webview utilities (common.ts of the webview) *)

Module WebviewCommon.

(** [dst[j] = v] on an array: an [undefined] value reads like a missing
    element.  Writing at an array index, 0 to 2^32 - 2, at or past the end
    moves [length]; any other subscript names an ordinary property. *)
Definition writeAt {A : Type} (dst : JsArray A) (j : Z) (v : option A) : JsArray A :=
  mkJsArray (partial_alter (fun _ => v) j (items dst))
    (if (0 <=? j) && (j <? 4294967295) then Z.max (alength dst) (j + 1)
     else alength dst).

(** [copyArray(src, dst, offsetSrc, offsetDst, length)] for two different
    arrays; the result is [dst] after the loop. *)
Definition copyArray {A : Type} (src dst : JsArray A) (offsetSrc offsetDst length : Z)
    : JsArray A :=
  fold_left (fun d k => writeAt d (offsetDst + k) (items src !! (offsetSrc + k)))
    (seqZ 0 length) dst.

(** [copyArray(a, a, offsetSrc, offsetDst, length)]: source and destination
    are the same array object, so every read sees the writes before it. *)
Definition copyArrayInPlace {A : Type} (a : JsArray A) (offsetSrc offsetDst length : Z)
    : JsArray A :=
  fold_left (fun d k => writeAt d (offsetDst + k) (items d !! (offsetSrc + k)))
    (seqZ 0 length) a.

(** [result[id] = item] on the plain object [result], kept as its own
    properties.  A name other than [__proto__] becomes an own property.
    [__proto__] is the accessor inherited from [Object.prototype]: assigning
    to it adds no property, and for an item that is an object it replaces the
    prototype of [result]; from then on an assignment goes through whatever
    accessors that item has, and the embedding ends ([None]). *)
Definition assignProperty {T : Type} (isObject : T -> bool) (result : gmap string T)
    (id : string) (item : T) : option (gmap string T) :=
  if String.eqb id "__proto__"
  then if isObject item then None else Some result
  else Some (<[id := item]> result).

(** [arrayToMap(items, key)]: [key item] is the property name [item[key]]
    gives when it is a string or a number, and [None] otherwise;
    [arrayToMapStep] is the body of [for (const item of items)]. *)
Definition arrayToMapStep {T : Type} (isObject : T -> bool) (key : T -> option string)
    (result : option (Outcome (gmap string T))) (item : T)
    : option (Outcome (gmap string T)) :=
  match result with
  | Some (Returned m) =>
      match key item with
      | Some id => Returned <$> assignProperty isObject m id item
      | None => Some (Thrown "key of arrayToMap must be a string or number type")
      end
  | ended => ended
  end.

Definition arrayToMap {T : Type} (isObject : T -> bool) (key : T -> option string)
    (items : list T) : option (Outcome (gmap string T)) :=
  fold_left (arrayToMapStep isObject key) items (Some (Returned ∅)).

End WebviewCommon.

(** ** focustree/contentbuilder.ts: placement of the grid *)

Module FocusTreeLayout.

Definition leftPaddingBase : Z := 30.
Definition topPaddingBase : Z := 30.
Definition xGridSize : Z := 90.
Definition optionHeight : Z := 20.

(** [focuses.reduce((p, c) => p > c.x ? c.x : p, 1000)] on the [x] of the
    focuses. *)
Definition minX (xs : list Z) : Z :=
  fold_left (fun p x => if p >? x then x else p) xs 1000.

Definition leftPadding (xs : list Z) : Z := leftPaddingBase - minX xs * xGridSize.

Definition topPadding (allowBranchOptions : nat) : Z :=
  Z.of_nat allowBranchOptions * optionHeight + topPaddingBase.

End FocusTreeLayout.

(** ** Vocabulary of the statements *)


Definition isGapWarning (w : Warning) : bool :=
  match text w with StateNotExist _ => true | _ => false end.

Definition isMultiStatesFor (p : Z) (w : Warning) : bool :=
  match text w with ProvinceInMultiStates q _ _ => q =? p | _ => false end.

Definition isMultiSupplyAreasFor (s : Z) (w : Warning) : bool :=
  match text w with StateInMultipleSupplyAreas q _ _ => q =? s | _ => false end.

(** [w] names the entity of type [t] and id [i] among its sources. *)
Definition mentions (t : SourceType) (i : Z) (w : Warning) : bool :=
  existsb (fun src => bool_decide (sourceType src = t) && (sourceId src =? i))
    (source w).

(** Warnings of the state validator about the province [p]: the multi-state
    warning for [p] and any warning with [p] among its sources. *)
Definition aboutProvince (p : Z) (w : Warning) : bool :=
  isMultiStatesFor p w || mentions SrcProvince p w.

(** Warnings of the supply-area validator about the state [s]. *)
Definition aboutMemberState (s : Z) (w : Warning) : bool :=
  isMultiSupplyAreasFor s w || mentions SrcState s w.

(** [ws'] is [ws] followed by warnings none of which [f] selects. *)
Definition quietFor (f : Warning -> bool) (ws ws' : list Warning) : Prop :=
  exists extra, ws' = ws ++ extra /\ Forall (fun w => f w = false) extra.

(** [maxObservedId] is the largest id of the raw records, 0 when none of
    them has a positive id. *)
Definition largestId (states : list StateNoBoundingBox) (maxObservedId : Z) : Prop :=
  0 <= maxObservedId
  /\ Forall (fun p => stateId p <= maxObservedId) states
  /\ (maxObservedId = 0 \/ Exists (fun p => stateId p = maxObservedId) states).

(** Some raw record claims the id [i]. *)
Definition claimed (states : list StateNoBoundingBox) (i : Z) : Prop :=
  Exists (fun p => stateId p = i) states.

(** [s..e] is a maximal run of ids in [1, maxId] that have no record. *)
Definition missingRun (arr : gmap Z StateNoBoundingBox) (maxId s e : Z) : Prop :=
  1 <= s /\ s <= e /\ e <= maxId
  /\ (forall i, s <= i <= e -> arr !! i = None)
  /\ (s = 1 \/ is_Some (arr !! (s - 1)))
  /\ (e = maxId \/ is_Some (arr !! (e + 1))).

(** The warning [sortStates] of states.ts pushes for the run [s..e]: its
    source is the first id after the run. *)
Definition gapWarningOfRun (run : Z * Z) : Warning :=
  mkWarning [stateSource (snd run + 1)] []
    (StateNotExist (if fst run =? snd run then OneId (snd run)
                    else IdRange (fst run) (snd run))).

(** The gap loop with its warnings reduced to the runs they report. *)
Definition runStep (r : gmap Z StateNoBoundingBox)
    (acc : option Z * list (Z * Z)) (i : Z) : option Z * list (Z * Z) :=
  match r !! i, fst acc with
  | Some _, Some l => (None, snd acc ++ [(l, i - 1)])
  | Some _, None => (None, snd acc)
  | None, None => (Some i, snd acc)
  | None, Some l => (Some l, snd acc)
  end.

(** What holds after the gap loop has handled the ids [1..j]. *)
Definition runsInvariant (r : gmap Z StateNoBoundingBox) (j : Z)
    (acc : option Z * list (Z * Z)) : Prop :=
  match fst acc with
  | Some l => 1 <= l /\ l <= j /\ (forall i, l <= i <= j -> r !! i = None)
              /\ (l = 1 \/ is_Some (r !! (l - 1)))
  | None => j = 0 \/ is_Some (r !! j)
  end
  /\ NoDup (snd acc)
  /\ (forall s e, (s, e) ∈ snd acc <->
        1 <= s /\ s <= e /\ e < j
        /\ (forall i, s <= i <= e -> r !! i = None)
        /\ (s = 1 \/ is_Some (r !! (s - 1)))
        /\ is_Some (r !! (e + 1))).

(** The number of records of [l] that reconciliation gives a synthetic id:
    those with the sentinel id -1 and those whose id an earlier record
    claimed; [seen] are the ids claimed so far. *)
Fixpoint reassigned (seen : list Z) (l : list StateNoBoundingBox) : nat :=
  match l with
  | [] => O
  | p :: l' =>
      if bool_decide (stateId p = -1 \/ stateId p ∈ seen)
      then S (reassigned seen l')
      else reassigned (stateId p :: seen) l'
  end.

(** The placement state agrees with the ids [seen] so far and nothing lies
    at or below the counter. *)
Definition tracks (st : StatesInline.Placement) (seen : list Z) : Prop :=
  StatesInline.badStateId st < 0
  /\ (forall k, 0 < k -> is_Some (StatesInline.result st !! k) <-> k ∈ seen)
  /\ (forall k, k <= StatesInline.badStateId st -> StatesInline.result st !! k = None).

Definition resolvedProvinces (provinces : gmap Z Province) (l : list Z) : list Province :=
  omap (fun p => provinces !! p) l.

Definition unresolvedProvinces (provinces : gmap Z Province) (l : list Z) : list Z :=
  List.filter (fun p => negb (bool_decide (is_Some (provinces !! p)))) l.

(** The region [calculateBoundingBox] of a state assigns. *)
Definition expectedRegion (mergeRegions : list Region -> Z -> Region)
    (provinces : gmap Z Province) (width : Z) (s : StateNoBoundingBox) : Region :=
  match resolvedProvinces provinces (stateProvinces s) with
  | [] => zeroRegion
  | members => mergeRegions (map provinceRegion members) width
  end.

(** Every owner recorded in the reverse map is a slot of the array. *)
Definition ownersExist (filled : JsArray State) (pts : gmap Z Z) : Prop :=
  forall q o, pts !! q = Some o -> is_Some (items filled !! o).

Definition indexedById (filled : JsArray State) : Prop :=
  forall i st, items filled !! i = Some st -> stateId (stateBase st) = i.

Definition sid (s : State) : Z := stateId (stateBase s).

(** One edge of the traversal of [checkStatesContiguous]: from a reached
    member [x] to a member [y] one of whose provinces has a passable edge to
    an existing province of [x]. *)
Definition step (provinces : gmap Z Province) (states : list State)
    (x y : State) : Prop :=
  y ∈ states /\ SupplyAreas.statesAreAdjacent y x provinces = true.

Definition reachable (provinces : gmap Z Province) (states : list State)
    (first s : State) : Prop :=
  rtc (step provinces states) first s.

(** The loop invariant of the traversal. *)
Definition traversing (provinces : gmap Z Province) (states : list State)
    (first : State) (stack : list State) (acc : list Z) : Prop :=
  NoDup acc
  /\ (forall i, i ∈ acc ->
        exists x, x ∈ states /\ sid x = i /\ reachable provinces states first x)
  /\ (forall x, x ∈ stack -> x ∈ states /\ sid x ∈ acc)
  /\ (forall x, x ∈ states -> sid x ∈ acc ->
        x ∈ stack \/ forall y, y ∈ states ->
                       SupplyAreas.statesAreAdjacent y x provinces = true ->
                       sid y ∈ acc).

(** The raw list [mergeFiles] hands to [sortStates]: the records of every
    state file, in file order. *)
Definition loadedStates (files : list (string * list StateDefinition))
    : list StateNoBoundingBox :=
  flat_map (fun fd => fst (loadState (fst fd) (snd fd))) files.

(** The index [j] lies in the range a change message replaces. *)
Definition covers {V : Type} (j : Z) (m : @WorldMapSession.WorldMapMessage V) : Prop :=
  match m with
  | WorldMapSession.Change _ _ first last => first <= j < last
  | _ => False
  end.

(** [m] is a message of [command] for a range of [lst] inside
    [listStart, listEnd] that starts at a changed item, is not empty, holds at
    most [messageCountLimit] items and carries the slice of that range. *)
Definition isRunOf {V : Type} (stringifySlice : (Z -> V) -> Z -> Z -> string)
    (lst cachedList : Z -> V) (command : WorldMapSession.Command)
    (listStart listEnd : Z) (m : @WorldMapSession.WorldMapMessage V) : Prop :=
  exists first last,
    m = WorldMapSession.Change command (stringifySlice lst first last) first last
    /\ listStart <= first /\ first < last /\ last <= listEnd
    /\ last - first <= WorldMapSession.messageCountLimit
    /\ lst first <> cachedList first.

(** Passable edges come in pairs: when a province has a passable edge to an
    existing province, that province has a passable edge back. *)
Definition symmetricEdges (provinces : gmap Z Province) : Prop :=
  forall p prov e prov',
    provinces !! p = Some prov -> e ∈ provinceEdges prov ->
    edgeType e <> "impassable" -> provinces !! edgeTo e = Some prov' ->
    exists e', e' ∈ provinceEdges prov' /\ edgeTo e' = p /\ edgeType e' <> "impassable".

(** The state at the index [j] lists the province [q]. *)
Definition lists (filled : JsArray State) (j q : Z) : Prop :=
  exists sj, items filled !! j = Some sj /\ q ∈ stateProvinces (stateBase sj).

(** [o] is the first index from [lo] on whose state lists [q]. *)
Definition firstToList (filled : JsArray State) (lo o q : Z) : Prop :=
  lo <= o /\ lists filled o q /\ forall j, lo <= j < o -> ~ lists filled j q.

(** What a multi-state warning of a validation that starts at [lo] says. *)
Definition namesFirstOwner (provinces : gmap Z Province) (filled : JsArray State)
    (lo : Z) (w : Warning) : Prop :=
  forall p o i, text w = ProvinceInMultiStates p o i ->
    is_Some (provinces !! p)
    /\ firstToList filled lo o p /\ o <= i /\ lists filled i p
    /\ exists so si, items filled !! o = Some so /\ items filled !! i = Some si
                     /\ relatedFiles w = [stateFile (stateBase si); stateFile (stateBase so)].

(** What the validation loop keeps while it is at the state of index [i]:
    every recorded owner is the first state to list the province, every
    province of an earlier state is recorded, and every multi-state warning
    pushed so far names the first owner. *)
Definition validating (provinces : gmap Z Province) (filled : JsArray State)
    (lo i : Z) (ws0 : list Warning) (pts : gmap Z Z) (ws : list Warning) : Prop :=
  ownersExist filled pts
  /\ (forall q o, pts !! q = Some o -> o <= i /\ firstToList filled lo o q)
  /\ (forall j q, lo <= j < i -> lists filled j q -> is_Some (pts !! q))
  /\ exists extra, ws = ws0 ++ extra /\ Forall (namesFirstOwner provinces filled lo) extra.

(** Every supply area of the array sits at the index that is its id. *)
Definition indexedSupplyAreas (supplyAreas : JsArray SupplyArea) : Prop :=
  forall i a, items supplyAreas !! i = Some a -> saId (saBase a) = i.

(** Every owner recorded in [stateToSupplyArea] is a slot of the array. *)
Definition supplyOwnersExist (supplyAreas : JsArray SupplyArea) (m : gmap Z Z) : Prop :=
  forall s o, m !! s = Some o -> is_Some (items supplyAreas !! o).

(** Some supply area at an index from [bad] on lists the state [s]. *)
Definition listedIn (supplyAreas : JsArray SupplyArea) (bad s : Z) : bool :=
  existsb (fun j => match items supplyAreas !! j with
                    | Some a => bool_decide (s ∈ saStates (saBase a))
                    | None => false
                    end)
    (seqZ bad (alength supplyAreas - bad)).

Definition isNoSupplyArea (w : Warning) : bool :=
  match text w with StateNoSupplyArea _ => true | _ => false end.

(** The warnings of the second loop of [validateStatesInSupplyAreas]: one for
    every state from index 1 on that no supply area lists. *)
Definition unassignedWarnings (states : JsArray State) (supplyAreas : JsArray SupplyArea)
    (bad : Z) : list Warning :=
  omap (fun i => match items states !! i with
                 | Some st => if listedIn supplyAreas bad i then None
                              else Some (SupplyAreas.noSupplyAreaWarning i st)
                 | None => None
                 end)
    (seqZ 1 (alength states - 1)).

(** The region [calculateBoundingBox] of strategicregion.ts assigns when
    every province resolves. *)
Definition expectedStrategicRegion (mergeRegions : list Region -> Z -> Region)
    (provinces : gmap Z Province) (width : Z) (r : StrategicRegionNoRegion) : Region :=
  match resolvedProvinces provinces (srProvinces r) with
  | [] => zeroRegion
  | members => mergeRegions (map provinceRegion members) width
  end.

Definition allResolve (provinces : gmap Z Province) (l : list Z) : bool :=
  forallb (fun p => bool_decide (is_Some (provinces !! p))) l.

(** How many of the pairs lie in the strategic region [sr]. *)
Definition occurrences (pairs : list (Z * Z)) (sr : Z) : Z :=
  Z.of_nat (length (List.filter (fun v => snd v =? sr) pairs)).

(** [mergeRegions] gives the box that reducing the member boxes with
    [mergeBoundingBox] gives. *)
Definition mergesBoxes (mergeBoundingBox : Zone -> Zone -> Z -> Zone)
    (mergeRegions : list Region -> Z -> Region) : Prop :=
  forall first others width,
    boundingBox (mergeRegions (first :: others) width)
    = StatesBox.reduceZones mergeBoundingBox width (boundingBox first)
        (map boundingBox others).

(** The range of the first message ends where the range of the second
    starts, or before. *)
Definition endsBefore {V : Type} (m m' : @WorldMapSession.WorldMapMessage V) : Prop :=
  match m, m' with
  | WorldMapSession.Change _ _ _ last, WorldMapSession.Change _ _ first' _ => last <= first'
  | _, _ => False
  end.

(** The range of the message starts at [i] or after. *)
Definition startsFrom {V : Type} (i : Z) (m : @WorldMapSession.WorldMapMessage V) : Prop :=
  match m with
  | WorldMapSession.Change _ _ first _ => i <= first
  | _ => False
  end.

(** ** Sample data *)

Definition rawState (id : Z) (file : string) (provinces : list Z) : StateNoBoundingBox :=
  mkStateNB id "" 0 "" None provinces [] false ∅ file.

Definition sampleProvince : Province :=
  mkProvince 1 255 "land" [] (mkRegion (mkZone 10 10 5 5) (mkPoint 12 12) 1).

Definition sampleProvinces : gmap Z Province := {[ 1 := sampleProvince ]}.

(** Two state files that both list province 1. *)
Definition overlappingStates : list StateNoBoundingBox :=
  [rawState 1 "a.txt" [1]; rawState 2 "b.txt" [1]].

Definition overlappingSorted : JsArray StateNoBoundingBox :=
  mkJsArray {[ 1 := rawState 1 "a.txt" [1]; 2 := rawState 2 "b.txt" [1] ]} 3.

(** A [state = { id = -5 ... }] block and one without an id. *)
Definition negativeIdDefinition : StateDefinition :=
  mkStateDefinition (Some (-5)) (Some "Far") None (Some "rural") None [1] [] None [].

Definition noIdDefinition : StateDefinition :=
  mkStateDefinition None (Some "Lost") None (Some "rural") None [1] [] None [].

(** A supply area whose [states] block names state 1 twice. *)
Definition sampleState : State := mkState (rawState 1 "s1.txt" [1]) zeroRegion.

Definition repeatingSupplyArea : SupplyArea :=
  mkSupplyArea (mkSupplyAreaNR 1 "Area" 0 [1; 1] "sa.txt") zeroRegion.

(** A strategic region that names a province the map does not have. *)
Definition danglingStrategicRegion : StrategicRegionNoRegion :=
  mkStrategicRegionNR 1 "Sea" [7] None "sr.txt".

(** Two states that list province 9 and two supply areas that list state 9;
    neither the province nor the state exists. *)
Definition danglingStates : JsArray State :=
  mkJsArray {[ 1 := mkState (rawState 1 "a.txt" [9]) zeroRegion;
               2 := mkState (rawState 2 "b.txt" [9]) zeroRegion ]} 3.

Definition danglingSupplyAreas : JsArray SupplyArea :=
  mkJsArray {[ 1 := mkSupplyArea (mkSupplyAreaNR 1 "North" 0 [9] "n.txt") zeroRegion;
               2 := mkSupplyArea (mkSupplyAreaNR 2 "South" 0 [9] "s.txt") zeroRegion ]} 3.

Definition noStates : JsArray State := mkJsArray ∅ 1.

(** Two snapshots equal but for 31 separate provinces, the odd ones. *)
Definition cachedSnapshot : @WorldMapSession.WorldMapData Z :=
  WorldMapSession.mkWorldMapData 10 10 62 0 0 0 0 0 0 0
    (fun _ => 0) (fun _ => 0) (fun _ => 0).

Definition changedSnapshot : @WorldMapSession.WorldMapData Z :=
  WorldMapSession.mkWorldMapData 10 10 62 0 0 0 0 0 0 0
    (fun i => if Z.odd i then 1 else 0) (fun _ => 0) (fun _ => 0).

Definition noJson (v : Z) : string := "".
Definition noJsonSlice (lst : Z -> Z) (a b : Z) : string := "".

(** A raw id -2, then three records that claim the id 5. *)
Definition crowdedStates : list StateNoBoundingBox :=
  [rawState (-2) "a.txt" []; rawState 5 "b.txt" []; rawState 5 "c.txt" [];
   rawState 5 "d.txt" []].

(** Three states in a row: province 1 - 2 - 3, one province each. *)
Definition chainProvince (id : Z) (neighbours : list Z) : Province :=
  mkProvince id 0 "land" (map (fun n => mkEdge n "") neighbours) zeroRegion.

Definition chainProvinces : gmap Z Province :=
  {[ 1 := chainProvince 1 [2]; 2 := chainProvince 2 [1; 3]; 3 := chainProvince 3 [2] ]}.

Definition chainState (id : Z) : State := mkState (rawState id "s.txt" [id]) zeroRegion.

(** Two states that both list province 1 of the sample map. *)
Definition overlappingFilled : JsArray State :=
  mkJsArray {[ 1 := mkState (rawState 1 "a.txt" [1]) zeroRegion;
               2 := mkState (rawState 2 "b.txt" [1]) zeroRegion ]} 3.

(** Supply area 1 lists the states 1 and 2 of the chain; state 3 is in no
    supply area. *)
Definition chainStates : JsArray State :=
  mkJsArray {[ 1 := chainState 1; 2 := chainState 2; 3 := chainState 3 ]} 4.

Definition chainSupplyAreas : JsArray SupplyArea :=
  mkJsArray {[ 1 := mkSupplyArea (mkSupplyAreaNR 1 "West" 0 [1; 2] "sa.txt") zeroRegion ]} 2.

(** Two arrays of numbers. *)
Definition shortArray : JsArray Z := mkJsArray {[ 0 := 7; 1 := 8 ]} 2.
Definition longArray : JsArray Z := mkJsArray {[ 0 := 1; 1 := 2; 2 := 3 ]} 3.

(** Items that are objects, keyed by their first component; the key [a]
    comes twice. *)
Definition keyedItems : list (string * Z) := [("a", 1); ("b", 2); ("a", 3)].
Definition itemKey (item : string * Z) : option string := Some (fst item).
Definition anObject (item : string * Z) : bool := true.
Definition aNumber (item : string * Z) : bool := false.

(** Three members whose ids lie around 2^32 - 1, the first subscript that is
    no array index; the first two touch, the third lists a province that
    does not exist. *)
Definition farStates : list State :=
  [mkState (rawState 4294967296 "s.txt" [1]) zeroRegion;
   mkState (rawState 4294967295 "s.txt" [2]) zeroRegion;
   mkState (rawState 7 "s.txt" [9]) zeroRegion].

(** * Proofs *)

(** Closes a decidable closed goal by evaluation. *)
Ltac by_compute := refine (bool_decide_unpack _ _); vm_compute; exact I.

(** ** Id reconciliation ([sortStates] of states.ts) *)

Section Reconciliation.
Import StatesInline.

Ltac place_cases st p :=
  unfold place;
  destruct (stateId p =? -1) eqn:?; simpl;
  match goal with |- context [result st !! ?k] => destruct (result st !! k) eqn:? end;
  simpl.

Lemma place_bad_le st p : badStateId (place st p) <= badStateId st.
Proof. place_cases st p; lia. Qed.

(** A slot above the counter is never written again. *)
Lemma place_keeps st p k v :
  badStateId st < k -> result st !! k = Some v -> result (place st p) !! k = Some v.
Proof.
  intros Hk Hv. place_cases st p.
  all: try (rewrite lookup_insert_ne by lia; exact Hv).
  rewrite lookup_insert_ne; [exact Hv|]. intros E; subst k. congruence.
Qed.

Lemma placeAll_bad_le l : forall st, badStateId (placeAll l st) <= badStateId st.
Proof.
  induction l as [|p l IH]; intros st; simpl; [lia|].
  etransitivity; [apply IH|apply place_bad_le].
Qed.

Lemma placeAll_keeps l : forall st k v,
  badStateId st < k -> result st !! k = Some v -> result (placeAll l st) !! k = Some v.
Proof.
  induction l as [|p l IH]; intros st k v Hk Hv; simpl; [done|].
  apply IH; [pose proof (place_bad_le st p); lia | by apply place_keeps].
Qed.

Lemma placeAll_app l1 l2 st : placeAll (l1 ++ l2) st = placeAll l2 (placeAll l1 st).
Proof. apply fold_left_app. Qed.

Lemma place_free st p k :
  0 < k -> badStateId st < 0 -> stateId p <> k ->
  result st !! k = None -> result (place st p) !! k = None.
Proof.
  intros Hk Hb Hp Hn. place_cases st p; rewrite lookup_insert_ne; auto; lia.
Qed.

Lemma place_extends st p : exists extra, warnings (place st p) = warnings st ++ extra.
Proof.
  place_cases st p; try (eexists; reflexivity); exists []; by rewrite app_nil_r.
Qed.

Lemma placeAll_extends l : forall st,
  exists extra, warnings (placeAll l st) = warnings st ++ extra.
Proof.
  induction l as [|p l IH]; intros st; simpl.
  { exists []. by rewrite app_nil_r. }
  destruct (IH (place st p)) as [e2 ->]. destruct (place_extends st p) as [e1 ->].
  exists (e1 ++ e2). by rewrite app_assoc.
Qed.

Lemma gapFold_extends r l : forall acc,
  exists extra, snd (fold_left (gapStep r) l acc) = snd acc ++ extra.
Proof.
  induction l as [|i l IH]; intros acc; simpl.
  { exists []. by rewrite app_nil_r. }
  destruct (IH (gapStep r acc i)) as [e2 ->].
  assert (exists e1, snd (gapStep r acc i) = snd acc ++ e1) as [e1 ->].
  { unfold gapStep. destruct (r !! i), (fst acc); simpl;
      try (eexists; reflexivity); exists []; by rewrite app_nil_r. }
  exists (e1 ++ e2). by rewrite app_assoc.
Qed.


Lemma placeAll_free l : forall st k,
  0 < k -> badStateId st < 0 -> Forall (fun p => stateId p <> k) l ->
  result st !! k = None -> result (placeAll l st) !! k = None.
Proof.
  induction l as [|p l IH]; intros st k Hk Hb Hl Hn; simpl; [done|].
  inversion Hl; subst. apply IH; auto.
  - pose proof (place_bad_le st p); lia.
  - by apply place_free.
Qed.


(** The three ways a record is placed. *)
Lemma place_first st p :
  stateId p <> -1 -> result st !! stateId p = None ->
  place st p = mkPlacement (<[stateId p := p]> (result st)) (badStateId st) (warnings st).
Proof.
  intros Hp Hn. unfold place.
  destruct (Z.eqb_spec (stateId p) (-1)); [lia|]. by rewrite Hn.
Qed.

Lemma place_conflict st p a :
  stateId p <> -1 -> result st !! stateId p = Some a ->
  place st p = mkPlacement (<[badStateId st := withStateId p (badStateId st)]> (result st))
                 (badStateId st - 1)
                 (warnings st ++ [conflictWarning p a (badStateId st)]).
Proof.
  intros Hp Hn. unfold place.
  destruct (Z.eqb_spec (stateId p) (-1)); [lia|]. by rewrite Hn.
Qed.

Lemma place_sentinel st p :
  stateId p = -1 -> result st !! badStateId st = None ->
  place st p = mkPlacement (<[badStateId st := withStateId p (badStateId st)]> (result st))
                 (badStateId st - 1) (warnings st).
Proof.
  intros Hp Hn. unfold place. rewrite Hp. simpl. by rewrite Hn.
Qed.



(** [sortStates] only appends to the warnings it is given. *)
Lemma sortStates_extends states ws sorted :
  sortStates states ws = Returned sorted ->
  exists emitted, sortedWarnings sorted = ws ++ emitted.
Proof.
  unfold sortStates. destruct (maxStateId states >? 10000); [done|].
  intros [= <-]. simpl. unfold gapLoop.
  destruct (gapFold_extends (result (placeAll states (mkPlacement ∅ (-1) ws)))
              (seqZ 1 (maxStateId states))
              (None, warnings (placeAll states (mkPlacement ∅ (-1) ws)))) as [e2 ->].
  destruct (placeAll_extends states (mkPlacement ∅ (-1) ws)) as [e1 ->]. simpl.
  exists (e1 ++ e2). by rewrite app_assoc.
Qed.




(** *** Gap warnings *)

Lemma gapWarning_run l i : gapWarning l i = gapWarningOfRun (l, i - 1).
Proof.
  unfold gapWarning, gapWarningOfRun. simpl. by replace (i - 1 + 1) with i by lia.
Qed.

Lemma gapFold_runs r l : forall last ws runs,
  fold_left (gapStep r) l (last, ws ++ map gapWarningOfRun runs)
  = (fst (fold_left (runStep r) l (last, runs)),
     ws ++ map gapWarningOfRun (snd (fold_left (runStep r) l (last, runs)))).
Proof.
  induction l as [|i l IH]; intros last ws runs; simpl; [done|].
  unfold gapStep at 2, runStep at 2 4. simpl.
  destruct (r !! i), last; simpl; try apply IH.
  rewrite <- app_assoc, gapWarning_run.
  change [gapWarningOfRun (z, i - 1)] with (map gapWarningOfRun [(z, i - 1)]).
  rewrite <- map_app. apply IH.
Qed.

Lemma runs_invariant r (n : nat) :
  runsInvariant r (Z.of_nat n) (fold_left (runStep r) (seqZ 1 (Z.of_nat n)) (None, [])).
Proof.
  induction n as [|n IH].
  - simpl. split; [by left|]. split; [constructor|].
    intros s e. rewrite elem_of_nil. split; [done|]. lia.
  - rewrite seqZ_S, fold_left_app. simpl.
    destruct (fold_left (runStep r) (seqZ 1 (Z.of_nat n)) (None, [])) as [last runs].
    destruct IH as (Hlast & Hnd & Hruns). simpl in *.
    replace (Z.of_nat (S n)) with (Z.of_nat n + 1) by lia.
    set (j := Z.of_nat n) in *. assert (0 <= j) by lia.
    unfold runStep, runsInvariant. simpl.
    destruct (r !! (1 + j)) as [v|] eqn:Hi; destruct last as [l|]; simpl.
    + destruct Hlast as (Hl1 & Hl2 & Hl3 & Hl4).
      replace (1 + j - 1) with j by lia.
      split; [right; replace (j + 1) with (1 + j) by lia; eauto|].
      split.
      { apply NoDup_app. split; [done|]. split; [|apply NoDup_singleton].
        intros x Hx Hx'. apply list_elem_of_singleton in Hx'. subst x.
        apply Hruns in Hx. lia. }
      intros s e. rewrite elem_of_app, list_elem_of_singleton, Hruns. split.
      * intros [(?&?&?&?&?&?)|E]; [repeat split; auto; lia|].
        inversion E; subst s e. repeat split; auto; try lia.
        replace (j + 1) with (1 + j) by lia. eauto.
      * intros (Hs1 & Hs2 & Hs3 & Hs4 & Hs5 & Hs6).
        destruct (decide (e < j)); [left; repeat split; auto|right].
        assert (e = j) by lia. subst e. f_equal.
        destruct (Z.lt_trichotomy s l) as [Hlt|[Heq|Hgt]]; [|done|].
        -- destruct Hl4 as [->|[x Hx]]; [lia|].
           rewrite Hs4 in Hx by lia. done.
        -- destruct Hs5 as [->|[x Hx]]; [lia|].
           rewrite Hl3 in Hx by lia. done.
    + split; [right; replace (j + 1) with (1 + j) by lia; eauto|].
      split; [done|].
      intros s e. rewrite Hruns. split.
      * intros (?&?&?&?&?&?). repeat split; auto; lia.
      * intros (Hs1 & Hs2 & Hs3 & Hs4 & Hs5 & Hs6).
        destruct (decide (e < j)); [repeat split; auto|].
        assert (e = j) by lia. subst e.
        destruct Hlast as [?|[x Hx]]; [lia|]. rewrite Hs4 in Hx by lia. done.
    + destruct Hlast as (Hl1 & Hl2 & Hl3 & Hl4).
      split.
      { repeat split; auto; try lia. intros i Hi'.
        destruct (decide (i = 1 + j)); [by subst|apply Hl3; lia]. }
      split; [done|].
      intros s e. rewrite Hruns. split.
      * intros (?&?&?&?&?&?). repeat split; auto; lia.
      * intros (Hs1 & Hs2 & Hs3 & Hs4 & Hs5 & [x Hx]).
        destruct (decide (e < j)); [repeat split; eauto|].
        assert (e = j) by lia. subst e.
        replace (j + 1) with (1 + j) in Hx by lia. congruence.
    + split.
      { repeat split; auto; try lia.
        - intros i Hi'. by replace i with (1 + j) by lia.
        - destruct (decide (j = 0)); [left; lia|right].
          replace (1 + j - 1) with j by lia. by destruct Hlast. }
      split; [done|].
      intros s e. rewrite Hruns. split.
      * intros (?&?&?&?&?&?). repeat split; auto; lia.
      * intros (Hs1 & Hs2 & Hs3 & Hs4 & Hs5 & [x Hx]).
        destruct (decide (e < j)); [repeat split; eauto|].
        assert (e = j) by lia. subst e.
        replace (j + 1) with (1 + j) in Hx by lia. congruence.
Qed.

Lemma maxFold_ge l : forall m,
  m <= fold_left (fun p c => if stateId c >? p then stateId c else p) l m.
Proof.
  induction l as [|x l IH]; intros m; simpl; [lia|].
  etransitivity; [|apply IH]. destruct (Z.gtb_spec (stateId x) m); lia.
Qed.

Lemma maxFold_attained l : forall m,
  fold_left (fun p c => if stateId c >? p then stateId c else p) l m = m
  \/ exists p, In p l /\ stateId p = fold_left (fun p c => if stateId c >? p then stateId c else p) l m.
Proof.
  induction l as [|x l IH]; intros m; simpl; [by left|].
  destruct (IH (if stateId x >? m then stateId x else m)) as [E|(p & Hp & E)].
  - rewrite E. destruct (Z.gtb_spec (stateId x) m); [right; exists x; auto|by left].
  - right. exists p. auto.
Qed.

Lemma place_claims st p :
  badStateId st < 0 -> 0 < stateId p -> is_Some (result (place st p) !! stateId p).
Proof.
  intros Hb Hp. unfold place. destruct (Z.eqb_spec (stateId p) (-1)); [lia|].
  destruct (result st !! stateId p) eqn:E; simpl.
  - rewrite lookup_insert_ne by lia. rewrite E. eauto.
  - rewrite lookup_insert_eq. eauto.
Qed.

Lemma placeAll_claims l : forall st p,
  badStateId st < 0 -> In p l -> 0 < stateId p ->
  is_Some (result (placeAll l st) !! stateId p).
Proof.
  induction l as [|x l IH]; intros st p Hb Hin Hp; [destruct Hin|]. simpl.
  pose proof (place_bad_le st x).
  destruct Hin as [->|Hin]; [|apply IH; auto; lia].
  destruct (place_claims st p Hb Hp) as [v Hv].
  exists v. apply placeAll_keeps; [lia|done].
Qed.

Lemma place_gaps st p :
  List.filter isGapWarning (warnings (place st p)) = List.filter isGapWarning (warnings st).
Proof.
  place_cases st p; auto; rewrite List.filter_app; simpl; apply app_nil_r.
Qed.

Lemma placeAll_gaps l : forall st,
  List.filter isGapWarning (warnings (placeAll l st)) = List.filter isGapWarning (warnings st).
Proof.
  induction l as [|p l IH]; intros st; simpl; [done|]. by rewrite IH, place_gaps.
Qed.

Lemma filter_gap_runs runs : List.filter isGapWarning (map gapWarningOfRun runs) = map gapWarningOfRun runs.
Proof. induction runs as [|x runs IH]; simpl; [done|]. by rewrite IH. Qed.

Lemma maxFold_largest l : forall m0 m,
  m0 <= m -> Forall (fun p => stateId p <= m) l ->
  m0 = m \/ Exists (fun p => stateId p = m) l ->
  fold_left (fun p c => if stateId c >? p then stateId c else p) l m0 = m.
Proof.
  induction l as [|x l IH]; intros m0 m Hle Hall Hex; simpl.
  { destruct Hex as [?|Hex]; [done|]. by apply Exists_nil in Hex. }
  inversion Hall as [|? ? Hx Hl]; subst.
  apply IH; [destruct (Z.gtb_spec (stateId x) m0); lia|done|].
  destruct Hex as [->|Hex].
  - left. destruct (Z.gtb_spec (stateId x) m); lia.
  - apply Exists_cons in Hex as [Hx'|Hex]; [left|by right].
    destruct (Z.gtb_spec (stateId x) m0); lia.
Qed.

Lemma maxStateId_largest states m : largestId states m -> maxStateId states = m.
Proof.
  intros (H0 & Hall & Hex). apply maxFold_largest; [done|done|].
  destruct Hex; [by left|by right].
Qed.

(** An index from 1 on holds a record exactly when a raw record claims it. *)
Lemma placeAll_claimed states ws i :
  1 <= i ->
  is_Some (result (placeAll states (mkPlacement ∅ (-1) ws)) !! i) <-> claimed states i.
Proof.
  intros Hi. unfold claimed. split.
  - intros Hsome. destruct (decide (Exists (fun p => stateId p = i) states)) as [|Hno]; [done|].
    apply not_Exists_Forall in Hno; [|apply _].
    rewrite (placeAll_free states _ i) in Hsome; simpl; auto; try lia.
    by destruct Hsome.
  - intros (p & Hp & <-)%Exists_exists.
    apply placeAll_claims; simpl; [lia|by apply list_elem_of_In|lia].
Qed.

(** C4. With [maxObservedId] the largest id of the raw records: after
    placement an index from 1 on holds a record exactly when a raw record
    claims it, and the gap warnings [sortStates] emits are, one for one, the
    maximal runs of ids in [1, maxObservedId] that have no record: each such
    run is reported by exactly one warning that names the whole run. *)
Theorem sortStates_gap_warnings (states : list StateNoBoundingBox) (ws : list Warning)
    (maxObservedId : Z) :
  largestId states maxObservedId ->
  maxObservedId <= 10000 ->
  exists sorted emitted runs,
    sortStates states ws = Returned sorted
    /\ sortedWarnings sorted = ws ++ emitted
    /\ (forall i, 1 <= i ->
          is_Some (items (sortedStates sorted) !! i) <-> claimed states i)
    /\ List.filter isGapWarning emitted = map gapWarningOfRun runs
    /\ NoDup runs
    /\ forall s e, (s, e) ∈ runs <->
         missingRun (items (sortedStates sorted)) maxObservedId s e.
Proof.
  intros Hlargest Hmax.
  pose proof (maxStateId_largest states maxObservedId Hlargest) as HM.
  destruct Hlargest as (H0 & _ & Hattained).
  set (M := maxObservedId) in *.
  set (st := placeAll states (mkPlacement ∅ (-1) ws)).
  pose proof (runs_invariant (result st) (Z.to_nat M)) as Hinv.
  rewrite Z2Nat.id in Hinv by done.
  set (R := fold_left (runStep (result st)) (seqZ 1 M) (None, [])) in *.
  set (sorted := mkSorted (mkJsArray (result st) (M + 1)) (badStateId st)
                   (snd (gapLoop (result st) M (warnings st)))).
  assert (Hrun : sortStates states ws = Returned sorted).
  { unfold sortStates. rewrite HM. destruct (Z.gtb_spec M 10000); [lia|]. reflexivity. }
  destruct (sortStates_extends _ _ _ Hrun) as [emitted Hemit].
  exists sorted, emitted, (snd R).
  assert (Hpresent : M = 0 \/ is_Some (result st !! M)).
  { destruct Hattained as [?|Hex]; [by left|].
    destruct (decide (M = 0)); [by left|right].
    apply placeAll_claimed; [lia|exact Hex]. }
  split; [exact Hrun|]. split; [exact Hemit|]. split.
  { intros i Hi. by apply placeAll_claimed. }
  split.
  { assert (Hf : List.filter isGapWarning (sortedWarnings sorted)
                 = List.filter isGapWarning ws ++ map gapWarningOfRun (snd R)).
    { simpl. unfold gapLoop.
      pose proof (gapFold_runs (result st) (seqZ 1 M) None (warnings st) []) as E.
      simpl in E. rewrite app_nil_r in E. rewrite E. simpl. fold R.
      rewrite List.filter_app, filter_gap_runs. unfold st. by rewrite placeAll_gaps. }
    rewrite Hemit, List.filter_app in Hf. by apply app_inv_head in Hf. }
  destruct Hinv as (Hlast & Hnd & Hruns). split; [done|].
  intros s e. simpl. rewrite Hruns. unfold missingRun. split.
  - intros (?&?&?&?&?&?). repeat split; auto; lia.
  - intros (Hs1 & Hs2 & Hs3 & Hs4 & Hs5 & Hs6).
    assert (e < M).
    { destruct (decide (e = M)); [|lia]. subst e.
      destruct Hpresent as [?|[x Hx]]; [lia|]. rewrite Hs4 in Hx by lia. done. }
    repeat split; auto. destruct Hs6; [lia|done].
Qed.

Lemma sortStates_gap_warnings_witness :
  exists sorted emitted runs,
    sortStates [rawState 1 "a.txt" []; rawState 2 "b.txt" []; rawState 5 "c.txt" []] []
    = Returned sorted
    /\ sortedWarnings sorted = [] ++ emitted
    /\ (forall i, 1 <= i ->
          is_Some (items (sortedStates sorted) !! i)
          <-> claimed [rawState 1 "a.txt" []; rawState 2 "b.txt" []; rawState 5 "c.txt" []] i)
    /\ List.filter isGapWarning emitted = map gapWarningOfRun runs
    /\ NoDup runs
    /\ forall s e, (s, e) ∈ runs <-> missingRun (items (sortedStates sorted)) 5 s e.
Proof.
  apply (sortStates_gap_warnings
           [rawState 1 "a.txt" []; rawState 2 "b.txt" []; rawState 5 "c.txt" []] [] 5).
  - by_compute.
  - lia.
Defined.

(** With the ids 1, 2 and 5 present the only warning is the one for 3-4. *)
Example gap_three_to_four :
  sortedWarnings
    <$> (match sortStates [rawState 1 "a.txt" []; rawState 2 "b.txt" [];
                           rawState 5 "c.txt" []] [] with
         | Returned sorted => Some sorted
         | Thrown _ => None
         end)
  = Some [mkWarning [stateSource 5] [] (StateNotExist (IdRange 3 4))].
Proof. vm_compute. reflexivity. Qed.

(** *** Synthetic ids *)

Lemma placeAll_counter l : forall st seen,
  tracks st seen ->
  Forall (fun x => stateId x = -1 \/ 0 < stateId x) l ->
  badStateId (placeAll l st) = badStateId st - Z.of_nat (reassigned seen l)
  /\ (forall k, k <= badStateId (placeAll l st) -> result (placeAll l st) !! k = None).
Proof.
  induction l as [|p l IH]; intros st seen (Hb & Hseen & Hfresh) Hl; simpl.
  { split; [lia|done]. }
  inversion Hl as [|? ? Hp Hl']; subst.
  destruct (decide (stateId p = -1)) as [Hs|Hs].
  - rewrite bool_decide_eq_true_2 by auto.
    rewrite (place_sentinel st p Hs) by (apply Hfresh; lia).
    edestruct (IH (mkPlacement (<[badStateId st := withStateId p (badStateId st)]> (result st))
                     (badStateId st - 1) (warnings st)) seen) as [E F]; [|done|].
    + split; simpl; [lia|]. split.
      * intros k Hk. rewrite lookup_insert_ne by lia. by apply Hseen.
      * intros k Hk. rewrite lookup_insert_ne by lia. apply Hfresh. lia.
    + simpl in E. split; [lia|done].
  - assert (Hpos : 0 < stateId p) by (destruct Hp; [done|lia]).
    destruct (decide (stateId p ∈ seen)) as [Hin|Hin].
    + rewrite bool_decide_eq_true_2 by auto.
      apply Hseen in Hin as [a Ha]; [|done].
      rewrite (place_conflict st p a Hs Ha).
      edestruct (IH (mkPlacement (<[badStateId st := withStateId p (badStateId st)]> (result st))
                       (badStateId st - 1)
                       (warnings st ++ [conflictWarning p a (badStateId st)])) seen)
        as [E F]; [|done|].
      * split; simpl; [lia|]. split.
        -- intros k Hk. rewrite lookup_insert_ne by lia. by apply Hseen.
        -- intros k Hk. rewrite lookup_insert_ne by lia. apply Hfresh. lia.
      * simpl in E. split; [lia|done].
    + rewrite bool_decide_eq_false_2 by (intros [?|?]; done).
      assert (Hn : result st !! stateId p = None).
      { destruct (result st !! stateId p) eqn:E; [|done].
        exfalso. apply Hin, Hseen; eauto. }
      rewrite (place_first st p Hs Hn).
      edestruct (IH (mkPlacement (<[stateId p := p]> (result st)) (badStateId st) (warnings st))
                   (stateId p :: seen)) as [E F]; [|done|].
      * split; simpl; [lia|]. split.
        -- intros k Hk. rewrite elem_of_cons.
           destruct (decide (k = stateId p)) as [->|Hne].
           ++ rewrite lookup_insert_eq. split; eauto.
           ++ rewrite lookup_insert_ne by done. rewrite Hseen by done.
              split; [auto|]. intros [?|?]; done.
        -- intros k Hk. rewrite lookup_insert_ne by lia. apply Hfresh. lia.
      * simpl in E. split; [lia|done].
Qed.

Lemma loadedId_missing d : idMissing d = true -> loadedId d = -1.
Proof.
  unfold idMissing, loadedId. destruct (defId d) as [i|]; [|done].
  intros ->. done.
Qed.

Lemma loadStateEntry_id file d : stateId (fst (loadStateEntry file d)) = loadedId d.
Proof. reflexivity. Qed.

(** C9, as amended.  A record whose id field is missing or zero gets the id
    -1 from [loadState]; when the records before it have ids that are positive
    or -1, [sortStates] gives it the next synthetic id, -1 minus the number of
    records reassigned before it (missing-id and conflicting records alike),
    and places it at that index, which lies between [badStateId + 1] (the
    [badStatesCount] of [mergeFiles]) and -1. *)
Theorem sortStates_missing_id_synthetic
    (file : string) (d : StateDefinition)
    (pre post : list StateNoBoundingBox) (ws : list Warning) :
  let p := fst (loadStateEntry file d) in
  let n := -1 - Z.of_nat (reassigned [] pre) in
  idMissing d = true ->
  Forall (fun x => stateId x = -1 \/ 0 < stateId x) pre ->
  maxStateId (pre ++ p :: post) <= 10000 ->
  exists sorted,
    sortStates (pre ++ p :: post) ws = Returned sorted
    /\ items (sortedStates sorted) !! n = Some (withStateId p n)
    /\ sortedBadStateId sorted + 1 <= n /\ n <= -1.
Proof.
  intros p n Hd Hpre Hmax.
  assert (Hp : stateId p = -1) by (apply loadedId_missing, Hd).
  set (st0 := mkPlacement ∅ (-1) ws).
  assert (H0 : tracks st0 []).
  { split; simpl; [lia|]. split.
    - intros k _. rewrite lookup_empty, elem_of_nil. split; [intros [? ?]; done|done].
    - intros k _. apply lookup_empty. }
  destruct (placeAll_counter pre st0 [] H0 Hpre) as [E F]. simpl in E.
  set (st1 := placeAll pre st0) in *.
  assert (En : badStateId st1 = n) by (unfold n; lia).
  assert (E2 : place st1 p = mkPlacement (<[n := withStateId p n]> (result st1)) (n - 1) (warnings st1)).
  { rewrite <- En. apply place_sentinel; [done|]. apply F. lia. }
  set (st3 := placeAll post (place st1 p)).
  assert (Hfinal : placeAll (pre ++ p :: post) st0 = st3).
  { rewrite placeAll_app. reflexivity. }
  exists (mkSorted (mkJsArray (result st3) (maxStateId (pre ++ p :: post) + 1))
            (badStateId st3)
            (snd (gapLoop (result st3) (maxStateId (pre ++ p :: post)) (warnings st3)))).
  split.
  { unfold sortStates. destruct (Z.gtb_spec (maxStateId (pre ++ p :: post)) 10000); [lia|].
    fold st0. rewrite Hfinal. reflexivity. }
  simpl. split; [|split].
  - apply placeAll_keeps; rewrite E2; simpl; [lia|apply lookup_insert_eq].
  - pose proof (placeAll_bad_le post (place st1 p)) as Hle. rewrite E2 in Hle at 2.
    simpl in Hle. fold st3 in Hle. lia.
  - unfold n. lia.
Qed.

Lemma sortStates_missing_id_synthetic_witness :
  idMissing noIdDefinition = true
  /\ exists sorted,
       sortStates ([rawState 3 "a.txt" []; rawState (-1) "b.txt" []; rawState 3 "c.txt" []]
                   ++ fst (loadStateEntry "d.txt" noIdDefinition) :: []) []
       = Returned sorted
       /\ items (sortedStates sorted) !! (-3)
          = Some (withStateId (fst (loadStateEntry "d.txt" noIdDefinition)) (-3))
       /\ sortedBadStateId sorted + 1 <= -3 /\ -3 <= -1.
Proof.
  split; [reflexivity|].
  apply (sortStates_missing_id_synthetic "d.txt" noIdDefinition
           [rawState 3 "a.txt" []; rawState (-1) "b.txt" []; rawState 3 "c.txt" []] [] []).
  - reflexivity.
  - by_compute.
  - by_compute.
Defined.

(** C9 as stated fails: a record read with the id -5 has an id <= 0, yet
    [sortStates] leaves it at index -5 with the id -5, hands out no synthetic
    id (nothing is at -1 and the counter is still -1), so the index is below
    [badStateId + 1]. *)
Lemma negative_id_keeps_its_index :
  let p := fst (loadStateEntry "e.txt" negativeIdDefinition) in
  stateId p <= 0
  /\ exists sorted,
       sortStates [p] [] = Returned sorted
       /\ items (sortedStates sorted) !! (-5) = Some p
       /\ stateId p = -5
       /\ items (sortedStates sorted) !! (-1) = None
       /\ sortedBadStateId sorted = -1
       /\ ~ (sortedBadStateId sorted + 1 <= -5).
Proof.
  split; [by_compute|].
  eexists. split; [vm_compute; reflexivity|]. simpl.
  split; [reflexivity|]. split; [reflexivity|]. split; [reflexivity|].
  split; [reflexivity|]. lia.
Qed.

End Reconciliation.

(** ** Threading of the warnings array *)

Section EffFacts.

Context (R : relation (list Warning)) `{!PreOrder R}.

Lemma bind_rel {A B} (c : Eff A) (k : A -> Eff B) ws :
  R ws (fst (c ws)) -> (forall a ws', R ws' (fst (k a ws'))) ->
  R ws (fst (bind c k ws)).
Proof.
  intros Hc Hk. unfold bind. destruct (c ws) as [ws' [a|m]]; simpl in *; [|done].
  etransitivity; [exact Hc|apply Hk].
Qed.

Lemma when_rel b c ws : R ws (fst (c ws)) -> R ws (fst (when b c ws)).
Proof. destruct b; simpl; [done|reflexivity]. Qed.

Lemma foldEff_rel {S A} (body : S -> A -> Eff S) l :
  (forall s a ws, R ws (fst (body s a ws))) ->
  forall s ws, R ws (fst (foldEff body l s ws)).
Proof.
  intros Hbody. induction l as [|a l IH]; intros s ws; simpl; [reflexivity|].
  apply bind_rel; [apply Hbody|]. intros; apply IH.
Qed.

End EffFacts.

#[global] Instance quietFor_preorder f : PreOrder (quietFor f).
Proof.
  split.
  - intros ws. exists []. by rewrite app_nil_r.
  - intros a b c (e1 & -> & H1) (e2 & -> & H2).
    exists (e1 ++ e2). rewrite app_assoc. split; [done|]. by apply Forall_app.
Qed.

Lemma push_quiet f w ws : f w = false -> quietFor f ws (fst (push w ws)).
Proof. intros Hw. exists [w]. split; [done|]. by constructor. Qed.

Lemma foldEff_app {S A} (body : S -> A -> Eff S) l1 l2 s ws :
  foldEff body (l1 ++ l2) s ws
  = match foldEff body l1 s ws with
    | (ws', Returned s') => foldEff body l2 s' ws'
    | (ws', Thrown m) => (ws', Thrown m)
    end.
Proof.
  revert s ws. induction l1 as [|a l1 IH]; intros s ws; simpl; [done|].
  unfold bind. destruct (body s a ws) as [ws' [s'|m]]; [apply IH|done].
Qed.

(** A loop whose body returns and keeps [I] returns and keeps [I]. *)
Lemma foldEff_inv {S A} (I : S -> list Warning -> Prop) (body : S -> A -> Eff S) l :
  (forall s a ws, a ∈ l -> I s ws ->
     exists s' ws', body s a ws = (ws', Returned s') /\ I s' ws') ->
  forall s ws, I s ws ->
    exists s' ws', foldEff body l s ws = (ws', Returned s') /\ I s' ws'.
Proof.
  induction l as [|a l IH]; intros Hbody s ws HI; simpl.
  { exists s, ws. done. }
  destruct (Hbody s a ws) as (s1 & ws1 & E1 & HI1); [left|done|].
  unfold bind. rewrite E1. apply IH; [|done].
  intros s' a' ws' Hin. apply Hbody. by right.
Qed.

Lemma mapEff_cons {A B} (f : A -> Eff B) a l ws :
  mapEff f (a :: l) ws
  = match f a ws with
    | (ws', Returned b) =>
        match mapEff f l ws' with
        | (ws'', Returned bs) => (ws'', Returned (b :: bs))
        | (ws'', Thrown m) => (ws'', Thrown m)
        end
    | (ws', Thrown m) => (ws', Thrown m)
    end.
Proof. reflexivity. Qed.

Lemma omap_id_map {A B} (f : A -> option B) l : omap id (map f l) = omap f l.
Proof.
  induction l as [|a l IH]; simpl; [done|].
  destruct (f a); simpl; [f_equal|]; exact IH.
Qed.

Lemma seqZ_split lo n i :
  lo <= i < lo + n -> seqZ lo n = seqZ lo (i - lo) ++ i :: seqZ (i + 1) (lo + n - i - 1).
Proof.
  intros Hi. replace n with ((i - lo) + (lo + n - i)) at 1 by lia.
  rewrite seqZ_app by lia. f_equal. replace (lo + (i - lo)) with i by lia.
  rewrite seqZ_cons by lia. repeat f_equal; lia.
Qed.

(** ** Geometry of a state ([calculateBoundingBox] of states.ts) *)

Section StateGeometry.
Variable mergeRegions : list Region -> Z -> Region.
Import StatesRegion.

Lemma mapEff_resolve s provinces l ws :
  mapEff (resolveProvince s provinces) l ws
  = (ws ++ map (provinceNotExistWarning s) (unresolvedProvinces provinces l),
     Returned (map (fun p => provinces !! p) l)).
Proof.
  unfold unresolvedProvinces.
  revert ws. induction l as [|p l IH]; intros ws; simpl.
  { by rewrite app_nil_r. }
  unfold bind at 1. unfold resolveProvince at 1.
  destruct (provinces !! p) as [prov|] eqn:Hp; simpl.
  - unfold bind. rewrite IH. reflexivity.
  - unfold bind. simpl. rewrite IH. simpl. by rewrite <- app_assoc.
Qed.

(** The function in closed form: the warnings for the provinces that do not
    resolve, in order, then at most one warning about the result. *)
Lemma calculateBoundingBox_eq s provinces width height ws :
  calculateBoundingBox mergeRegions s provinces width height ws
  = match resolvedProvinces provinces (stateProvinces s) with
    | [] =>
        (ws ++ map (provinceNotExistWarning s)
                 (unresolvedProvinces provinces (stateProvinces s))
            ++ (if 0 <? Z.of_nat (length (stateProvinces s))
                then [noValidProvincesWarning s] else []),
         Returned (mkState s zeroRegion))
    | members =>
        let r := mergeRegions (map provinceRegion members) width in
        (ws ++ map (provinceNotExistWarning s)
                 (unresolvedProvinces provinces (stateProvinces s))
            ++ (if isTooLarge r width height then [tooLargeWarning s r] else []),
         Returned (mkState s r))
    end.
Proof.
  unfold calculateBoundingBox, bind at 1. rewrite mapEff_resolve. cbv beta iota.
  rewrite omap_id_map.
  fold (resolvedProvinces provinces (stateProvinces s)).
  destruct (resolvedProvinces provinces (stateProvinces s)) as [|m ms]; simpl.
  - unfold bind, when. destruct (0 <? Z.of_nat (length (stateProvinces s))); simpl.
    + by rewrite <- app_assoc.
    + by rewrite app_nil_r.
  - unfold bind, when.
    destruct (isTooLarge _ width height); simpl.
    + by rewrite <- app_assoc.
    + by rewrite app_nil_r.
Qed.

Lemma calculateBoundingBox_returns s provinces width height ws :
  exists extra,
    calculateBoundingBox mergeRegions s provinces width height ws
    = (ws ++ extra, Returned (mkState s (expectedRegion mergeRegions provinces width s))).
Proof.
  rewrite calculateBoundingBox_eq. unfold expectedRegion.
  destruct (resolvedProvinces provinces (stateProvinces s)); eexists; reflexivity.
Qed.

Lemma none_resolved provinces l :
  Forall (fun p => provinces !! p = None) l ->
  resolvedProvinces provinces l = [] /\ unresolvedProvinces provinces l = l.
Proof.
  induction 1 as [|p l Hp Hl [IH1 IH2]]; [done|].
  unfold resolvedProvinces, unresolvedProvinces in *. simpl. rewrite Hp. simpl.
  split; [done|]. by rewrite IH2.
Qed.

(** A state none of whose provinces resolves: one dangling-reference warning
    per declared province, the zero region, and the "no valid provinces"
    warning exactly when a province was declared. *)
Lemma state_without_valid_provinces s provinces width height ws :
  Forall (fun p => provinces !! p = None) (stateProvinces s) ->
  calculateBoundingBox mergeRegions s provinces width height ws
  = (ws ++ map (provinceNotExistWarning s) (stateProvinces s)
        ++ (if 0 <? Z.of_nat (length (stateProvinces s))
            then [noValidProvincesWarning s] else []),
     Returned (mkState s zeroRegion)).
Proof.
  intros Hall. rewrite calculateBoundingBox_eq.
  destruct (none_resolved provinces _ Hall) as [-> ->]. reflexivity.
Qed.

Lemma calculateBoundingBox_dangling s provinces width height ws p :
  p ∈ stateProvinces s -> provinces !! p = None ->
  provinceNotExistWarning s p
  ∈ fst (calculateBoundingBox mergeRegions s provinces width height ws).
Proof.
  intros Hin Hp. rewrite calculateBoundingBox_eq.
  assert (provinceNotExistWarning s p
          ∈ map (provinceNotExistWarning s)
              (unresolvedProvinces provinces (stateProvinces s))).
  { apply list_elem_of_In, in_map, filter_In. split; [by apply list_elem_of_In|].
    rewrite Hp. done. }
  destruct (resolvedProvinces provinces (stateProvinces s)); simpl;
    rewrite !elem_of_app; auto.
Qed.

End StateGeometry.

(** ** Geometry of a strategic region *)

Section StrategicRegionGeometry.
Variable mergeRegions : list Region -> Z -> Region.
Import StrategicRegions.

Lemma mapEff_resolve_throws provinces l ws :
  Exists (fun p => provinces !! p = None) l ->
  exists m, mapEff (resolveProvince provinces) l ws = (ws, Thrown m).
Proof.
  induction 1 as [p l Hp|p l Hl IH]; rewrite mapEff_cons; unfold resolveProvince at 1.
  - rewrite Hp. simpl. eauto.
  - destruct (provinces !! p); simpl; [|eauto].
    destruct IH as [m ->]. eauto.
Qed.

(** Whenever a declared province does not resolve the function throws, with
    the warnings array as it was. *)
Lemma strategicRegion_unresolved_throws r provinces width ws :
  Exists (fun p => provinces !! p = None) (srProvinces r) ->
  exists m, calculateBoundingBox mergeRegions r provinces width ws = (ws, Thrown m).
Proof.
  intros Hex. unfold calculateBoundingBox, bind at 1.
  destruct (mapEff_resolve_throws provinces _ ws Hex) as [m ->]. eauto.
Qed.

(** A strategic region that declares no province gets the zero region and no
    warning. *)
Lemma strategicRegion_no_provinces r provinces width ws :
  srProvinces r = [] ->
  calculateBoundingBox mergeRegions r provinces width ws
  = (ws, Returned (mkStrategicRegion r zeroRegion)).
Proof. intros Hnil. unfold calculateBoundingBox. rewrite Hnil. reflexivity. Qed.

(** C5, failing input.  The strategic region [{ id = 1, provinces = { 7 } }]
    on a map without province 7: the claim gives it the zero region, a
    dangling-reference warning and a "no valid members" warning; the code
    throws and pushes nothing.  The state with the same declaration gets what
    the claim says. *)
Theorem strategicRegion_dangling_province_throws :
  calculateBoundingBox mergeRegions danglingStrategicRegion ∅ 100 []
  = ([], Thrown "ReferenceError: Cannot access 'strategicRegion' before initialization")
  /\ StatesRegion.calculateBoundingBox mergeRegions (rawState 1 "s.txt" [7]) ∅ 100 100 []
     = ([StatesRegion.provinceNotExistWarning (rawState 1 "s.txt" [7]) 7;
         StatesRegion.noValidProvincesWarning (rawState 1 "s.txt" [7])],
        Returned (mkState (rawState 1 "s.txt" [7]) zeroRegion)).
Proof. split; reflexivity. Qed.

End StrategicRegionGeometry.

(** ** Children that do not exist raise no multi-membership warning *)

Section MissingChildren.
Import StatesRegion.

Lemma seaCheck_quiet (provinces : gmap Z Province) p state q ws :
  provinces !! p = None ->
  quietFor (aboutProvince p) ws (fst (seaCheck state q (provinces !! q) ws)).
Proof.
  intros Hp. unfold seaCheck. destruct (provinces !! q) eqn:Hq; [|reflexivity].
  apply when_rel; [apply _|]. apply push_quiet.
  unfold aboutProvince, isMultiStatesFor, mentions. simpl.
  destruct (Z.eqb_spec q p); [congruence|done].
Qed.

Lemma visitProvince_quiet provinces states state pts p q ws :
  provinces !! p = None ->
  quietFor (aboutProvince p) ws (fst (visitProvince provinces states state pts q ws)).
Proof.
  intros Hp. unfold visitProvince.
  destruct (pts !! q) as [owner|].
  - pose proof (seaCheck_quiet provinces p state q) as Hsea.
    destruct (provinces !! q) as [prov|] eqn:Hq; [|reflexivity].
    destruct (items states !! owner); [|reflexivity].
    apply bind_rel; [apply _| |].
    + apply push_quiet. unfold aboutProvince, isMultiStatesFor, mentions. simpl.
      destruct (Z.eqb_spec q p); [congruence|done].
    + intros _ ws'. apply bind_rel; [apply _|by apply Hsea|].
      intros; reflexivity.
  - apply bind_rel; [apply _|by apply seaCheck_quiet|]. intros; reflexivity.
Qed.

Lemma validateProvinceInState_quiet provinces states bad p ws :
  provinces !! p = None ->
  quietFor (aboutProvince p) ws (fst (validateProvinceInState provinces states bad ws)).
Proof.
  intros Hp. unfold validateProvinceInState.
  apply bind_rel; [apply _| |intros; reflexivity].
  apply foldEff_rel; [apply _|]. intros pts i ws0. unfold visitState.
  destruct (items states !! i); [|reflexivity].
  apply foldEff_rel; [apply _|]. intros. by apply visitProvince_quiet.
Qed.

Import SupplyAreas.

Lemma visitMember_quiet states supplyAreas supplyArea acc s q ws :
  items states !! s = None ->
  quietFor (aboutMemberState s) ws
    (fst (visitMember states supplyAreas supplyArea acc q ws)).
Proof.
  intros Hs. unfold visitMember.
  destruct (fst acc !! q) as [owner|]; [|reflexivity].
  destruct (items states !! q) as [st|] eqn:Hq; [|reflexivity].
  destruct (items supplyAreas !! owner); [|reflexivity].
  apply bind_rel; [apply _| |intros; reflexivity].
  apply push_quiet. unfold aboutMemberState, isMultiSupplyAreasFor, mentions. simpl.
  destruct (Z.eqb_spec q s); [congruence|done].
Qed.

Lemma validateStatesInSupplyAreas_quiet states supplyAreas provinces bad s ws :
  items states !! s = None ->
  quietFor (aboutMemberState s) ws
    (fst (validateStatesInSupplyAreas states supplyAreas provinces bad ws)).
Proof.
  intros Hs. unfold validateStatesInSupplyAreas.
  apply bind_rel; [apply _| |].
  - apply foldEff_rel; [apply _|]. intros m i ws0. unfold visitSupplyArea.
    destruct (items supplyAreas !! i) as [area|]; [|reflexivity].
    apply bind_rel; [apply _| |].
    + apply foldEff_rel; [apply _|]. intros. by apply visitMember_quiet.
    + intros acc ws1.
      destruct (checkStatesContiguous _ provinces) as [[bad'|]|m']; try reflexivity.
      apply bind_rel; [apply _| |intros; reflexivity].
      by apply push_quiet.
  - intros m ws0. apply foldEff_rel; [apply _|]. intros [] i ws1. unfold visitUnassigned.
    destruct (items states !! i) eqn:Hi; [|reflexivity].
    apply when_rel; [apply _|]. apply push_quiet.
    unfold aboutMemberState, isMultiSupplyAreasFor, mentions. simpl.
    destruct (Z.eqb_spec i s); [congruence|done].
Qed.

(** C10. A province that the map does not have: whichever way
    [validateProvinceInState] ends, the warnings it leaves are the ones it was
    given followed by warnings none of which is a multi-state warning for that
    province or names the province at all, while [calculateBoundingBox] pushes
    a dangling-reference warning for every state that lists it.  A state that
    does not exist: the same for [validateStatesInSupplyAreas], the
    multi-supply-area warning and the warnings that name the state. *)
Theorem missing_child_no_multi_membership :
  (forall (mergeRegions : list Region -> Z -> Region)
          (provinces : gmap Z Province) (states : JsArray State)
          (badStatesCount : Z) (ws : list Warning) (p : Z),
     provinces !! p = None ->
     quietFor (aboutProvince p) ws
       (fst (validateProvinceInState provinces states badStatesCount ws))
     /\ forall (s : StateNoBoundingBox) (width height : Z) (ws0 : list Warning),
          p ∈ stateProvinces s ->
          provinceNotExistWarning s p
          ∈ fst (StatesRegion.calculateBoundingBox mergeRegions s provinces width height ws0))
  /\ (forall (states : JsArray State) (supplyAreas : JsArray SupplyArea)
             (provinces : gmap Z Province) (badSupplyAreasCount : Z)
             (ws : list Warning) (s : Z),
        items states !! s = None ->
        quietFor (aboutMemberState s) ws
          (fst (validateStatesInSupplyAreas states supplyAreas provinces
                  badSupplyAreasCount ws))).
Proof.
  split.
  - intros mergeRegions provinces states bad ws p Hp. split.
    + by apply validateProvinceInState_quiet.
    + intros s width height ws0 Hin. by apply calculateBoundingBox_dangling.
  - intros. by apply validateStatesInSupplyAreas_quiet.
Qed.

Lemma missing_child_no_multi_membership_witness :
  (sampleProvinces !! 9 = None
   /\ quietFor (aboutProvince 9) []
        (fst (validateProvinceInState sampleProvinces danglingStates 0 []))
   /\ provinceNotExistWarning (rawState 2 "b.txt" [9]) 9
      ∈ fst (StatesRegion.calculateBoundingBox Common.mergeRegions
               (rawState 2 "b.txt" [9]) sampleProvinces 100 100 []))
  /\ (items noStates !! 9 = None
      /\ quietFor (aboutMemberState 9) []
           (fst (validateStatesInSupplyAreas noStates danglingSupplyAreas
                   sampleProvinces 0 []))).
Proof.
  destruct missing_child_no_multi_membership as [Hstates Hareas].
  split.
  - split; [reflexivity|].
    destruct (Hstates Common.mergeRegions sampleProvinces danglingStates 0 [] 9 eq_refl)
      as [Hquiet Hdangling].
    split; [exact Hquiet|]. apply Hdangling. by_compute.
  - split; [reflexivity|]. apply Hareas. reflexivity.
Defined.

(** On the sample data the two validators push nothing at all. *)
Example dangling_children_validated :
  validateProvinceInState sampleProvinces danglingStates 0 [] = ([], Returned tt)
  /\ validateStatesInSupplyAreas noStates danglingSupplyAreas sampleProvinces 0 []
     = ([], Returned tt).
Proof. split; vm_compute; reflexivity. Qed.

End MissingChildren.

(** ** [mergeFiles] of states.ts: geometry first, validation second *)

Section MergeFiles.
Variable mergeRegions : list Region -> Z -> Region.
Variable sortItems :
  list StateNoBoundingBox -> Z ->
  (Z -> Eff unit) ->
  (StateNoBoundingBox -> StateNoBoundingBox -> Z -> Eff unit) ->
  (Z -> Z -> Eff unit) ->
  Eff (JsArray StateNoBoundingBox * Z).
Import StatesRegion.

(** The fill loop computes the geometry of every record at a visited index,
    each from its own provinces. *)
Lemma fillStates_lookup sorted provinces width height l :
  forall filled0 ws,
  exists filled extra,
    foldEff (fillState mergeRegions sorted provinces width height) l filled0 ws
    = (ws ++ extra, Returned filled)
    /\ alength filled = alength filled0
    /\ forall i, items filled !! i
         = if decide (i ∈ l)
           then match items sorted !! i with
                | Some s => Some (mkState s (expectedRegion mergeRegions provinces width s))
                | None => items filled0 !! i
                end
           else items filled0 !! i.
Proof.
  induction l as [|j l IH]; intros filled0 ws; simpl.
  { exists filled0, []. rewrite app_nil_r. repeat split; auto. }
  unfold bind at 1, fillState at 1.
  destruct (items sorted !! j) as [s|] eqn:Hj.
  - unfold bind at 1.
    destruct (calculateBoundingBox_returns mergeRegions s provinces width height ws) as [e1 ->]. simpl.
    destruct (IH (mkJsArray (<[j := mkState s (expectedRegion mergeRegions provinces width s)]> (items filled0))
                    (alength filled0)) (ws ++ e1)) as (filled & e2 & -> & Hlen & Hl).
    exists filled, (e1 ++ e2). rewrite app_assoc. split; [reflexivity|].
    split; [exact Hlen|].
    intros i. rewrite Hl. simpl.
    destruct (decide (i = j)) as [->|Hne].
    + rewrite (decide_True (P := j ∈ j :: l)) by left.
      rewrite Hj, lookup_insert_eq. by destruct (decide (j ∈ l)).
    + rewrite lookup_insert_ne by done.
      destruct (decide (i ∈ l)) as [Hin|Hin].
      * rewrite (decide_True (P := i ∈ j :: l)) by (by right). done.
      * rewrite (decide_False (P := i ∈ j :: l)); [done|].
        rewrite elem_of_cons. intros [?|?]; done.
  - simpl. destruct (IH filled0 ws) as (filled & e2 & -> & Hlen & Hl).
    exists filled, e2. split; [reflexivity|]. split; [exact Hlen|].
    intros i. rewrite Hl.
    destruct (decide (i = j)) as [->|Hne].
    + rewrite (decide_True (P := j ∈ j :: l)) by left.
      rewrite Hj. by destruct (decide (j ∈ l)).
    + destruct (decide (i ∈ l)) as [Hin|Hin].
      * rewrite (decide_True (P := i ∈ j :: l)) by (by right). done.
      * rewrite (decide_False (P := i ∈ j :: l)); [done|].
        rewrite elem_of_cons. intros [?|?]; done.
Qed.


Lemma seaCheck_returns state q province ws :
  exists extra, seaCheck state q province ws = (ws ++ extra, Returned tt).
Proof.
  unfold seaCheck. destruct province as [prov|]; [|exists []; by rewrite app_nil_r].
  unfold when. destruct (String.eqb _ _); [eexists; reflexivity|].
  exists []. by rewrite app_nil_r.
Qed.

Lemma visitProvinces_ok provinces filled state l :
  is_Some (items filled !! stateId (stateBase state)) ->
  forall pts ws, ownersExist filled pts ->
  exists pts' extra,
    foldEff (visitProvince provinces filled state) l pts ws = (ws ++ extra, Returned pts')
    /\ ownersExist filled pts'
    /\ (forall q o, pts !! q = Some o -> pts' !! q = Some o)
    /\ (forall q o, pts' !! q = Some o ->
          pts !! q = Some o \/ (o = stateId (stateBase state) /\ q ∈ l))
    /\ (forall q, q ∈ l -> is_Some (pts' !! q))
    /\ (forall q o prov owner, q ∈ l -> pts !! q = Some o ->
          provinces !! q = Some prov -> items filled !! o = Some owner ->
          multiStatesWarning state owner o q prov ∈ extra).
Proof.
  intros Hsid. induction l as [|p l IH]; intros pts ws Hpts; simpl.
  { exists pts, []. rewrite app_nil_r. split; [done|]. split; [done|].
    split; [done|]. split; [auto|]. split; [intros q Hq|intros q o prov owner Hq];
    by apply elem_of_nil in Hq. }
  unfold bind at 1, visitProvince at 1.
  destruct (pts !! p) as [ownerId|] eqn:Hp.
  - assert (exists e1, (match provinces !! p with
              | Some prov =>
                  match items filled !! ownerId with
                  | Some owner =>
                      push (multiStatesWarning state owner ownerId p prov)
                      >>> seaCheck state p (provinces !! p) >>> ret pts
                  | None => throw "TypeError: states[provinceToState[p]] is undefined"
                  end
              | None => ret pts
              end) ws = (ws ++ e1, Returned pts)
            /\ forall prov owner, provinces !! p = Some prov ->
                 items filled !! ownerId = Some owner ->
                 multiStatesWarning state owner ownerId p prov ∈ e1) as (e1 & E1 & He1).
    { destruct (provinces !! p) as [prov|] eqn:Hprov.
      - destruct (Hpts p ownerId Hp) as [owner Ho]. rewrite Ho.
        unfold bind, push.
        destruct (seaCheck_returns state p (Some prov)
                    (ws ++ [multiStatesWarning state owner ownerId p prov])) as [e ->].
        simpl. exists ([multiStatesWarning state owner ownerId p prov] ++ e).
        rewrite app_assoc. split; [done|].
        intros prov' owner' [= <-] [= <-]. apply elem_of_app. left. by left.
      - exists []. rewrite app_nil_r. split; [done|]. intros; done. }
    rewrite E1.
    destruct (IH pts (ws ++ e1) Hpts) as (pts' & e2 & -> & Hv & Hmono & Hnew & Hall & Hw).
    exists pts', (e1 ++ e2). rewrite app_assoc. split; [done|]. split; [done|].
    split; [done|]. split.
    { intros q o Hq. destruct (Hnew q o Hq) as [?|[? ?]]; [by left|right].
      split; [done|by right]. }
    split.
    { intros q Hq. apply elem_of_cons in Hq as [->|Hq]; [|by apply Hall].
      rewrite (Hmono _ _ Hp). eauto. }
    intros q o prov owner Hq Hqo Hprov Ho. apply elem_of_app.
    apply elem_of_cons in Hq as [->|Hq]; [left|right; by eapply Hw].
    rewrite Hp in Hqo. injection Hqo as <-. by apply He1.
  - unfold bind at 1.
    destruct (seaCheck_returns state p (provinces !! p) ws) as [e1 ->]. simpl.
    set (pts1 := <[p := stateId (stateBase state)]> pts).
    assert (Hpts1 : ownersExist filled pts1).
    { intros q o. unfold pts1. destruct (decide (q = p)) as [->|Hne].
      - rewrite lookup_insert_eq. by intros [= <-].
      - rewrite lookup_insert_ne by done. apply Hpts. }
    destruct (IH pts1 (ws ++ e1) Hpts1) as (pts' & e2 & -> & Hv & Hmono & Hnew & Hall & Hw).
    exists pts', (e1 ++ e2). rewrite app_assoc. split; [done|]. split; [done|].
    split.
    { intros q o Hq. apply Hmono. unfold pts1. rewrite lookup_insert_ne; [done|].
      intros <-. congruence. }
    split.
    { intros q o Hq. destruct (Hnew q o Hq) as [Hq1|[? ?]]; [|right; split; [done|by right]].
      unfold pts1 in Hq1. destruct (decide (q = p)) as [->|Hne].
      - rewrite lookup_insert_eq in Hq1. injection Hq1 as <-. right. split; [done|by left].
      - rewrite lookup_insert_ne in Hq1 by done. by left. }
    split.
    { intros q Hq. apply elem_of_cons in Hq as [->|Hq]; [|by apply Hall].
      rewrite (Hmono p (stateId (stateBase state))); [eauto|].
      unfold pts1. apply lookup_insert_eq. }
    intros q o prov owner Hq Hqo Hprov Ho. apply elem_of_app. right.
    apply elem_of_cons in Hq as [->|Hq]; [congruence|].
    eapply Hw; eauto. unfold pts1. rewrite lookup_insert_ne; [done|].
    intros <-. congruence.
Qed.


Lemma visitState_ok provinces filled i :
  indexedById filled ->
  forall pts ws, ownersExist filled pts ->
  exists pts' extra,
    visitState provinces filled pts i ws = (ws ++ extra, Returned pts')
    /\ ownersExist filled pts'
    /\ (forall q o, pts !! q = Some o -> pts' !! q = Some o)
    /\ (forall q o, pts' !! q = Some o ->
          pts !! q = Some o
          \/ (o = i /\ exists st, items filled !! i = Some st
                                 /\ q ∈ stateProvinces (stateBase st)))
    /\ (forall st q, items filled !! i = Some st ->
          q ∈ stateProvinces (stateBase st) -> is_Some (pts' !! q))
    /\ (forall st q o prov owner, items filled !! i = Some st ->
          q ∈ stateProvinces (stateBase st) -> pts !! q = Some o ->
          provinces !! q = Some prov -> items filled !! o = Some owner ->
          multiStatesWarning st owner o q prov ∈ extra).
Proof.
  intros Hwf pts ws Hpts. unfold visitState.
  destruct (items filled !! i) as [st|] eqn:Hi.
  - assert (Hid : stateId (stateBase st) = i) by (by apply Hwf).
    destruct (visitProvinces_ok provinces filled st (stateProvinces (stateBase st)))
      with (pts := pts) (ws := ws)
      as (pts' & extra & E & Hv & Hmono & Hnew & Hall & Hw); [rewrite Hid; eauto|done|].
    exists pts', extra. split; [done|]. split; [done|]. split; [done|]. split.
    { intros q o Hq. destruct (Hnew q o Hq) as [?|[? ?]]; [by left|right].
      split; [congruence|eauto]. }
    split.
    { intros st' q [= <-]. apply Hall. }
    intros st' q o prov owner [= <-]. apply Hw.
  - exists pts, []. rewrite app_nil_r. split; [done|]. split; [done|]. split; [done|].
    split; [by left|]. split; [intros st q Hst|intros st q o prov owner Hst]; done.
Qed.

(** A fold of [visitState] over indices keeps an invariant of the reverse map
    and of the warnings that each visit keeps. *)
Lemma visitStates_inv provinces filled (I : gmap Z Z -> list Warning -> Prop) l :
  indexedById filled ->
  (forall pts ws i pts' extra, i ∈ l -> ownersExist filled pts -> I pts ws ->
     visitState provinces filled pts i ws = (ws ++ extra, Returned pts') ->
     I pts' (ws ++ extra)) ->
  forall pts ws, ownersExist filled pts -> I pts ws ->
  exists pts' ws',
    foldEff (visitState provinces filled) l pts ws = (ws', Returned pts')
    /\ ownersExist filled pts' /\ I pts' ws'.
Proof.
  intros Hwf Hstep pts ws Hpts HI.
  assert (Hbody : forall pts0 i ws0, i ∈ l -> ownersExist filled pts0 /\ I pts0 ws0 ->
            exists pts1 ws1, visitState provinces filled pts0 i ws0 = (ws1, Returned pts1)
                             /\ ownersExist filled pts1 /\ I pts1 ws1).
  { intros pts0 i ws0 Hi [Hv0 HI0].
    destruct (visitState_ok provinces filled i Hwf pts0 ws0 Hv0)
      as (pts1 & extra & E & Hv1 & _).
    exists pts1, (ws0 ++ extra). split; [exact E|]. split; [exact Hv1|].
    exact (Hstep _ _ _ _ _ Hi Hv0 HI0 E). }
  destruct (foldEff_inv (fun pts ws => ownersExist filled pts /\ I pts ws)
              (visitState provinces filled) l Hbody pts ws (conj Hpts HI))
    as (pts' & ws' & E & Hv & HI').
  exists pts', ws'. done.
Qed.


Lemma resolved_elem provinces l p prov :
  p ∈ l -> provinces !! p = Some prov -> prov ∈ resolvedProvinces provinces l.
Proof.
  intros Hin Hp. unfold resolvedProvinces. apply list_elem_of_omap. eauto.
Qed.

Lemma expectedRegion_nonempty provinces width s p prov :
  p ∈ stateProvinces s -> provinces !! p = Some prov ->
  expectedRegion mergeRegions provinces width s
  = mergeRegions (map provinceRegion (resolvedProvinces provinces (stateProvinces s))) width.
Proof.
  intros Hin Hp. unfold expectedRegion.
  pose proof (resolved_elem provinces _ p prov Hin Hp) as Hel.
  destruct (resolvedProvinces provinces (stateProvinces s)); [|done].
  by apply elem_of_nil in Hel.
Qed.

(** C7, as amended.  Two states at the indices [ia < ib] of the reconciled
    array both list the province [p], which exists, and no state before [ia]
    lists it: [mergeFiles] returns, the region of each of the two states is
    merged from all of its own provinces that resolve, [p] among them for
    both, and the warnings contain the multi-state warning for [p] naming
    [ia], the first state to list it, and [ib]. *)
Theorem mergeFiles_shared_province
    (rawStates : list StateNoBoundingBox) (provinces : gmap Z Province)
    (width height : Z) (ws ws1 : list Warning)
    (sorted : JsArray StateNoBoundingBox) (badStateId ia ib p : Z)
    (a b : StateNoBoundingBox) (prov : Province) :
  sortStates sortItems rawStates ws = (ws1, Returned (sorted, badStateId)) ->
  map_Forall (fun i s => stateId s = i) (items sorted) ->
  badStateId < ia -> ia < ib -> ib < alength sorted ->
  items sorted !! ia = Some a -> items sorted !! ib = Some b ->
  p ∈ stateProvinces a -> p ∈ stateProvinces b ->
  provinces !! p = Some prov ->
  map_Forall (fun i s => badStateId < i -> i < ia -> p ∉ stateProvinces s) (items sorted) ->
  exists ws' res,
    mergeFiles mergeRegions sortItems rawStates provinces width height ws
    = (ws', Returned res)
    /\ items (states res) !! ia
       = Some (mkState a (mergeRegions
                 (map provinceRegion (resolvedProvinces provinces (stateProvinces a))) width))
    /\ items (states res) !! ib
       = Some (mkState b (mergeRegions
                 (map provinceRegion (resolvedProvinces provinces (stateProvinces b))) width))
    /\ prov ∈ resolvedProvinces provinces (stateProvinces a)
    /\ prov ∈ resolvedProvinces provinces (stateProvinces b)
    /\ mkWarning [stateSource ib; stateSource ia; provinceSource p prov]
         [stateFile b; stateFile a] (ProvinceInMultiStates p ia ib) ∈ ws'.
Proof.
  intros Hsort Hwf Hlo Hab Hhi Ha Hb Hpa Hpb Hprov Hfirst.
  unfold mergeFiles, bind at 1. rewrite Hsort.
  set (lo := badStateId + 1). set (n := alength sorted - lo).
  destruct (fillStates_lookup sorted provinces width height (seqZ lo n)
              (mkJsArray ∅ (alength sorted)) ws1) as (filled & e & E & Hlen & Hl).
  unfold bind at 1. rewrite E. simpl in Hlen.
  assert (Hrange : forall i, lo <= i < lo + n -> i ∈ seqZ lo n)
    by (intros i Hi; apply elem_of_seqZ; lia).
  assert (Hfa : items filled !! ia = Some (mkState a (expectedRegion mergeRegions provinces width a))).
  { rewrite Hl, decide_True by (apply Hrange; unfold n, lo; lia). by rewrite Ha. }
  assert (Hfb : items filled !! ib = Some (mkState b (expectedRegion mergeRegions provinces width b))).
  { rewrite Hl, decide_True by (apply Hrange; unfold n, lo; lia). by rewrite Hb. }
  assert (Hbase : forall i st, items filled !! i = Some st ->
            items sorted !! i = Some (stateBase st)).
  { intros i st. rewrite Hl. simpl. rewrite lookup_empty.
    destruct (decide _); [|done]. destruct (items sorted !! i); [|done]. by intros [= <-]. }
  assert (Hidx : indexedById filled).
  { intros i st Hst. apply Hbase in Hst. by apply Hwf in Hst. }
  set (w := mkWarning [stateSource ib; stateSource ia; provinceSource p prov]
              [stateFile b; stateFile a] (ProvinceInMultiStates p ia ib)).
  assert (Hval : exists ws', validateProvinceInState provinces filled lo (ws1 ++ e)
                             = (ws', Returned tt) /\ w ∈ ws').
  { unfold validateProvinceInState. rewrite Hlen. fold n.
    rewrite (seqZ_split lo n ia) by (unfold n, lo; lia).
    rewrite (seqZ_split (ia + 1) (lo + n - ia - 1) ib) by (unfold n, lo; lia).
    unfold bind at 1. rewrite foldEff_app.
    (* indices before ia *)
    destruct (visitStates_inv provinces filled (fun pts _ => pts !! p = None)
                (seqZ lo (ia - lo)) Hidx) with (pts := (∅ : gmap Z Z)) (ws := ws1 ++ e)
      as (pts1 & wsA & -> & Hv1 & Hp1).
    { intros pts ws0 i pts' extra Hi Hv HI Hvisit.
      destruct (visitState_ok provinces filled i Hidx pts ws0 Hv)
        as (pts2 & extra2 & E2 & _ & _ & Hnew & _).
      rewrite E2 in Hvisit. injection Hvisit as _ <-.
      destruct (pts2 !! p) as [o|] eqn:Ho; [|done].
      destruct (Hnew p o Ho) as [?|(_ & st & Hst & Hin)]; [congruence|].
      apply elem_of_seqZ in Hi. apply Hbase in Hst.
      exfalso. apply (Hfirst i (stateBase st) Hst); unfold lo in *; [lia|lia|done]. }
    { intros q o. by rewrite lookup_empty. }
    { apply lookup_empty. }
    (* index ia *)
    simpl. unfold bind at 1.
    destruct (visitState_ok provinces filled ia Hidx pts1 wsA Hv1)
      as (pts2 & e2 & -> & Hv2 & _ & Hnew2 & Hall2 & _).
    assert (Hp2 : pts2 !! p = Some ia).
    { destruct (Hall2 _ p Hfa Hpa) as [o Ho]. rewrite Ho. f_equal.
      destruct (Hnew2 p o Ho) as [?|[? _]]; [congruence|done]. }
    rewrite foldEff_app.
    (* indices between ia and ib *)
    destruct (visitStates_inv provinces filled (fun pts _ => pts !! p = Some ia)
                (seqZ (ia + 1) (ib - (ia + 1))) Hidx) with (pts := pts2) (ws := wsA ++ e2)
      as (pts3 & wsB & -> & Hv3 & Hp3); [|done|done|].
    { intros pts ws0 i pts' extra Hi Hv HI Hvisit.
      destruct (visitState_ok provinces filled i Hidx pts ws0 Hv)
        as (pts4 & extra4 & E4 & _ & Hmono & _).
      rewrite E4 in Hvisit. injection Hvisit as _ <-. by apply Hmono. }
    (* index ib *)
    simpl. unfold bind at 1.
    destruct (visitState_ok provinces filled ib Hidx pts3 wsB Hv3)
      as (pts4 & e4 & -> & Hv4 & _ & _ & _ & Hw4).
    specialize (Hw4 _ p ia prov _ Hfb Hpb Hp3 Hprov Hfa).
    unfold multiStatesWarning in Hw4. simpl in Hw4.
    rewrite (Hwf ib b Hb) in Hw4. fold w in Hw4.
    (* indices after ib *)
    destruct (visitStates_inv provinces filled (fun _ ws0 => w ∈ ws0)
                (seqZ (ib + 1) (ia + 1 + (lo + n - ia - 1) - ib - 1)) Hidx)
      with (pts := pts4) (ws := wsB ++ e4)
      as (pts5 & wsC & -> & Hv5 & Hw5); [|done| |].
    { intros pts ws0 i pts' extra Hi Hv HI Hvisit. apply elem_of_app. by left. }
    { apply elem_of_app. by right. }
    simpl. eauto. }
  destruct Hval as (ws' & Ev & Hw).
  exists ws', (mkStateLoaderResult filled lo).
  unfold bind. rewrite Ev. simpl.
  rewrite <- (expectedRegion_nonempty provinces width a p prov Hpa Hprov).
  rewrite <- (expectedRegion_nonempty provinces width b p prov Hpb Hprov).
  split; [reflexivity|]. split; [exact Hfa|]. split; [exact Hfb|].
  split; [by eapply resolved_elem|]. split; [by eapply resolved_elem|]. exact Hw.
Qed.


End MergeFiles.

Lemma mergeFiles_shared_province_witness :
  exists ws' res,
    StatesRegion.mergeFiles Common.mergeRegions Common.sortItems overlappingStates
      sampleProvinces 100 100 []
    = (ws', Returned res)
    /\ items (StatesRegion.states res) !! 1
       = Some (mkState (rawState 1 "a.txt" [1])
                 (Common.mergeRegions
                    (map provinceRegion (resolvedProvinces sampleProvinces [1])) 100))
    /\ items (StatesRegion.states res) !! 2
       = Some (mkState (rawState 2 "b.txt" [1])
                 (Common.mergeRegions
                    (map provinceRegion (resolvedProvinces sampleProvinces [1])) 100))
    /\ sampleProvince ∈ resolvedProvinces sampleProvinces [1]
    /\ sampleProvince ∈ resolvedProvinces sampleProvinces [1]
    /\ mkWarning [stateSource 2; stateSource 1; provinceSource 1 sampleProvince]
         ["b.txt"; "a.txt"] (ProvinceInMultiStates 1 1 2) ∈ ws'.
Proof.
  apply (mergeFiles_shared_province Common.mergeRegions Common.sortItems
           overlappingStates sampleProvinces 100 100 [] [] overlappingSorted (-1) 1 2 1
           (rawState 1 "a.txt" [1]) (rawState 2 "b.txt" [1]) sampleProvince).
  - vm_compute. reflexivity.
  - by_compute.
  - lia.
  - lia.
  - simpl. lia.
  - reflexivity.
  - reflexivity.
  - by_compute.
  - by_compute.
  - reflexivity.
  - by_compute.
Defined.

(** C7 as stated fails: states 1 and 2 both list province 1; were the
    province used only for the state assigned first, state 2 would have no
    valid province and the zero region; [mergeFiles] gives state 2 the region
    of province 1, of mass 1, the same as state 1. *)
Lemma shared_province_in_both_geometries :
  exists ws' res first second,
    StatesRegion.mergeFiles Common.mergeRegions Common.sortItems overlappingStates
      sampleProvinces 100 100 []
    = (ws', Returned res)
    /\ items (StatesRegion.states res) !! 1 = Some first
    /\ items (StatesRegion.states res) !! 2 = Some second
    /\ stateRegion first = provinceRegion sampleProvince
    /\ stateRegion second = provinceRegion sampleProvince
    /\ mass (stateRegion second) = 1
    /\ stateRegion second <> zeroRegion.
Proof.
  do 4 eexists. split; [vm_compute; reflexivity|]. simpl.
  split; [reflexivity|]. split; [reflexivity|]. split; [reflexivity|].
  split; [reflexivity|]. split; [reflexivity|]. discriminate.
Qed.

(** ** Contiguity of the states of a supply area *)

Section Contiguity.
Import SupplyAreas.

Lemma NoDup_map_inj {A B} (f : A -> B) (l : list A) x y :
  NoDup (map f l) -> x ∈ l -> y ∈ l -> f x = f y -> x = y.
Proof.
  induction l as [|a l IH]; intros Hnd Hx Hy Hf; [by apply elem_of_nil in Hx|].
  simpl in Hnd. apply NoDup_cons in Hnd as [Ha Hnd].
  apply elem_of_cons in Hx as [->|Hx]; apply elem_of_cons in Hy as [->|Hy]; auto.
  - exfalso. apply Ha. rewrite Hf. apply list_elem_of_In, in_map, list_elem_of_In, Hy.
  - exfalso. apply Ha. rewrite <- Hf. apply list_elem_of_In, in_map, list_elem_of_In, Hx.
Qed.

Section Scan.
Variable provinces : gmap Z Province.
Variable cur : State.

Lemma scan_facts l : forall stack acc,
  let r := fold_left (scanState provinces cur) l (stack, acc) in
  (forall y, y ∈ l -> statesAreAdjacent y cur provinces = true -> sid y ∈ snd r)
  /\ (forall i, i ∈ acc -> i ∈ snd r)
  /\ (forall i, i ∈ snd r -> i ∈ acc \/
        exists y, y ∈ l /\ sid y = i /\ statesAreAdjacent y cur provinces = true
                  /\ y ∈ fst r)
  /\ (forall x, x ∈ fst r -> x ∈ stack \/ (x ∈ l /\ sid x ∈ snd r))
  /\ (forall x, x ∈ stack -> x ∈ fst r)
  /\ (NoDup acc -> NoDup (snd r))
  /\ (length (fst r) + length acc = length stack + length (snd r))%nat.
Proof.
  induction l as [|s l IH]; intros stack acc; simpl.
  { split; [intros y Hy; by apply elem_of_nil in Hy|]. split; [auto|]. split; [auto|].
    split; [auto|]. split; [auto|]. split; [auto|]. lia. }
  destruct (decide (sid s ∈ acc)) as [Hin|Hin].
  - replace (scanState provinces cur (stack, acc) s) with (stack, acc)
      by (unfold scanState, isAccessed; simpl; by rewrite bool_decide_eq_true_2).
    destruct (IH stack acc) as (H1 & H2 & H3 & H4 & H5 & H6 & H7).
    split. { intros y Hy Hadj. apply elem_of_cons in Hy as [->|Hy]; auto. }
    split; [done|]. split.
    { intros i Hi. destruct (H3 i Hi) as [?|(y & ? & ? & ? & ?)]; [by left|right].
      exists y. split; [by right|done]. }
    split. { intros x Hx. destruct (H4 x Hx) as [?|[? ?]]; [by left|right].
             split; [by right|done]. }
    exact (conj H5 (conj H6 H7)).
  - destruct (statesAreAdjacent s cur provinces) eqn:Hadj.
    + replace (scanState provinces cur (stack, acc) s) with (s :: stack, acc ++ [sid s])
        by (unfold scanState, isAccessed; simpl;
            by rewrite bool_decide_eq_false_2, Hadj).
      destruct (IH (s :: stack) (acc ++ [sid s])) as (H1 & H2 & H3 & H4 & H5 & H6 & H7).
      split.
      { intros y Hy Hy'. apply elem_of_cons in Hy as [->|Hy]; auto.
        apply H2, elem_of_app. right. by left. }
      split. { intros i Hi. apply H2, elem_of_app. by left. }
      split.
      { intros i Hi. destruct (H3 i Hi) as [Hi'|(y & ? & ? & ? & ?)].
        - apply elem_of_app in Hi' as [?|Hi']; [by left|right].
          apply list_elem_of_singleton in Hi'. subst i.
          exists s. split; [by left|]. split; [done|]. split; [done|].
          apply H5. by left.
        - right. exists y. split; [by right|done]. }
      split.
      { intros x Hx. destruct (H4 x Hx) as [Hx'|[? ?]].
        - apply elem_of_cons in Hx' as [->|?]; [right|by left].
          split; [by left|]. apply H2, elem_of_app. right. by left.
        - right. split; [by right|done]. }
      split. { intros x Hx. apply H5. by right. }
      split.
      { intros Hnd. apply H6. apply NoDup_app. split; [done|]. split; [|apply NoDup_singleton].
        intros i Hi Hi'. apply list_elem_of_singleton in Hi'. by subst i. }
      rewrite length_app in H7. simpl in *. lia.
    + replace (scanState provinces cur (stack, acc) s) with (stack, acc)
        by (unfold scanState, isAccessed; simpl;
            by rewrite bool_decide_eq_false_2, Hadj).
      destruct (IH stack acc) as (H1 & H2 & H3 & H4 & H5 & H6 & H7).
      split. { intros y Hy Hy'. apply elem_of_cons in Hy as [->|Hy]; [congruence|auto]. }
      split; [done|]. split.
      { intros i Hi. destruct (H3 i Hi) as [?|(y & ? & ? & ? & ?)]; [by left|right].
        exists y. split; [by right|done]. }
      split. { intros x Hx. destruct (H4 x Hx) as [?|[? ?]]; [by left|right].
               split; [by right|done]. }
      exact (conj H5 (conj H6 H7)).
Qed.

End Scan.

Section Traverse.
Variable provinces : gmap Z Province.
Variable states : list State.
Variable first : State.
Hypothesis Hnd : NoDup (map sid states).
Hypothesis Hfirst : first ∈ states.

Lemma reachable_member s : reachable provinces states first s -> s ∈ states.
Proof.
  intros Hr. apply (rtc_ind_r (R := step provinces states) (fun s => s ∈ states) first);
    [exact Hfirst|intros y z _ [Hz _] _; exact Hz|exact Hr].
Qed.

Lemma accessed_bound acc :
  NoDup acc -> (forall i, i ∈ acc -> exists x, x ∈ states /\ sid x = i /\ reachable provinces states first x) ->
  (length acc <= length states)%nat.
Proof.
  intros Hacc Hsub. rewrite <- (length_map sid states).
  apply submseteq_length, NoDup_submseteq; [done|].
  intros i Hi. destruct (Hsub i Hi) as (x & Hx & <- & _).
  apply list_elem_of_In, in_map, list_elem_of_In, Hx.
Qed.

Lemma traverse_finishes fuel : forall stack acc,
  traversing provinces states first stack acc ->
  (length stack + length states <= fuel + length acc)%nat ->
  exists accF, traverse fuel provinces states stack acc = Some accF
               /\ traversing provinces states first [] accF /\ (forall i, i ∈ acc -> i ∈ accF).
Proof.
  induction fuel as [|fuel IH]; intros stack acc Hinv Hfuel.
  - destruct Hinv as (I1 & I2 & I3 & I4).
    pose proof (accessed_bound acc I1 I2) as Hb.
    destruct stack as [|cur rest]; simpl in *; [|lia].
    exists acc. split; [done|]. split; [exact (conj I1 (conj I2 (conj I3 I4)))|auto].
  - destruct stack as [|cur rest]; simpl.
    { exists acc. split; [done|]. split; [done|auto]. }
    destruct Hinv as (I1 & I2 & I3 & I4).
    destruct (scan_facts provinces cur states rest acc) as (S1 & S2 & S3 & S4 & S5 & S6 & S7).
    set (r := fold_left (scanState provinces cur) states (rest, acc)) in *.
    destruct (I3 cur) as [Hcur Hcur']; [by left|].
    destruct (IH (fst r) (snd r)) as (accF & E & HinvF & Hmono).
    + split; [by apply S6|]. split.
      { intros i Hi. destruct (S3 i Hi) as [Hi'|(y & Hy & <- & Hadj & _)]; [by apply I2|].
        exists y. split; [done|]. split; [done|].
        destruct (I2 (sid cur) Hcur') as (x & Hx & Hsx & Hrx).
        assert (x = cur) by (eapply NoDup_map_inj; eauto). subst x.
        eapply rtc_r; [exact Hrx|]. by split. }
      split.
      { intros x Hx. destruct (S4 x Hx) as [Hx'|[? ?]]; [|done].
        destruct (I3 x) as [? ?]; [by right|]. split; [done|by apply S2]. }
      intros x Hx Hsx.
      destruct (S3 (sid x) Hsx) as [Hold|(y & Hy & Hsy & _ & Hstack)].
      * destruct (I4 x Hx Hold) as [Hst|Hclosed].
        -- apply elem_of_cons in Hst as [->|Hst]; [right|left; by apply S5].
           intros y Hy Hadj. by apply S1.
        -- right. intros y Hy Hadj. apply S2. by apply Hclosed.
      * left. assert (y = x) by (eapply NoDup_map_inj; eauto). by subst y.
    + simpl in Hfuel. lia.
    + exists accF. split; [done|]. split; [done|]. intros i Hi. by apply Hmono, S2.
Qed.

Lemma traverse_characterised :
  exists accF,
    traverse (S (length states)) provinces states [first] [sid first] = Some accF
    /\ NoDup accF
    /\ (forall i, i ∈ accF -> exists x, x ∈ states /\ sid x = i)
    /\ (forall s, s ∈ states -> sid s ∈ accF <-> reachable provinces states first s)
    /\ sid first ∈ accF.
Proof.
  destruct (traverse_finishes (S (length states)) [first] [sid first])
    as (accF & E & (I1 & I2 & I3 & I4) & Hmono).
  - split; [apply NoDup_singleton|]. split.
    { intros i Hi. apply list_elem_of_singleton in Hi. subst i.
      exists first. split; [done|]. split; [done|]. apply rtc_refl. }
    split.
    { intros x Hx. apply list_elem_of_singleton in Hx. subst x.
      split; [done|]. by left. }
    intros x Hx Hsx. apply list_elem_of_singleton in Hsx. left.
    assert (x = first) by (eapply NoDup_map_inj; eauto). subst x. by left.
  - simpl. lia.
  - assert (Hf : sid first ∈ accF) by (apply Hmono; by left).
    exists accF. split; [done|]. split; [done|]. split.
    { intros i Hi. destruct (I2 i Hi) as (x & ? & ? & _). eauto. }
    split; [|done].
    intros s Hs. split.
    + intros Hin. destruct (I2 _ Hin) as (x & Hx & Hsx & Hrx).
      assert (x = s) by (eapply NoDup_map_inj; eauto). by subst x.
    + intros Hreach.
      apply (rtc_ind_r (R := step provinces states) (fun s => sid s ∈ accF) first); [exact Hf| |exact Hreach].
      intros x y Hrx [Hy Hadj] IHr.
      pose proof (reachable_member x Hrx) as Hx.
      destruct (I4 x Hx IHr) as [Hst|Hclosed]; [by apply elem_of_nil in Hst|].
      by apply Hclosed.
Qed.

End Traverse.


(** The traversal ends within the iterations it is given, whatever the
    member list: every iteration pops one entry and every push marks a new
    id of the list. *)
Lemma traverse_total provinces states fuel : forall stack acc,
  NoDup acc -> (forall i, i ∈ acc -> i ∈ map sid states) ->
  (length stack + length states <= fuel + length acc)%nat ->
  is_Some (traverse fuel provinces states stack acc).
Proof.
  induction fuel as [|fuel IH]; intros stack acc Hnd Hsub Hfuel.
  - assert (length acc <= length states)%nat.
    { rewrite <- (length_map sid states). by apply submseteq_length, NoDup_submseteq. }
    destruct stack; simpl in *; [eauto|lia].
  - destruct stack as [|cur rest]; simpl; [eauto|].
    destruct (scan_facts provinces cur states rest acc) as (_ & _ & S3 & _ & _ & S6 & S7).
    apply IH; [by apply S6| |simpl in Hfuel; lia].
    intros i Hi. destruct (S3 i Hi) as [?|(y & Hy & <- & _)]; [by apply Hsub|].
    apply list_elem_of_In, in_map, list_elem_of_In, Hy.
Qed.

Lemma checkStatesContiguous_finishes states provinces :
  checkStatesContiguous states provinces <> Thrown "traversal did not finish".
Proof.
  unfold checkStatesContiguous. destruct states as [|first rest]; [done|].
  destruct (traverse_total provinces (first :: rest) (S (length (first :: rest)))
              [first] [stateId (stateBase first)]) as [accF ->].
  - apply NoDup_singleton.
  - intros i Hi. apply list_elem_of_singleton in Hi. subst i. by left.
  - simpl. lia.
  - destruct (_ =? _); [done|]. destruct (find _ _); done.
Qed.

Lemma objectKeys_perm l : objectKeys l ≡ₚ l.
Proof.
  unfold objectKeys. rewrite merge_sort_Permutation.
  apply filter_app_complement.
Qed.

(** For members with pairwise distinct ids the function is a correct
    reachability check: it returns [None] exactly when every member is
    reachable from the first one, and otherwise an unreached id followed by a
    reached id. *)
Lemma checkStatesContiguous_distinct (first : State) (rest : list State)
    (provinces : gmap Z Province) :
  let states := first :: rest in
  NoDup (map sid states) ->
  exists res,
    checkStatesContiguous states provinces = Returned res
    /\ (res = None <-> forall s, s ∈ states -> reachable provinces states first s)
    /\ (forall u r, res = Some (u, r) ->
          (exists s, s ∈ states /\ sid s = u /\ ~ reachable provinces states first s)
          /\ (exists s, s ∈ states /\ sid s = r /\ reachable provinces states first s)).
Proof.
  intros states Hnd.
  assert (Hfirst : first ∈ states) by (by left).
  destruct (traverse_characterised provinces states first Hnd Hfirst)
    as (accF & E & HndF & Hsub & Hiff & Hf).
  unfold checkStatesContiguous. unfold states at 1. cbv beta iota.
  change (first :: rest) with states.
  change (stateId (stateBase first)) with (sid first). rewrite E.
  pose proof (objectKeys_perm accF) as Hperm.
  rewrite (Permutation_length Hperm).
  assert (Hle : (length accF <= length states)%nat).
  { rewrite <- (length_map sid states).
    apply submseteq_length, NoDup_submseteq; [done|].
    intros i Hi. destruct (Hsub i Hi) as (x & Hx & <-).
    apply list_elem_of_In, in_map, list_elem_of_In, Hx. }
  destruct (Z.eqb_spec (Z.of_nat (length accF)) (Z.of_nat (length states))) as [Heq|Hne].
  - exists None. split; [done|]. split; [|intros; done].
    split; [|done]. intros _ s Hs. apply Hiff; [done|].
    assert (Hp : accF ≡ₚ map sid states).
    { apply submseteq_length_Permutation.
      - apply NoDup_submseteq; [done|].
        intros i Hi. destruct (Hsub i Hi) as (x & Hx & <-).
        apply list_elem_of_In, in_map, list_elem_of_In, Hx.
      - rewrite length_map. lia. }
    rewrite Hp. apply list_elem_of_In, in_map, list_elem_of_In, Hs.
  - assert (Hex : exists s, s ∈ states /\ sid s ∉ accF).
    { destruct (decide (Forall (fun s => sid s ∈ accF) states)) as [Hall|Hnall].
      - exfalso. apply Hne. f_equal. apply Nat.le_antisymm; [done|].
        rewrite <- (length_map sid states).
        apply submseteq_length, NoDup_submseteq; [done|].
        intros i Hi. apply list_elem_of_In, in_map_iff in Hi as (s & <- & Hs).
        rewrite Forall_forall in Hall. apply Hall, list_elem_of_In, Hs.
      - apply not_Forall_Exists, Exists_exists in Hnall; [done|apply _]. }
    destruct Hex as (s0 & Hs0 & Hs0').
    destruct (find (fun state => negb (isAccessed accF state)) states) as [u|] eqn:Hfind.
    + apply find_some in Hfind as [Hu Hu'].
      apply negb_true_iff, bool_decide_eq_false in Hu'. apply list_elem_of_In in Hu.
      exists (Some (sid u, default 0 (head (objectKeys accF)))).
      split; [done|]. split.
      { split; [done|]. intros Hall. exfalso. apply Hu', Hiff; auto. }
      intros u' r [= <- <-]. split.
      { exists u. split; [done|]. split; [done|]. intros Hr. apply Hu', Hiff; auto. }
      assert (Hhead : default 0 (head (objectKeys accF)) ∈ accF).
      { destruct (objectKeys accF) as [|k ks] eqn:Hk.
        - apply Permutation_nil_l in Hperm. subst accF. by apply elem_of_nil in Hf.
        - simpl. rewrite <- Hperm. by left. }
      destruct (Hsub _ Hhead) as (x & Hx & Hsx).
      exists x. split; [done|]. split; [done|]. apply Hiff; [done|]. by rewrite Hsx.
    + exfalso. pose proof (find_none _ _ Hfind s0) as Hn.
      rewrite <- list_elem_of_In in Hn. specialize (Hn Hs0).
      apply negb_false_iff, bool_decide_eq_true in Hn. done.
Qed.

(** C3, failing input.  A supply area whose [states] block names state 1
    twice hands [checkStatesContiguous] the member list [state 1; state 1].
    Every member is reachable from the first, so the claim makes the result
    [undefined]; the code compares the one key of [accessedStates] with the
    list length 2, finds no unreached member and throws on [undefined.id],
    which also ends [validateStatesInSupplyAreas]. *)
Theorem checkStatesContiguous_duplicate_member_throws :
  checkStatesContiguous [sampleState; sampleState] sampleProvinces
  = Thrown "TypeError: Cannot read properties of undefined (reading 'id')"
  /\ (forall s, s ∈ [sampleState; sampleState] ->
        reachable sampleProvinces [sampleState; sampleState] sampleState s)
  /\ snd (validateStatesInSupplyAreas (mkJsArray {[ 1 := sampleState ]} 2)
            (mkJsArray {[ 1 := repeatingSupplyArea ]} 2) sampleProvinces 0 [])
     = Thrown "TypeError: Cannot read properties of undefined (reading 'id')".
Proof.
  split; [vm_compute; reflexivity|]. split; [|vm_compute; reflexivity].
  intros s Hs. apply elem_of_cons in Hs as [->|Hs]; [apply rtc_refl|].
  apply list_elem_of_singleton in Hs. subst s. apply rtc_refl.
Qed.

End Contiguity.

(** ** The diff protocol *)

Section Diff.
Import WorldMapSession.

Context {V : Type} `{EqDecision V}.
Variable stringify : V -> string.
Variable stringifySlice : (Z -> V) -> Z -> Z -> string.
Variable undefinedValue : V.

Lemma overLimit_app (l l' : list (@WorldMapMessage V)) : overLimit l = true -> overLimit (l ++ l') = true.
Proof.
  unfold overLimit, changeMessagesCountLimit. rewrite length_app.
  intros Hl. apply Z.gtb_lt. apply Z.gtb_lt in Hl. lia.
Qed.

(** Below the limit the bounded loop queues what the unbounded one does;
    above it the bounded loop gives up. *)
Lemma fillLoop_runs (lst cachedList : Z -> V) command listEnd indices :
  forall (cm : list (@WorldMapMessage V)) last,
  let all := cm ++ changeRuns stringifySlice lst cachedList command listEnd indices last in
  overLimit cm = false ->
  if overLimit all
  then snd (fillLoop stringifySlice lst cachedList command listEnd indices cm last) = false
  else fillLoop stringifySlice lst cachedList command listEnd indices cm last = (all, true).
Proof.
  induction indices as [|i rest IH]; intros cm last all Hcm; subst all; simpl.
  { rewrite app_nil_r, Hcm. reflexivity. }
  destruct ((i =? listEnd) || isEqual (lst i) (cachedList i)); destruct last as [s|];
    try (apply IH; exact Hcm).
  - destruct (overLimit (cm ++ [Change command (stringifySlice lst s i) s i])) eqn:Hp.
    + replace (cm ++ Change command (stringifySlice lst s i) s i :: _)
        with ((cm ++ [Change command (stringifySlice lst s i) s i])
              ++ changeRuns stringifySlice lst cachedList command listEnd rest None)
        by (rewrite <- app_assoc; reflexivity).
      rewrite overLimit_app by done. reflexivity.
    + specialize (IH (cm ++ [Change command (stringifySlice lst s i) s i]) None Hp).
      simpl in IH. rewrite <- app_assoc in IH. exact IH.
  - destruct (i - s >=? messageCountLimit); [|apply IH; exact Hcm].
    destruct (overLimit (cm ++ [Change command (stringifySlice lst s i) s i])) eqn:Hp.
    + replace (cm ++ Change command (stringifySlice lst s i) s i :: _)
        with ((cm ++ [Change command (stringifySlice lst s i) s i])
              ++ changeRuns stringifySlice lst cachedList command listEnd rest (Some i))
        by (rewrite <- app_assoc; reflexivity).
      rewrite overLimit_app by done. reflexivity.
    + specialize (IH (cm ++ [Change command (stringifySlice lst s i) s i]) (Some i) Hp).
      simpl in IH. rewrite <- app_assoc in IH. exact IH.
Qed.

Lemma fillMessageForItem_runs (cm : list (@WorldMapMessage V)) lst cachedList command listStart listEnd :
  let all := cm ++ itemChanges stringifySlice lst cachedList command listStart listEnd in
  overLimit cm = false ->
  if overLimit all
  then snd (fillMessageForItem stringifySlice cm lst cachedList command listStart listEnd) = false
  else fillMessageForItem stringifySlice cm lst cachedList command listStart listEnd = (all, true).
Proof. apply fillLoop_runs. Qed.

Lemma wholeChanges_within (c n : @WorldMapData V) :
  overLimit (wholeChange stringify CmdWarnings warnings c n
             ++ wholeChange stringify CmdContinents continents c n
             ++ wholeChange stringify CmdTerrains terrains c n) = false.
Proof.
  unfold wholeChange.
  destruct (isEqual _ _), (isEqual _ _), (isEqual _ _); reflexivity.
Qed.

(** Within the limit, and with the scalar fields unchanged, the queued
    messages are posted in order between the two progress texts. *)
Lemma sendDifferences_within_limit (cachedWorldMap worldMap : @WorldMapData V) :
  scalarsDiffer cachedWorldMap worldMap = false ->
  Z.of_nat (length (allChanges stringify stringifySlice cachedWorldMap worldMap))
  <= changeMessagesCountLimit ->
  sendDifferences stringify stringifySlice cachedWorldMap worldMap
  = ([Progress "Comparing changes..."] ++ [Progress "Applying changes..."]
     ++ allChanges stringify stringifySlice cachedWorldMap worldMap ++ [Progress ""],
     true).
Proof.
  intros Hscalars Hwithin. unfold sendDifferences. rewrite Hscalars.
  set (m0 := wholeChange stringify CmdWarnings warnings cachedWorldMap worldMap ++ _).
  pose proof (wholeChanges_within cachedWorldMap worldMap) as H0. fold m0 in H0.
  set (ps := itemChanges stringifySlice (provinces worldMap) (provinces cachedWorldMap)
               CmdProvinces (badProvincesCount worldMap) (provincesCount worldMap)).
  set (ss := itemChanges stringifySlice (states worldMap) (states cachedWorldMap)
               CmdStates (badStatesCount worldMap) (statesCount worldMap)).
  set (cs := itemChanges stringifySlice (countries worldMap) (countries cachedWorldMap)
               CmdCountries 0 (countriesCount worldMap)).
  assert (Hall : allChanges stringify stringifySlice cachedWorldMap worldMap
                 = ((m0 ++ ps) ++ ss) ++ cs).
  { unfold allChanges, m0, ps, ss, cs. by rewrite <- !app_assoc. }
  rewrite Hall in Hwithin. rewrite !length_app in Hwithin.
  assert (O1 : overLimit (m0 ++ ps) = false).
  { unfold overLimit. rewrite Z.gtb_ltb. apply Z.ltb_ge. rewrite length_app. lia. }
  assert (O2 : overLimit ((m0 ++ ps) ++ ss) = false).
  { unfold overLimit. rewrite Z.gtb_ltb. apply Z.ltb_ge. rewrite !length_app. lia. }
  assert (O3 : overLimit (((m0 ++ ps) ++ ss) ++ cs) = false).
  { unfold overLimit. rewrite Z.gtb_ltb. apply Z.ltb_ge. rewrite !length_app. lia. }
  pose proof (fillMessageForItem_runs m0 (provinces worldMap) (provinces cachedWorldMap)
                CmdProvinces (badProvincesCount worldMap) (provincesCount worldMap) H0) as H1.
  simpl in H1. fold ps in H1. rewrite O1 in H1. rewrite H1. simpl.
  pose proof (fillMessageForItem_runs (m0 ++ ps) (states worldMap) (states cachedWorldMap)
                CmdStates (badStatesCount worldMap) (statesCount worldMap) O1) as H2.
  simpl in H2. fold ss in H2. rewrite O2 in H2. rewrite H2. simpl.
  pose proof (fillMessageForItem_runs ((m0 ++ ps) ++ ss) (countries worldMap)
                (countries cachedWorldMap) CmdCountries 0 (countriesCount worldMap) O2) as H3.
  simpl in H3. fold cs in H3. rewrite O3 in H3. rewrite H3. simpl.
  by rewrite Hall.
Qed.

(** C2. When the comparison of two snapshots queues more than 30 change
    messages, [sendDifferences] returns false having posted nothing but its
    progress text, and a refresh that is not forced then posts that text and
    one [provincemapsummary]: no change message reaches the webview. *)
Theorem sendDifferences_abandons_over_limit (cachedWorldMap worldMap : @WorldMapData V) :
  changeMessagesCountLimit
  < Z.of_nat (length (allChanges stringify stringifySlice cachedWorldMap worldMap)) ->
  sendDifferences stringify stringifySlice cachedWorldMap worldMap
  = ([Progress "Comparing changes..."], false)
  /\ sendProvinceMapSummaryToWebview stringify stringifySlice undefinedValue
       (Some cachedWorldMap) false (Returned worldMap)
     = (Some worldMap,
        [Progress "Comparing changes...";
         ProvinceMapSummary (summaryOf undefinedValue worldMap)]).
Proof.
  intros Hover.
  assert (Hsend : sendDifferences stringify stringifySlice cachedWorldMap worldMap
                  = ([Progress "Comparing changes..."], false)).
  { unfold sendDifferences.
    destruct (scalarsDiffer cachedWorldMap worldMap); [reflexivity|].
    set (m0 := wholeChange stringify CmdWarnings warnings cachedWorldMap worldMap ++ _).
    pose proof (wholeChanges_within cachedWorldMap worldMap) as H0. fold m0 in H0.
    pose proof (fillMessageForItem_runs m0 (provinces worldMap) (provinces cachedWorldMap)
                  CmdProvinces (badProvincesCount worldMap) (provincesCount worldMap) H0) as H1.
    simpl in H1.
    destruct (fillMessageForItem stringifySlice m0 _ _ CmdProvinces _ _) as [m1 ok1].
    destruct (overLimit (m0 ++ _)) eqn:O1 in H1; simpl in H1; [subst ok1; reflexivity|].
    inversion H1; subst m1 ok1; clear H1. simpl.
    pose proof (fillMessageForItem_runs _ (states worldMap) (states cachedWorldMap)
                  CmdStates (badStatesCount worldMap) (statesCount worldMap) O1) as H2.
    simpl in H2.
    destruct (fillMessageForItem stringifySlice _ _ _ CmdStates _ _) as [m2 ok2].
    destruct (overLimit ((m0 ++ _) ++ _)) eqn:O2 in H2; simpl in H2; [subst ok2; reflexivity|].
    inversion H2; subst m2 ok2; clear H2. simpl.
    pose proof (fillMessageForItem_runs _ (countries worldMap) (countries cachedWorldMap)
                  CmdCountries 0 (countriesCount worldMap) O2) as H3.
    simpl in H3.
    destruct (fillMessageForItem stringifySlice _ _ _ CmdCountries _ _) as [m3 ok3].
    assert (O3 : overLimit (((m0 ++ itemChanges stringifySlice (provinces worldMap)
                     (provinces cachedWorldMap) CmdProvinces (badProvincesCount worldMap)
                     (provincesCount worldMap))
                   ++ itemChanges stringifySlice (states worldMap) (states cachedWorldMap)
                        CmdStates (badStatesCount worldMap) (statesCount worldMap))
                  ++ itemChanges stringifySlice (countries worldMap) (countries cachedWorldMap)
                       CmdCountries 0 (countriesCount worldMap)) = true).
    { unfold overLimit. apply Z.gtb_lt.
      unfold allChanges in Hover. unfold m0.
      rewrite <- !app_assoc. exact Hover. }
    rewrite O3 in H3. simpl in H3. subst ok3. reflexivity. }
  split; [exact Hsend|].
  unfold sendProvinceMapSummaryToWebview. rewrite Hsend. reflexivity.
Qed.

End Diff.

Lemma sendDifferences_abandons_over_limit_witness :
  WorldMapSession.changeMessagesCountLimit
  < Z.of_nat (length (WorldMapSession.allChanges noJson noJsonSlice
                        cachedSnapshot changedSnapshot))
  /\ WorldMapSession.sendDifferences noJson noJsonSlice cachedSnapshot changedSnapshot
     = ([WorldMapSession.Progress "Comparing changes..."], false)
  /\ WorldMapSession.sendProvinceMapSummaryToWebview noJson noJsonSlice 0
       (Some cachedSnapshot) false (Returned changedSnapshot)
     = (Some changedSnapshot,
        [WorldMapSession.Progress "Comparing changes...";
         WorldMapSession.ProvinceMapSummary
           (WorldMapSession.summaryOf 0 changedSnapshot)]).
Proof.
  split; [vm_compute; reflexivity|].
  apply (sendDifferences_abandons_over_limit noJson noJsonSlice 0
           cachedSnapshot changedSnapshot).
  vm_compute. reflexivity.
Defined.

(** The sample snapshots differ in 31 separate provinces and in nothing
    else: the unbounded comparison queues 31 messages, all for provinces. *)
Example thirty_one_runs :
  length (WorldMapSession.allChanges noJson noJsonSlice cachedSnapshot changedSnapshot)
  = 31%nat
  /\ WorldMapSession.allChanges noJson noJsonSlice cachedSnapshot changedSnapshot
     = map (fun i => WorldMapSession.Change WorldMapSession.CmdProvinces "" i (i + 1))
         (map (fun k => 2 * k + 1) (seqZ 0 31)).
Proof. split; vm_compute; reflexivity. Qed.

(** ** Cylindrical merge of two bounding boxes *)

Section CylindricalMerge.
Import Common.

Lemma narrower_le a b best d :
  zw (placedUnion a b (narrower a b best d)) <= zw (placedUnion a b best)
  /\ zw (placedUnion a b (narrower a b best d)) <= zw (placedUnion a b d).
Proof.
  unfold narrower.
  destruct (Z.ltb_spec (zw (placedUnion a b d)) (zw (placedUnion a b best)));
    cbv iota; lia.
Qed.

Lemma bestFold_le a b l : forall best,
  zw (placedUnion a b (fold_left (narrower a b) l best)) <= zw (placedUnion a b best)
  /\ Forall (fun d => zw (placedUnion a b (fold_left (narrower a b) l best))
                      <= zw (placedUnion a b d)) l.
Proof.
  induction l as [|d l IH]; intros best; cbn [fold_left]; [split; [lia|constructor]|].
  destruct (IH (narrower a b best d)) as [H1 H2].
  destruct (narrower_le a b best d) as [H3 H4].
  split; [lia|]. constructor; [lia|exact H2].
Qed.

(** C6. The merged box is no wider than the union under any of the three
    placements on the cylinder, the union without wraparound among them; on
    a map of width 100 the boxes at x=95 of width 10 and at x=2 of width 3
    merge into a box of width 10, within 12, where the union without
    wraparound is 103 wide. *)
Theorem mergeBoundingBox_shorter_span :
  (forall a b width,
     zw (mergeBoundingBox a b width) <= zw (naiveUnion a b)
     /\ Forall (fun d => zw (mergeBoundingBox a b width) <= zw (placedUnion a b d))
          (placements width))
  /\ mergeBoundingBox (mkZone 95 0 10 1) (mkZone 2 0 3 1) 100 = mkZone (-5) 0 10 1
  /\ zw (mergeBoundingBox (mkZone 95 0 10 1) (mkZone 2 0 3 1) 100) <= 12
  /\ zw (naiveUnion (mkZone 95 0 10 1) (mkZone 2 0 3 1)) = 103.
Proof.
  split; [|split; [reflexivity|split; [by_compute|reflexivity]]].
  intros a b width. unfold mergeBoundingBox, bestPlacement.
  destruct (bestFold_le a b (placements width) (0, 0)) as [H1 H2].
  split; [|exact H2].
  etransitivity; [exact H1|]. unfold placedUnion, naiveUnion, shiftX, unionBox. simpl.
  destruct a, b; simpl. rewrite !Z.add_0_r. lia.
Qed.

End CylindricalMerge.

(** ** Upstream changes force a reload *)

Section Reload.
Import Loaders.

(** C8. When [shouldReload] of the default-map loader gives true, so does
    [shouldReload] of the states loader, of the strategic-regions loader and
    of the supply-areas loader, whatever their own folders report. *)
Theorem upstream_reload_propagates (folderShouldReload : string -> bool)
    (defaultMapShouldReload : bool) :
  defaultMapShouldReload = true ->
  StatesLoader_shouldReload folderShouldReload defaultMapShouldReload = true
  /\ StrategicRegionsLoader_shouldReload folderShouldReload defaultMapShouldReload = true
  /\ SupplyAreasLoader_shouldReloadImpl folderShouldReload defaultMapShouldReload = true
  /\ SupplyAreasLoader_shouldReload folderShouldReload defaultMapShouldReload = true.
Proof.
  intros ->.
  unfold SupplyAreasLoader_shouldReload, SupplyAreasLoader_shouldReloadImpl,
    StrategicRegionsLoader_shouldReload, StatesLoader_shouldReload.
  rewrite !orb_true_r. simpl. auto.
Qed.

Lemma upstream_reload_propagates_witness :
  StatesLoader_shouldReload (fun _ => false) true = true
  /\ StrategicRegionsLoader_shouldReload (fun _ => false) true = true
  /\ SupplyAreasLoader_shouldReloadImpl (fun _ => false) true = true
  /\ SupplyAreasLoader_shouldReload (fun _ => false) true = true.
Proof. apply (upstream_reload_propagates (fun _ => false) true). reflexivity. Defined.

(** Without an upstream change and without a change of their own the three
    loaders do not reload. *)
Example nothing_to_reload :
  StatesLoader_shouldReload (fun _ => false) false = false
  /\ StrategicRegionsLoader_shouldReload (fun _ => false) false = false
  /\ SupplyAreasLoader_shouldReload (fun _ => false) false = false.
Proof. repeat split. Qed.

End Reload.

(** ** Shape of the array [sortStates] returns *)

Section ReconciliationShape.
Import StatesInline.

Lemma place_indexed st p :
  map_Forall (fun i s => stateId s = i) (result st) ->
  map_Forall (fun i s => stateId s = i) (result (place st p)).
Proof.
  intros H. unfold place.
  destruct (stateId p =? -1); simpl;
    match goal with |- context [result st !! ?k] => destruct (result st !! k) end;
    simpl; apply map_Forall_insert_2; auto.
Qed.

Lemma placeAll_indexed l : forall st,
  map_Forall (fun i s => stateId s = i) (result st) ->
  map_Forall (fun i s => stateId s = i) (result (placeAll l st)).
Proof.
  induction l as [|p l IH]; intros st H; simpl; [done|].
  apply IH, place_indexed, H.
Qed.

(** X1. Every record of the array [sortStates] returns sits at the index
    that is its id, whether it kept the id it was read with or was given a
    synthetic one. *)
Theorem sortStates_indexed_by_id (states : list StateNoBoundingBox)
    (ws : list Warning) (sorted : Sorted) :
  sortStates states ws = Returned sorted ->
  forall i s, items (sortedStates sorted) !! i = Some s -> stateId s = i.
Proof.
  unfold sortStates. destruct (maxStateId states >? 10000); [done|].
  intros [= <-] i s. simpl.
  apply (placeAll_indexed states (mkPlacement ∅ (-1) ws)).
  apply map_Forall_empty.
Qed.

Lemma sortStates_indexed_by_id_witness :
  exists sorted,
    sortStates [rawState 1 "a.txt" []; rawState 1 "b.txt" []] [] = Returned sorted
    /\ forall i s, items (sortedStates sorted) !! i = Some s -> stateId s = i.
Proof.
  eexists. split; [reflexivity|].
  apply (sortStates_indexed_by_id [rawState 1 "a.txt" []; rawState 1 "b.txt" []] []).
  reflexivity.
Defined.

Lemma maxFold_bound l : forall m p,
  In p l -> stateId p <= fold_left (fun p c => if stateId c >? p then stateId c else p) l m.
Proof.
  induction l as [|q l IH]; intros m p; simpl; [done|].
  intros [->|Hin]; [|by apply IH].
  etransitivity; [|apply maxFold_ge].
  destruct (Z.gtb_spec (stateId p) m); lia.
Qed.

(** X2. [sortStates] throws exactly when some record of the raw list has an
    id above 10000; otherwise it returns. *)
Theorem sortStates_throws_iff (states : list StateNoBoundingBox) (ws : list Warning) :
  (exists m, sortStates states ws = Thrown m)
  <-> Exists (fun p => 10000 < stateId p) states.
Proof.
  unfold sortStates. rewrite Exists_exists.
  destruct (Z.gtb_spec (maxStateId states) 10000) as [Hgt|Hle]; split.
  - intros _. unfold maxStateId in Hgt.
    destruct (maxFold_attained states 0) as [E|(p & Hin & E)]; [lia|].
    exists p. split; [by apply list_elem_of_In|]. unfold maxStateId in *. lia.
  - intros _. eauto.
  - intros [m Hm]. done.
  - intros (p & Hin & Hp). apply list_elem_of_In in Hin.
    pose proof (maxFold_bound states 0 p Hin). unfold maxStateId in Hle. lia.
Qed.


Lemma withStateId_own p : withStateId p (stateId p) = p.
Proof. by destruct p. Qed.

(** What [place] does to a record whose id is -1 or positive while nothing
    lies at or below the counter: it writes the record, under the index as
    its id, to a slot that was empty, and that slot stays above the counter. *)
Lemma place_fresh st p :
  badStateId st < 0 ->
  (forall k, k <= badStateId st -> result st !! k = None) ->
  stateId p = -1 \/ 0 < stateId p ->
  exists i,
    result st !! i = None
    /\ result (place st p) = <[i := withStateId p i]> (result st)
    /\ badStateId (place st p) < i
    /\ (forall k, k <= badStateId (place st p) -> result (place st p) !! k = None).
Proof.
  intros Hb Hfresh Hp.
  destruct (decide (stateId p = -1)) as [Hs|Hs].
  - rewrite (place_sentinel st p Hs) by (apply Hfresh; lia). simpl.
    exists (badStateId st). split; [apply Hfresh; lia|]. split; [done|].
    split; [lia|]. intros k Hk. rewrite lookup_insert_ne by lia. apply Hfresh. lia.
  - assert (Hpos : 0 < stateId p) by (destruct Hp; [done|lia]).
    destruct (result st !! stateId p) as [a|] eqn:Ha.
    + rewrite (place_conflict st p a Hs Ha). simpl.
      exists (badStateId st). split; [apply Hfresh; lia|]. split; [done|].
      split; [lia|]. intros k Hk. rewrite lookup_insert_ne by lia. apply Hfresh. lia.
    + rewrite (place_first st p Hs Ha). simpl.
      exists (stateId p). split; [done|]. rewrite withStateId_own. split; [done|].
      split; [lia|]. intros k Hk. rewrite lookup_insert_ne by lia. by apply Hfresh.
Qed.

Lemma placeAll_fresh l : forall st,
  badStateId st < 0 ->
  (forall k, k <= badStateId st -> result st !! k = None) ->
  Forall (fun x => stateId x = -1 \/ 0 < stateId x) l ->
  size (result (placeAll l st)) = (size (result st) + length l)%nat
  /\ forall p, p ∈ l ->
       exists i, result (placeAll l st) !! i = Some (withStateId p i).
Proof.
  induction l as [|q l IH]; intros st Hb Hfresh Hl; simpl.
  { split; [lia|]. intros p Hp. by apply elem_of_nil in Hp. }
  inversion Hl as [|? ? Hq Hl']; subst.
  destruct (place_fresh st q Hb Hfresh Hq) as (i & Hi & Er & Hlt & Hfresh').
  assert (Hb' : badStateId (place st q) < 0) by (pose proof (place_bad_le st q); lia).
  destruct (IH (place st q) Hb' Hfresh' Hl') as [Hsize Hall].
  split.
  - rewrite Hsize, Er, map_size_insert_None by done. lia.
  - intros p [->|Hp]%elem_of_cons; [|by apply Hall].
    exists i. apply placeAll_keeps; [done|]. rewrite Er. apply lookup_insert_eq.
Qed.

(** X3. When every raw id is -1 or positive, [sortStates] loses no record:
    the array holds as many records as the raw list, and each raw record is
    found at some index, with that index as its id. *)
Theorem sortStates_keeps_every_record (states : list StateNoBoundingBox)
    (ws : list Warning) (sorted : Sorted) :
  Forall (fun x => stateId x = -1 \/ 0 < stateId x) states ->
  sortStates states ws = Returned sorted ->
  size (items (sortedStates sorted)) = length states
  /\ forall p, p ∈ states ->
       exists i, items (sortedStates sorted) !! i = Some (withStateId p i).
Proof.
  intros Hall. unfold sortStates. destruct (maxStateId states >? 10000); [done|].
  intros [= <-]. simpl.
  destruct (placeAll_fresh states (mkPlacement ∅ (-1) ws)) as [Hsize Hin];
    simpl; [lia|intros; apply lookup_empty|done|].
  simpl in Hsize. rewrite map_size_empty in Hsize. auto.
Qed.

Lemma sortStates_keeps_every_record_witness :
  exists sorted,
    sortStates [rawState 5 "b.txt" []; rawState (-1) "c.txt" []; rawState 5 "d.txt" []] []
    = Returned sorted
    /\ size (items (sortedStates sorted)) = 3%nat
    /\ forall p, p ∈ [rawState 5 "b.txt" []; rawState (-1) "c.txt" []; rawState 5 "d.txt" []] ->
         exists i, items (sortedStates sorted) !! i = Some (withStateId p i).
Proof.
  eexists. split; [reflexivity|].
  apply (sortStates_keeps_every_record
           [rawState 5 "b.txt" []; rawState (-1) "c.txt" []; rawState 5 "d.txt" []] []).
  - by_compute.
  - reflexivity.
Defined.

(** A raw id below -1 is outside the hypothesis: the third record claiming
    the id 5 is written over the record that came with the id -2. *)
Example negative_id_record_overwritten :
  (size <$> (match sortStates crowdedStates [] with
             | Returned sorted => Some (items (sortedStates sorted))
             | Thrown _ => None
             end)) = Some 3%nat.
Proof. vm_compute. reflexivity. Qed.

Lemma place_zero_free st p :
  badStateId st < 0 -> stateId p <> 0 ->
  result st !! 0 = None -> result (place st p) !! 0 = None.
Proof.
  intros Hb Hp Hn. unfold place.
  destruct (stateId p =? -1); simpl;
    match goal with |- context [result st !! ?k] => destruct (result st !! k) end;
    simpl; rewrite lookup_insert_ne; auto; lia.
Qed.

Lemma placeAll_zero_free l : forall st,
  badStateId st < 0 -> Forall (fun p => stateId p <> 0) l ->
  result st !! 0 = None -> result (placeAll l st) !! 0 = None.
Proof.
  induction l as [|p l IH]; intros st Hb Hl Hn; simpl; [done|].
  inversion Hl; subst. apply IH; auto.
  - pose proof (place_bad_le st p); lia.
  - by apply place_zero_free.
Qed.

Lemma loadedId_nonzero d : loadedId d <> 0.
Proof.
  unfold loadedId. destruct (defId d) as [i|]; [|done].
  destruct (Z.eqb_spec i 0); lia.
Qed.

Lemma loadedStates_nonzero files : Forall (fun p => stateId p <> 0) (loadedStates files).
Proof.
  unfold loadedStates. apply Forall_forall. intros p Hp.
  apply list_elem_of_In, in_flat_map in Hp as ([file defs] & _ & Hp).
  simpl in Hp. apply in_map_iff in Hp as (d & <- & _).
  apply loadedId_nonzero.
Qed.

(** X4. No record read by [loadState] ends up at index 0: an id of 0 is
    read as missing and becomes -1, and synthetic ids are negative. *)
Theorem loaded_states_leave_index_zero_empty
    (files : list (string * list StateDefinition)) (ws : list Warning) (sorted : Sorted) :
  sortStates (loadedStates files) ws = Returned sorted ->
  items (sortedStates sorted) !! 0 = None.
Proof.
  unfold sortStates. destruct (maxStateId (loadedStates files) >? 10000); [done|].
  intros [= <-]. simpl.
  apply placeAll_zero_free; simpl; [lia|apply loadedStates_nonzero|apply lookup_empty].
Qed.

Lemma loaded_states_leave_index_zero_empty_witness :
  exists sorted,
    sortStates (loadedStates [("a.txt", [mkStateDefinition (Some 0) None None None None [] [] None []])]) []
    = Returned sorted
    /\ items (sortedStates sorted) !! 0 = None.
Proof.
  eexists. split; [reflexivity|].
  apply (loaded_states_leave_index_zero_empty
           [("a.txt", [mkStateDefinition (Some 0) None None None None [] [] None []])] []).
  reflexivity.
Defined.

End ReconciliationShape.

Section BadBlock.
Import StatesInline.

(** Where [place] writes a record whose id is -1 or positive: at the counter,
    which then moves down by one, or at the record's positive id. *)
Lemma place_slot st p :
  badStateId st < 0 ->
  (forall k, k <= badStateId st -> result st !! k = None) ->
  stateId p = -1 \/ 0 < stateId p ->
  exists i,
    result (place st p) = <[i := withStateId p i]> (result st)
    /\ ((i = badStateId st /\ badStateId (place st p) = badStateId st - 1)
        \/ (0 < i /\ badStateId (place st p) = badStateId st)).
Proof.
  intros Hb Hfresh Hp.
  destruct (decide (stateId p = -1)) as [Hs|Hs].
  - rewrite (place_sentinel st p Hs) by (apply Hfresh; lia). simpl.
    exists (badStateId st). auto.
  - assert (Hpos : 0 < stateId p) by (destruct Hp; [done|lia]).
    destruct (result st !! stateId p) as [a|] eqn:Ha.
    + rewrite (place_conflict st p a Hs Ha). simpl. exists (badStateId st). auto.
    + rewrite (place_first st p Hs Ha). simpl.
      exists (stateId p). rewrite withStateId_own. auto.
Qed.

Lemma placeAll_block l : forall st,
  badStateId st < 0 ->
  (forall k, k < 0 -> is_Some (result st !! k) <-> badStateId st < k) ->
  Forall (fun x => stateId x = -1 \/ 0 < stateId x) l ->
  forall k, k < 0 ->
    is_Some (result (placeAll l st) !! k) <-> badStateId (placeAll l st) < k.
Proof.
  induction l as [|p l IH]; intros st Hb Hblock Hl; simpl; [done|].
  inversion Hl as [|? ? Hp Hl']; subst.
  assert (Hfresh : forall k, k <= badStateId st -> result st !! k = None).
  { intros k Hk. destruct (result st !! k) eqn:E; [|done].
    exfalso. assert (badStateId st < k); [|lia]. apply Hblock; [lia|eauto]. }
  destruct (place_slot st p Hb Hfresh Hp) as (i & Er & Hi).
  apply IH; [pose proof (place_bad_le st p); lia| |done].
  intros k Hk. rewrite Er.
  destruct Hi as [[-> ->]|[Hpos ->]].
  - destruct (decide (k = badStateId st)) as [->|Hne].
    + rewrite lookup_insert_eq. split; [lia|eauto].
    + rewrite lookup_insert_ne by done. rewrite Hblock by done. lia.
  - rewrite lookup_insert_ne by lia. by apply Hblock.
Qed.

(** X5. When every raw id is -1 or positive, the records [sortStates]
    places at negative indices fill the block from -1 down to
    [badStateId + 1] without a hole, and nothing lies at or below
    [badStateId]: the loops of [mergeFiles], which start at [badStateId + 1],
    visit every record that got a synthetic id. *)
Theorem synthetic_ids_fill_a_block (states : list StateNoBoundingBox)
    (ws : list Warning) (sorted : Sorted) :
  Forall (fun x => stateId x = -1 \/ 0 < stateId x) states ->
  sortStates states ws = Returned sorted ->
  forall k, k < 0 ->
    is_Some (items (sortedStates sorted) !! k) <-> sortedBadStateId sorted < k.
Proof.
  intros Hall. unfold sortStates. destruct (maxStateId states >? 10000); [done|].
  intros [= <-]. simpl.
  apply placeAll_block; simpl; [lia| |done].
  intros k Hk. rewrite lookup_empty. split; [intros [? ?]; done|lia].
Qed.

End BadBlock.

Lemma synthetic_ids_fill_a_block_witness :
  exists sorted,
    StatesInline.sortStates
      [rawState 5 "b.txt" []; rawState (-1) "c.txt" []; rawState 5 "d.txt" []] []
    = Returned sorted
    /\ forall k, k < 0 ->
         is_Some (items (StatesInline.sortedStates sorted) !! k)
         <-> StatesInline.sortedBadStateId sorted < k.
Proof.
  eexists. split; [reflexivity|].
  apply (synthetic_ids_fill_a_block
           [rawState 5 "b.txt" []; rawState (-1) "c.txt" []; rawState 5 "d.txt" []] []).
  - by_compute.
  - reflexivity.
Defined.

(** ** What the change messages cover *)

Section DiffMore.
Import WorldMapSession.

Context {V : Type} `{EqDecision V}.
Variable stringify : V -> string.
Variable stringifySlice : (Z -> V) -> Z -> Z -> string.
Variable undefinedValue : V.

Lemma changeRuns_unchanged (lst cachedList : Z -> V) command listEnd indices :
  Forall (fun i => i = listEnd \/ lst i = cachedList i) indices ->
  changeRuns stringifySlice lst cachedList command listEnd indices None = [].
Proof.
  induction 1 as [|i rest Hi _ IH]; simpl; [done|].
  replace ((i =? listEnd) || isEqual (lst i) (cachedList i)) with true; [exact IH|].
  symmetry. apply orb_true_iff. destruct Hi as [->|Hi].
  - left. apply Z.eqb_refl.
  - right. unfold isEqual. by apply bool_decide_eq_true_2.
Qed.

Lemma itemChanges_unchanged (lst cachedList : Z -> V) command listStart listEnd :
  (forall i, listStart <= i < listEnd -> lst i = cachedList i) ->
  itemChanges stringifySlice lst cachedList command listStart listEnd = [].
Proof.
  intros Hsame. apply changeRuns_unchanged, Forall_forall.
  intros i Hi%elem_of_seqZ.
  destruct (decide (i = listEnd)); [by left|]. right. apply Hsame. lia.
Qed.

(** The runs the loop of [fillMessageForItem] queues from the index [i] on,
    [n] indices being left up to [listEnd]. *)
Lemma changeRuns_cover (lst cachedList : Z -> V) command listStart listEnd (n : nat) :
  forall i last,
  i + Z.of_nat n = listEnd + 1 ->
  listStart <= i ->
  (n = O -> last = None) ->
  (forall s, last = Some s ->
     listStart <= s /\ s < i /\ i - s <= messageCountLimit /\ lst s <> cachedList s) ->
  let runs := changeRuns stringifySlice lst cachedList command listEnd
                (seqZ i (Z.of_nat n)) last in
  Forall (isRunOf stringifySlice lst cachedList command listStart listEnd) runs
  /\ forall j, (i <= j < listEnd /\ lst j <> cachedList j)
               \/ (exists s, last = Some s /\ s <= j < i) ->
       Exists (covers j) runs.
Proof.
  unfold messageCountLimit.
  induction n as [|n IH]; intros i last Hn Hlo Hnone Hlast; simpl.
  { split; [constructor|]. intros j [[Hj _]|(s & Hs & _)]; [lia|].
    rewrite (Hnone eq_refl) in Hs. done. }
  rewrite seqZ_cons by lia. simpl.
  replace (Z.pred (Z.of_nat (S n))) with (Z.of_nat n) by lia.
  assert (Hrun : forall s, last = Some s ->
            isRunOf stringifySlice lst cachedList command listStart listEnd
              (Change command (stringifySlice lst s i) s i)).
  { intros s Hs. destruct (Hlast s Hs) as (? & ? & ? & ?).
    exists s, i. unfold messageCountLimit. repeat split; auto; lia. }
  destruct (Z.eqb_spec i listEnd) as [Hend|Hend]; simpl.
  - (* the closing index *)
    assert (n = O) by lia. subst n. simpl.
    destruct last as [s|]; simpl.
    + split; [repeat constructor; by apply Hrun|].
      intros j [[Hj _]|(s' & [= <-] & Hj)]; [lia|].
      apply Exists_cons_hd. simpl. lia.
    + split; [constructor|]. intros j [[Hj _]|(s' & Hs & _)]; [lia|done].
  - unfold isEqual. destruct (decide (lst i = cachedList i)) as [Heq|Hne].
    + rewrite bool_decide_eq_true_2 by done.
      destruct (IH (Z.succ i) None) as [Hruns Hcov]; [lia|lia|done|done|].
      destruct last as [s|].
      * split; [constructor; [by apply Hrun|exact Hruns]|].
        intros j [[Hj Hd]|(s' & [= <-] & Hj)].
        -- apply Exists_cons_tl, Hcov. left. split; [|done].
           destruct (decide (j = i)) as [->|]; [done|lia].
        -- apply Exists_cons_hd. simpl. lia.
      * split; [exact Hruns|].
        intros j [[Hj Hd]|(s' & Hs & _)]; [|done].
        apply Hcov. left. split; [|done].
        destruct (decide (j = i)) as [->|]; [done|lia].
    + rewrite bool_decide_eq_false_2 by done.
      destruct last as [s|].
      * destruct (Hlast s eq_refl) as (Hs1 & Hs2 & Hs3 & Hs4).
        destruct (Z.geb_spec (i - s) messageCountLimit) as [Hfull|Hroom]; unfold messageCountLimit in *.
        -- destruct (IH (Z.succ i) (Some i)) as [Hruns Hcov]; [lia|lia|intros ->; lia| |].
           { intros ? [= <-]. repeat split; auto; lia. }
           split; [constructor; [by apply Hrun|exact Hruns]|].
           intros j [[Hj Hd]|(s' & [= <-] & Hj)].
           ++ apply Exists_cons_tl, Hcov.
              destruct (decide (j = i)) as [->|]; [right; exists i; split; [done|lia]|].
              left. split; [lia|done].
           ++ apply Exists_cons_hd. simpl. lia.
        -- destruct (IH (Z.succ i) (Some s)) as [Hruns Hcov]; [lia|lia|intros ->; lia| |].
           { intros ? [= <-]. repeat split; auto; lia. }
           split; [exact Hruns|].
           intros j [[Hj Hd]|(s' & [= <-] & Hj)].
           ++ apply Hcov.
              destruct (decide (j = i)) as [->|]; [right; exists s; split; [done|lia]|].
              left. split; [lia|done].
           ++ apply Hcov. right. exists s. split; [done|lia].
      * destruct (IH (Z.succ i) (Some i)) as [Hruns Hcov]; [lia|lia|intros ->; lia| |].
        { intros ? [= <-]. repeat split; auto; lia. }
        split; [exact Hruns|].
        intros j [[Hj Hd]|(s' & Hs & _)]; [|done].
        apply Hcov.
        destruct (decide (j = i)) as [->|]; [right; exists i; split; [done|lia]|].
        left. split; [lia|done].
Qed.

(** X6. When [fillMessageForItem] returns true, the messages it has added
    are range messages of [command] inside [listStart, listEnd], each starting
    at a changed item, not empty and at most 300 items long, carrying the
    slice of its range; and every changed item of [listStart, listEnd) lies in
    the range of one of them. *)
Theorem fillMessageForItem_covers_changes
    (changeMessages out : list (@WorldMapMessage V)) (lst cachedList : Z -> V)
    (command : Command) (listStart listEnd : Z) :
  overLimit changeMessages = false ->
  fillMessageForItem stringifySlice changeMessages lst cachedList command
    listStart listEnd = (out, true) ->
  exists added,
    out = changeMessages ++ added
    /\ Forall (isRunOf stringifySlice lst cachedList command listStart listEnd) added
    /\ forall j, listStart <= j < listEnd -> lst j <> cachedList j ->
         Exists (covers j) added.
Proof.
  intros Hcm Hfill.
  pose proof (fillMessageForItem_runs stringifySlice changeMessages lst cachedList
                command listStart listEnd Hcm) as Hruns.
  simpl in Hruns. rewrite Hfill in Hruns.
  match type of Hruns with (if ?b then _ else _) => destruct b end; [done|].
  injection Hruns as ->.
  exists (itemChanges stringifySlice lst cachedList command listStart listEnd).
  split; [done|]. unfold itemChanges.
  destruct (Z_le_gt_dec listStart listEnd) as [Hle|Hgt].
  - destruct (changeRuns_cover lst cachedList command listStart listEnd
                (Z.to_nat (listEnd - listStart + 1)) listStart None)
      as [Hall Hcov]; [lia|lia|lia|done|].
    rewrite Z2Nat.id in Hall, Hcov by lia.
    split; [exact Hall|]. intros j Hj Hd. apply Hcov. left. split; [lia|done].
  - rewrite seqZ_nil by lia. simpl. split; [constructor|]. intros; lia.
Qed.


(** X7. [sendDifferences] gives up, posting its first progress text only,
    exactly when one of the seven scalar fields differs or the comparison
    queues more than 30 messages; otherwise it posts every queued message, in
    order, between the two other progress texts and returns true. *)
Theorem sendDifferences_decides (cachedWorldMap worldMap : @WorldMapData V) :
  sendDifferences stringify stringifySlice cachedWorldMap worldMap
  = if scalarsDiffer cachedWorldMap worldMap
       || (changeMessagesCountLimit
           <? Z.of_nat (length (allChanges stringify stringifySlice cachedWorldMap worldMap)))
    then ([Progress "Comparing changes..."], false)
    else ([Progress "Comparing changes..."] ++ [Progress "Applying changes..."]
          ++ allChanges stringify stringifySlice cachedWorldMap worldMap ++ [Progress ""],
          true).
Proof.
  destruct (scalarsDiffer cachedWorldMap worldMap) eqn:Hscalars; simpl.
  { unfold sendDifferences. by rewrite Hscalars. }
  destruct (Z.ltb_spec changeMessagesCountLimit
              (Z.of_nat (length (allChanges stringify stringifySlice cachedWorldMap worldMap))))
    as [Hover|Hwithin]; [|by apply sendDifferences_within_limit].
  unfold sendDifferences. rewrite Hscalars.
  set (m0 := wholeChange stringify CmdWarnings warnings cachedWorldMap worldMap ++ _).
  pose proof (wholeChanges_within stringify cachedWorldMap worldMap) as H0. fold m0 in H0.
  set (ps := itemChanges stringifySlice (provinces worldMap) (provinces cachedWorldMap)
               CmdProvinces (badProvincesCount worldMap) (provincesCount worldMap)).
  set (ss := itemChanges stringifySlice (states worldMap) (states cachedWorldMap)
               CmdStates (badStatesCount worldMap) (statesCount worldMap)).
  set (cs := itemChanges stringifySlice (countries worldMap) (countries cachedWorldMap)
               CmdCountries 0 (countriesCount worldMap)).
  assert (O3 : overLimit (((m0 ++ ps) ++ ss) ++ cs) = true).
  { unfold overLimit. apply Z.gtb_lt. unfold allChanges in Hover.
    unfold m0, ps, ss, cs. rewrite <- !app_assoc. exact Hover. }
  pose proof (fillMessageForItem_runs stringifySlice m0 (provinces worldMap)
                (provinces cachedWorldMap) CmdProvinces (badProvincesCount worldMap)
                (provincesCount worldMap) H0) as H1.
  simpl in H1. fold ps in H1.
  destruct (fillMessageForItem stringifySlice m0 _ _ CmdProvinces _ _) as [m1 ok1].
  destruct (overLimit (m0 ++ ps)) eqn:O1; simpl in H1; [subst ok1; reflexivity|].
  inversion H1; subst m1 ok1; clear H1. simpl.
  pose proof (fillMessageForItem_runs stringifySlice (m0 ++ ps) (states worldMap)
                (states cachedWorldMap) CmdStates (badStatesCount worldMap)
                (statesCount worldMap) O1) as H2.
  simpl in H2. fold ss in H2.
  destruct (fillMessageForItem stringifySlice _ _ _ CmdStates _ _) as [m2 ok2].
  destruct (overLimit ((m0 ++ ps) ++ ss)) eqn:O2; simpl in H2; [subst ok2; reflexivity|].
  inversion H2; subst m2 ok2; clear H2. simpl.
  pose proof (fillMessageForItem_runs stringifySlice ((m0 ++ ps) ++ ss) (countries worldMap)
                (countries cachedWorldMap) CmdCountries 0 (countriesCount worldMap) O2) as H3.
  simpl in H3. fold cs in H3. rewrite O3 in H3.
  destruct (fillMessageForItem stringifySlice _ _ _ CmdCountries _ _) as [m3 ok3].
  simpl in H3. subst ok3. reflexivity.
Qed.

(** X8. A refresh that is not forced and finds the loaded map equal to the
    cached one in the scalar fields, in warnings, continents and terrains and
    in every item below the counts posts the three progress texts and nothing
    else: no change message and no summary. *)
Theorem unchanged_snapshot_sends_no_data (cachedWorldMap worldMap : @WorldMapData V) :
  scalarsDiffer cachedWorldMap worldMap = false ->
  warnings cachedWorldMap = warnings worldMap ->
  continents cachedWorldMap = continents worldMap ->
  terrains cachedWorldMap = terrains worldMap ->
  (forall i, badProvincesCount worldMap <= i < provincesCount worldMap ->
     provinces worldMap i = provinces cachedWorldMap i) ->
  (forall i, badStatesCount worldMap <= i < statesCount worldMap ->
     states worldMap i = states cachedWorldMap i) ->
  (forall i, 0 <= i < countriesCount worldMap ->
     countries worldMap i = countries cachedWorldMap i) ->
  sendProvinceMapSummaryToWebview stringify stringifySlice undefinedValue
    (Some cachedWorldMap) false (Returned worldMap)
  = (Some worldMap,
     [Progress "Comparing changes..."; Progress "Applying changes..."; Progress ""]).
Proof.
  intros Hscalars Hw Hc Ht Hp Hs Hn.
  assert (Hnone : allChanges stringify stringifySlice cachedWorldMap worldMap = []).
  { unfold allChanges, wholeChange, isEqual.
    rewrite !bool_decide_eq_true_2 by done.
    by rewrite !itemChanges_unchanged. }
  unfold sendProvinceMapSummaryToWebview.
  rewrite sendDifferences_within_limit by (try rewrite Hnone; done).
  by rewrite Hnone.
Qed.

End DiffMore.

Lemma fillMessageForItem_covers_changes_witness :
  exists out,
    WorldMapSession.fillMessageForItem noJsonSlice [] (fun i => if Z.odd i then 1 else 0)
      (fun _ => 0) WorldMapSession.CmdProvinces 0 6 = (out, true)
    /\ exists added,
         out = [] ++ added
         /\ Forall (isRunOf noJsonSlice (fun i => if Z.odd i then 1 else 0) (fun _ => 0)
                      WorldMapSession.CmdProvinces 0 6) added
         /\ forall j, 0 <= j < 6 -> (if Z.odd j then 1 else 0) <> 0 ->
              Exists (covers j) added.
Proof.
  eexists. split; [vm_compute; reflexivity|].
  apply (fillMessageForItem_covers_changes noJsonSlice []); reflexivity.
Defined.

Lemma unchanged_snapshot_sends_no_data_witness :
  WorldMapSession.sendProvinceMapSummaryToWebview noJson noJsonSlice 0
    (Some cachedSnapshot) false (Returned cachedSnapshot)
  = (Some cachedSnapshot,
     [WorldMapSession.Progress "Comparing changes...";
      WorldMapSession.Progress "Applying changes..."; WorldMapSession.Progress ""]).
Proof.
  apply (unchanged_snapshot_sends_no_data noJson noJsonSlice 0 cachedSnapshot cachedSnapshot);
    reflexivity.
Defined.

Section DiffOrder.
Import WorldMapSession.

Context {V : Type} `{EqDecision V}.
Variable stringifySlice : (Z -> V) -> Z -> Z -> string.

Lemma startsFrom_le (bound bound' : Z) (m : @WorldMapMessage V) :
  bound <= bound' -> startsFrom bound' m -> startsFrom bound m.
Proof. destruct m; simpl; lia. Qed.

Lemma changeRuns_ascending (lst cachedList : Z -> V) command listEnd (n : nat) :
  forall i last bound,
  match last with Some s => bound <= s /\ s <= i | None => bound <= i end ->
  let runs := changeRuns stringifySlice lst cachedList command listEnd
                (seqZ i (Z.of_nat n)) last in
  StronglySorted endsBefore runs /\ Forall (startsFrom bound) runs.
Proof.
  induction n as [|n IH]; intros i last bound Hlast; simpl.
  { split; constructor. }
  rewrite seqZ_cons by lia. simpl.
  replace (Z.pred (Z.of_nat (S n))) with (Z.of_nat n) by lia.
  assert (Hpush : forall s last', last = Some s ->
            match last' with Some s' => i <= s' /\ s' <= Z.succ i | None => True end ->
            StronglySorted endsBefore
              (Change command (stringifySlice lst s i) s i
               :: changeRuns stringifySlice lst cachedList command listEnd
                    (seqZ (Z.succ i) (Z.of_nat n)) last')
            /\ Forall (startsFrom bound)
                 (Change command (stringifySlice lst s i) s i
                  :: changeRuns stringifySlice lst cachedList command listEnd
                       (seqZ (Z.succ i) (Z.of_nat n)) last')).
  { intros s last' -> Hlast'. destruct Hlast as [Hb Hs].
    destruct (IH (Z.succ i) last' i) as [Hsorted Hfrom].
    { destruct last'; [done|lia]. }
    split.
    - constructor; [done|]. eapply Forall_impl; [exact Hfrom|].
      intros m Hm. destruct m; simpl in *; done.
    - constructor; [simpl; lia|]. eapply Forall_impl; [exact Hfrom|].
      intros m. apply startsFrom_le. lia. }
  destruct ((i =? listEnd) || isEqual (lst i) (cachedList i)).
  - destruct last as [s|]; [by apply (Hpush s None)|].
    apply IH. lia.
  - destruct last as [s|].
    + destruct (i - s >=? messageCountLimit).
      * apply (Hpush s (Some i)); [done|lia].
      * apply IH. lia.
    + apply IH. lia.
Qed.

(** X9. When [fillMessageForItem] returns true, the ranges of the messages
    it has added come in ascending order, each ending where the next starts
    or before, and none starts before [listStart]. *)
Theorem fillMessageForItem_ranges_ascend
    (changeMessages out : list (@WorldMapMessage V)) (lst cachedList : Z -> V)
    (command : Command) (listStart listEnd : Z) :
  overLimit changeMessages = false ->
  fillMessageForItem stringifySlice changeMessages lst cachedList command
    listStart listEnd = (out, true) ->
  exists added,
    out = changeMessages ++ added
    /\ StronglySorted endsBefore added
    /\ Forall (startsFrom listStart) added.
Proof.
  intros Hcm Hfill.
  pose proof (fillMessageForItem_runs stringifySlice changeMessages lst cachedList
                command listStart listEnd Hcm) as Hruns.
  simpl in Hruns. rewrite Hfill in Hruns.
  match type of Hruns with (if ?b then _ else _) => destruct b end; [done|].
  injection Hruns as ->.
  exists (itemChanges stringifySlice lst cachedList command listStart listEnd).
  split; [done|]. unfold itemChanges.
  destruct (Z_le_gt_dec 0 (listEnd - listStart + 1)) as [Hle|Hgt].
  - rewrite <- (Z2Nat.id (listEnd - listStart + 1)) by done.
    apply (changeRuns_ascending lst cachedList command listEnd
             (Z.to_nat (listEnd - listStart + 1)) listStart None listStart). lia.
  - rewrite seqZ_nil by lia. simpl. split; constructor.
Qed.

End DiffOrder.

Lemma fillMessageForItem_ranges_ascend_witness :
  exists out,
    WorldMapSession.fillMessageForItem noJsonSlice [] (fun i => if Z.odd i then 1 else 0)
      (fun _ => 0) WorldMapSession.CmdProvinces 0 6 = (out, true)
    /\ exists added,
         out = [] ++ added
         /\ StronglySorted endsBefore added
         /\ Forall (startsFrom 0) added.
Proof.
  eexists. split; [vm_compute; reflexivity|].
  apply (fillMessageForItem_ranges_ascend noJsonSlice [] _
           (fun i => if Z.odd i then 1 else 0) (fun _ => 0)
           WorldMapSession.CmdProvinces 0 6); reflexivity.
Defined.

(** ** Adjacency and the order of the members *)

Section ContiguityMore.
Import SupplyAreas.

(** [statesAreAdjacent] spelled out. *)
Lemma statesAreAdjacent_true a b provinces :
  statesAreAdjacent a b provinces = true
  <-> exists p prov e prov',
        p ∈ stateProvinces (stateBase a) /\ provinces !! p = Some prov
        /\ e ∈ provinceEdges prov /\ edgeType e <> "impassable"
        /\ edgeTo e ∈ stateProvinces (stateBase b)
        /\ provinces !! edgeTo e = Some prov'.
Proof.
  unfold statesAreAdjacent. rewrite existsb_exists. split.
  - intros (p & Hp & H). destruct (provinces !! p) as [prov|] eqn:Eprov; [|done].
    apply existsb_exists in H as (e & He & H). unfold edgeReaches in H.
    apply andb_true_iff in H as [Ht H].
    apply existsb_exists in H as (p2 & Hp2 & H).
    apply andb_true_iff in H as [Hex Heq].
    apply bool_decide_eq_true in Hex as [prov' Hprov']. apply Z.eqb_eq in Heq. subst p2.
    exists p, prov, e, prov'. rewrite !list_elem_of_In. repeat split; auto.
    intros Himp. rewrite Himp in Ht. done.
  - intros (p & prov & e & prov' & Hp & Hprov & He & Ht & Hto & Hprov').
    exists p. split; [by apply list_elem_of_In|]. rewrite Hprov.
    apply existsb_exists. exists e. split; [by apply list_elem_of_In|].
    unfold edgeReaches. apply andb_true_iff. split.
    + apply negb_true_iff. by apply String.eqb_neq.
    + apply existsb_exists. exists (edgeTo e). split; [by apply list_elem_of_In|].
      apply andb_true_iff. split; [|apply Z.eqb_refl].
      apply bool_decide_eq_true. eauto.
Qed.

Lemma adjacent_back a b provinces :
  symmetricEdges provinces ->
  statesAreAdjacent a b provinces = true -> statesAreAdjacent b a provinces = true.
Proof.
  intros Hsym. rewrite !statesAreAdjacent_true.
  intros (p & prov & e & prov' & Hp & Hprov & He & Ht & Hto & Hprov').
  destruct (Hsym p prov e prov' Hprov He Ht Hprov') as (e' & He' & Hto' & Ht').
  exists (edgeTo e), prov', e', prov. rewrite Hto'. auto 10.
Qed.

(** X10. When passable edges come in pairs, [statesAreAdjacent] does not
    depend on the order of its two states. *)
Theorem statesAreAdjacent_symmetric (stateA stateB : State) (provinces : gmap Z Province) :
  symmetricEdges provinces ->
  statesAreAdjacent stateA stateB provinces = statesAreAdjacent stateB stateA provinces.
Proof.
  intros Hsym.
  destruct (statesAreAdjacent stateA stateB provinces) eqn:Hab.
  - symmetry. by apply adjacent_back.
  - destruct (statesAreAdjacent stateB stateA provinces) eqn:Hba; [|done].
    apply (adjacent_back _ _ _ Hsym) in Hba. congruence.
Qed.

Lemma find_first {A} (f : A -> bool) (l : list A) x :
  find f l = Some x ->
  exists pre post, l = pre ++ x :: post /\ f x = true /\ Forall (fun y => f y = false) pre.
Proof.
  induction l as [|a l IH]; simpl; [done|].
  destruct (f a) eqn:Ha.
  - intros [= ->]. exists [], l. auto.
  - intros Hf. destruct (IH Hf) as (pre & post & -> & Hx & Hpre).
    exists (a :: pre), post. auto.
Qed.

Lemma objectKeys_head l k :
  Forall (fun i => 0 <= i < 4294967295) l -> head (objectKeys l) = Some k ->
  k ∈ l /\ Forall (fun i => k <= i) l.
Proof.
  intros Hpos Hhead. unfold objectKeys in Hhead.
  assert (E1 : filter (fun k => 0 ≤ k < 4294967295) l = l).
  { clear Hhead. induction Hpos as [|i l Hi _ IH]; [done|].
    rewrite filter_cons_True by done. by rewrite IH. }
  assert (E2 : filter (fun k => ¬ 0 ≤ k < 4294967295) l = []).
  { clear Hhead E1. induction Hpos as [|i l Hi _ IH]; [done|].
    rewrite filter_cons_False by tauto. exact IH. }
  rewrite E1, E2, app_nil_r in Hhead.
  pose proof (StronglySorted_merge_sort Z.le l) as Hsorted.
  pose proof (merge_sort_Permutation Z.le l) as Hperm.
  destruct (merge_sort Z.le l) as [|k' ks]; [done|]. injection Hhead as ->.
  apply StronglySorted_inv in Hsorted as [_ Hks].
  split; [rewrite <- Hperm; by left|].
  rewrite <- Hperm. constructor; [lia|exact Hks].
Qed.

(** X11. For members with pairwise distinct ids that are array indices
    (0 to 2^32 - 2, the keys [Object.keys] lists in ascending order),
    [checkStatesContiguous] returns [undefined] when every member is reachable
    from the first; otherwise the pair it returns holds the id of the first
    member, in list order, that is not reachable, and the least id among the
    members that are. *)
Theorem checkStatesContiguous_result (first : State) (rest : list State)
    (provinces : gmap Z Province) :
  let states := first :: rest in
  NoDup (map sid states) ->
  Forall (fun s => 0 <= sid s < 4294967295) states ->
  exists res,
    checkStatesContiguous states provinces = Returned res
    /\ match res with
       | None => forall s, s ∈ states -> reachable provinces states first s
       | Some (u, r) =>
           (exists pre s post,
              states = pre ++ s :: post /\ sid s = u
              /\ ~ reachable provinces states first s
              /\ Forall (reachable provinces states first) pre)
           /\ (exists s, s ∈ states /\ sid s = r
                         /\ reachable provinces states first s
                         /\ forall s', s' ∈ states ->
                              reachable provinces states first s' -> r <= sid s')
       end.
Proof.
  intros states Hnd Hpos.
  assert (Hfirst : first ∈ states) by (by left).
  destruct (traverse_characterised provinces states first Hnd Hfirst)
    as (accF & E & HndF & Hsub & Hiff & Hf).
  unfold checkStatesContiguous. unfold states at 1. cbv beta iota.
  change (first :: rest) with states.
  change (stateId (stateBase first)) with (sid first). rewrite E.
  pose proof (objectKeys_perm accF) as Hperm.
  rewrite (Permutation_length Hperm).
  assert (Hincl : accF ⊆+ map sid states).
  { apply NoDup_submseteq; [done|].
    intros i Hi. destruct (Hsub i Hi) as (x & Hx & <-).
    apply list_elem_of_In, in_map, list_elem_of_In, Hx. }
  destruct (Z.eqb_spec (Z.of_nat (length accF)) (Z.of_nat (length states))) as [Heq|Hne].
  - exists None. split; [done|]. intros s Hs. apply Hiff; [done|].
    assert (Hp : accF ≡ₚ map sid states).
    { apply submseteq_length_Permutation; [done|]. rewrite length_map. lia. }
    rewrite Hp. apply list_elem_of_In, in_map, list_elem_of_In, Hs.
  - destruct (find (fun state => negb (isAccessed accF state)) states) as [u|] eqn:Hfind.
    + apply find_first in Hfind as (pre & post & Hsplit & Hu & Hpre).
      apply negb_true_iff, bool_decide_eq_false in Hu.
      exists (Some (sid u, default 0 (head (objectKeys accF)))).
      split; [done|]. split.
      * exists pre, u, post. split; [done|]. split; [done|]. split.
        -- intros Hr. apply Hu, Hiff; [|done]. rewrite Hsplit.
           apply elem_of_app. right. by left.
        -- apply Forall_forall. intros y Hy.
           assert (Hy' : y ∈ states) by (rewrite Hsplit; apply elem_of_app; by left).
           apply Hiff; [done|]. rewrite Forall_forall in Hpre.
           specialize (Hpre y Hy). apply negb_false_iff, bool_decide_eq_true in Hpre.
           exact Hpre.
      * assert (HposF : Forall (fun i => 0 <= i < 4294967295) accF).
        { apply Forall_forall. intros i Hi. destruct (Hsub i Hi) as (x & Hx & <-).
          rewrite Forall_forall in Hpos. by apply Hpos. }
        destruct (head (objectKeys accF)) as [k|] eqn:Hk.
        -- destruct (objectKeys_head accF k HposF Hk) as [Hin Hmin]. simpl.
           destruct (Hsub _ Hin) as (x & Hx & Hsx).
           exists x. split; [done|]. split; [done|]. split.
           ++ apply Hiff; [done|]. by rewrite Hsx.
           ++ intros s' Hs' Hr. rewrite Forall_forall in Hmin.
              apply Hmin, Hiff; done.
        -- exfalso. destruct (objectKeys accF) eqn:Hkeys; [|done].
           apply Permutation_nil_l in Hperm. subst accF. by apply elem_of_nil in Hf.
    + exfalso. apply Hne. f_equal. apply Nat.le_antisymm.
      * rewrite <- (length_map sid states). by apply submseteq_length.
      * rewrite <- (length_map sid states).
        apply submseteq_length, NoDup_submseteq; [done|].
        intros i Hi. apply list_elem_of_In, in_map_iff in Hi as (s & <- & Hs).
        pose proof (find_none _ _ Hfind s Hs) as Hn.
        apply negb_false_iff, bool_decide_eq_true in Hn. exact Hn.
Qed.

Lemma step_perm provinces states states' x y :
  states ≡ₚ states' -> step provinces states x y -> step provinces states' x y.
Proof. intros Hp [Hy Hadj]. split; [by rewrite <- Hp|done]. Qed.

Lemma reachable_perm provinces states states' x y :
  states ≡ₚ states' -> reachable provinces states x y -> reachable provinces states' x y.
Proof.
  intros Hp. unfold reachable. induction 1 as [|a b c Hab _ IH]; [apply rtc_refl|].
  eapply rtc_l; [eapply step_perm; eauto|exact IH].
Qed.

Lemma reachable_back provinces states x y :
  symmetricEdges provinces -> x ∈ states ->
  reachable provinces states x y -> reachable provinces states y x.
Proof.
  intros Hsym Hx. unfold reachable. induction 1 as [|a b c Hab _ IH]; [apply rtc_refl|].
  destruct Hab as [Hb Hadj].
  eapply rtc_r; [apply IH, Hb|]. split; [done|]. by apply adjacent_back.
Qed.

Lemma contiguous_from_any provinces states first first' :
  symmetricEdges provinces -> first ∈ states -> first' ∈ states ->
  (forall s, s ∈ states -> reachable provinces states first s) ->
  forall s, s ∈ states -> reachable provinces states first' s.
Proof.
  intros Hsym Hf Hf' Hall s Hs.
  unfold reachable. etrans; [|apply Hall, Hs].
  apply reachable_back; auto.
Qed.

(** X12. When passable edges come in pairs, whether
    [checkStatesContiguous] finds a list of distinct members contiguous does
    not depend on the order of the list, so not on the member it starts
    from. *)
Theorem checkStatesContiguous_order_independent (states states' : list State)
    (provinces : gmap Z Province) :
  symmetricEdges provinces ->
  NoDup (map sid states) ->
  states ≡ₚ states' ->
  (checkStatesContiguous states provinces = Returned None
   <-> checkStatesContiguous states' provinces = Returned None).
Proof.
  intros Hsym Hnd Hperm.
  assert (Hnd' : NoDup (map sid states')) by (by rewrite <- Hperm).
  destruct states as [|f r].
  { apply Permutation_nil_l in Hperm. by subst states'. }
  destruct states' as [|f' r'].
  { by apply Permutation_nil_r in Hperm. }
  destruct (checkStatesContiguous_distinct f r provinces Hnd) as (res & -> & Hres & _).
  destruct (checkStatesContiguous_distinct f' r' provinces Hnd') as (res' & -> & Hres' & _).
  assert (Hf : f ∈ f' :: r') by (rewrite <- Hperm; by left).
  assert (Hf' : f' ∈ f :: r) by (rewrite Hperm; by left).
  split; intros [= ->]; f_equal.
  - apply Hres'. intros s Hs.
    apply (reachable_perm provinces (f :: r)); [done|].
    apply (contiguous_from_any provinces (f :: r) f f'); auto.
    + by left.
    + by apply Hres.
    + by rewrite Hperm.
  - apply Hres. intros s Hs.
    apply (reachable_perm provinces (f' :: r')); [done|].
    apply (contiguous_from_any provinces (f' :: r') f' f); auto.
    + by left.
    + by apply Hres'.
    + by rewrite <- Hperm.
Qed.

End ContiguityMore.

Lemma chainProvinces_symmetric : symmetricEdges chainProvinces.
Proof.
  intros p prov e prov' Hp He Ht Hto. unfold chainProvinces in Hp.
  apply lookup_insert_Some in Hp as [[<- <-]|[? Hp]];
    [|apply lookup_insert_Some in Hp as [[<- <-]|[? Hp]];
      [|apply lookup_singleton_Some in Hp as [<- <-]]].
  all: simpl in He;
    repeat (apply elem_of_cons in He as [->|He]); try (by apply elem_of_nil in He);
    vm_compute in Hto; injection Hto as <-; eexists;
    first [ by (split; [left|split; [reflexivity|done]])
          | by (split; [right; left|split; [reflexivity|done]]) ].
Qed.

Lemma statesAreAdjacent_symmetric_witness :
  SupplyAreas.statesAreAdjacent (chainState 1) (chainState 2) chainProvinces
  = SupplyAreas.statesAreAdjacent (chainState 2) (chainState 1) chainProvinces.
Proof.
  apply (statesAreAdjacent_symmetric (chainState 1) (chainState 2) chainProvinces).
  exact chainProvinces_symmetric.
Defined.

Lemma checkStatesContiguous_result_witness :
  exists res,
    SupplyAreas.checkStatesContiguous [chainState 3; chainState 1] chainProvinces
    = Returned res
    /\ match res with
       | None => forall s, s ∈ [chainState 3; chainState 1] ->
                   reachable chainProvinces [chainState 3; chainState 1] (chainState 3) s
       | Some (u, r) =>
           (exists pre s post,
              [chainState 3; chainState 1] = pre ++ s :: post /\ sid s = u
              /\ ~ reachable chainProvinces [chainState 3; chainState 1] (chainState 3) s
              /\ Forall (reachable chainProvinces [chainState 3; chainState 1] (chainState 3))
                   pre)
           /\ (exists s, s ∈ [chainState 3; chainState 1] /\ sid s = r
                         /\ reachable chainProvinces [chainState 3; chainState 1]
                              (chainState 3) s
                         /\ forall s', s' ∈ [chainState 3; chainState 1] ->
                              reachable chainProvinces [chainState 3; chainState 1]
                                (chainState 3) s' -> r <= sid s')
       end.
Proof.
  apply (checkStatesContiguous_result (chainState 3) [chainState 1] chainProvinces).
  - by_compute.
  - by_compute.
Defined.

(** States 3 and 1 do not touch: the check names 1 as unreached and 3 as
    reached; with state 2 between them the area is contiguous. *)
Example chain_without_its_middle :
  SupplyAreas.checkStatesContiguous [chainState 3; chainState 1] chainProvinces
  = Returned (Some (1, 3))
  /\ SupplyAreas.checkStatesContiguous [chainState 3; chainState 1; chainState 2]
       chainProvinces
     = Returned None.
Proof. split; vm_compute; reflexivity. Qed.

(** Ids from 2^32 - 1 on are no array indices, and [Object.keys] lists them
    in insertion order: the reached id of the pair is that of the first
    member, not the least one reached. *)
Example ids_past_the_array_indices :
  SupplyAreas.checkStatesContiguous farStates chainProvinces
  = Returned (Some (7, 4294967296)).
Proof. vm_compute. reflexivity. Qed.

Lemma checkStatesContiguous_order_independent_witness :
  SupplyAreas.checkStatesContiguous [chainState 3; chainState 1; chainState 2] chainProvinces
  = Returned None
  <-> SupplyAreas.checkStatesContiguous [chainState 1; chainState 2; chainState 3]
        chainProvinces
      = Returned None.
Proof.
  apply (checkStatesContiguous_order_independent
           [chainState 3; chainState 1; chainState 2]
           [chainState 1; chainState 2; chainState 3] chainProvinces).
  - exact chainProvinces_symmetric.
  - by_compute.
  - etrans; [apply Permutation_swap|]. apply Permutation_skip, Permutation_swap.
Defined.

(** ** [mergeFiles] and the owners of shared provinces *)

Section ValidationMore.
Import StatesRegion.
Variable mergeRegions : list Region -> Z -> Region.
Variable sortItems :
  list StateNoBoundingBox -> Z ->
  (Z -> Eff unit) ->
  (StateNoBoundingBox -> StateNoBoundingBox -> Z -> Eff unit) ->
  (Z -> Z -> Eff unit) ->
  Eff (JsArray StateNoBoundingBox * Z).

Lemma validateProvinceInState_returns provinces filled lo ws :
  indexedById filled ->
  exists extra, validateProvinceInState provinces filled lo ws = (ws ++ extra, Returned tt).
Proof.
  intros Hidx. unfold validateProvinceInState.
  destruct (visitStates_inv provinces filled (fun _ ws' => exists extra, ws' = ws ++ extra)
              (seqZ lo (alength filled - lo)) Hidx)
    with (pts := (∅ : gmap Z Z)) (ws := ws) as (pts' & ws' & E & _ & extra & ->).
  - intros pts ws0 i pts' extra _ _ [e ->] _. exists (e ++ extra). by rewrite app_assoc.
  - intros q o. by rewrite lookup_empty.
  - exists []. by rewrite app_nil_r.
  - exists extra. unfold bind. by rewrite E.
Qed.

(** X13. Once [sortStates] has returned an array whose records sit at their
    ids, [mergeFiles] returns: the non-null assertion on the owner of a shared
    province never fails.  The result has the length of the sorted array and
    [badStateId + 1] as its bad-state count, and holds, at every index between
    the two, the record of the sorted array with its region. *)
Theorem mergeFiles_returns
    (rawStates : list StateNoBoundingBox) (provinces : gmap Z Province)
    (width height : Z) (ws ws1 : list Warning)
    (sorted : JsArray StateNoBoundingBox) (badStateId : Z) :
  sortStates sortItems rawStates ws = (ws1, Returned (sorted, badStateId)) ->
  map_Forall (fun i s => stateId s = i) (items sorted) ->
  exists extra res,
    mergeFiles mergeRegions sortItems rawStates provinces width height ws
    = (ws1 ++ extra, Returned res)
    /\ badStatesCount res = badStateId + 1
    /\ alength (states res) = alength sorted
    /\ forall i, items (states res) !! i
         = if decide (badStateId < i < alength sorted)
           then (fun s => mkState s (expectedRegion mergeRegions provinces width s))
                  <$> items sorted !! i
           else None.
Proof.
  intros Hsort Hwf.
  unfold mergeFiles, bind at 1. rewrite Hsort.
  set (lo := badStateId + 1). set (n := alength sorted - lo).
  destruct (fillStates_lookup mergeRegions sorted provinces width height (seqZ lo n)
              (mkJsArray ∅ (alength sorted)) ws1) as (filled & e & E & Hlen & Hl).
  unfold bind at 1. rewrite E. simpl in Hlen.
  assert (Hitems : forall i, items filled !! i
            = if decide (badStateId < i < alength sorted)
              then (fun s => mkState s (expectedRegion mergeRegions provinces width s))
                     <$> items sorted !! i
              else None).
  { intros i. rewrite Hl. simpl. rewrite lookup_empty.
    destruct (decide (badStateId < i < alength sorted)) as [Hi|Hi].
    - rewrite decide_True by (apply elem_of_seqZ; unfold n, lo; lia).
      by destruct (items sorted !! i).
    - rewrite decide_False; [done|]. rewrite elem_of_seqZ. unfold n, lo. lia. }
  assert (Hidx : indexedById filled).
  { intros i st. rewrite Hitems. destruct (decide _); [|done].
    destruct (items sorted !! i) as [s|] eqn:Hs; [|done].
    intros [= <-]. simpl. by apply Hwf in Hs. }
  destruct (validateProvinceInState_returns provinces filled lo (ws1 ++ e) Hidx) as [e2 Ev].
  exists (e ++ e2), (mkStateLoaderResult filled lo).
  unfold bind. rewrite Ev. rewrite app_assoc. simpl. auto.
Qed.

Lemma seaCheck_names state q province ws (P : Warning -> Prop) :
  (forall w, (forall p o i, text w <> ProvinceInMultiStates p o i) -> P w) ->
  exists extra, seaCheck state q province ws = (ws ++ extra, Returned tt)
                /\ Forall P extra.
Proof.
  intros HP. unfold seaCheck. destruct province as [prov|].
  - unfold when. destruct (String.eqb _ _).
    + eexists. split; [reflexivity|]. repeat constructor. apply HP. done.
    + exists []. rewrite app_nil_r. split; [done|constructor].
  - exists []. rewrite app_nil_r. split; [done|constructor].
Qed.

Lemma visitProvince_validating provinces filled lo i st ws0 pts ws p :
  indexedById filled ->
  lo <= i -> items filled !! i = Some st ->
  p ∈ stateProvinces (stateBase st) ->
  validating provinces filled lo i ws0 pts ws ->
  exists pts' ws',
    visitProvince provinces filled st pts p ws = (ws', Returned pts')
    /\ validating provinces filled lo i ws0 pts' ws'.
Proof.
  intros Hidx Hlo Hst Hp (Hown & Hfirst & Hrec & extra & -> & Hgood).
  assert (Hid : stateId (stateBase st) = i) by (by apply Hidx).
  assert (Hsea : forall w, (forall p o i, text w <> ProvinceInMultiStates p o i) ->
            namesFirstOwner provinces filled lo w).
  { intros w Hw p' o' i' Ht. by apply Hw in Ht. }
  unfold visitProvince. destruct (pts !! p) as [o|] eqn:Ho.
  - destruct (provinces !! p) as [prov|] eqn:Hprov.
    + destruct (Hown p o Ho) as [owner Howner]. rewrite Howner.
      unfold bind, push.
      destruct (seaCheck_names st p (Some prov)
                  ((ws0 ++ extra) ++ [multiStatesWarning st owner o p prov])
                  (namesFirstOwner provinces filled lo) Hsea) as (e & -> & He).
      exists pts. eexists. split; [reflexivity|].
      split; [done|]. split; [done|]. split; [done|].
      exists (extra ++ [multiStatesWarning st owner o p prov] ++ e).
      split; [by rewrite <- !app_assoc|].
      apply Forall_app. split; [done|]. apply Forall_app. split; [|done].
      constructor; [|constructor]. intros p' o' i' [= <- <- <-].
      destruct (Hfirst p o Ho) as [Hoi Hfo]. rewrite Hid.
      split; [eauto|]. split; [done|]. split; [done|]. split; [by exists st|].
      exists owner, st. auto.
    + exists pts, (ws0 ++ extra). split; [done|].
      split; [done|]. split; [done|]. split; [done|]. eauto.
  - unfold bind.
    destruct (seaCheck_names st p (provinces !! p) (ws0 ++ extra)
                (namesFirstOwner provinces filled lo) Hsea) as (e & -> & He).
    eexists. eexists. split; [reflexivity|]. rewrite Hid.
    split; [|split; [|split]].
    + intros q o. destruct (decide (q = p)) as [->|Hne].
      * rewrite lookup_insert_eq. intros [= <-]. eauto.
      * rewrite lookup_insert_ne by done. apply Hown.
    + intros q o. destruct (decide (q = p)) as [->|Hne].
      * rewrite lookup_insert_eq. intros [= <-]. split; [lia|].
        split; [done|]. split; [by exists st|].
        intros j Hj Hl. destruct (Hrec j p Hj Hl) as [? ?]. congruence.
      * rewrite lookup_insert_ne by done. apply Hfirst.
    + intros j q Hj Hl. destruct (decide (q = p)) as [->|Hne].
      * rewrite lookup_insert_eq. eauto.
      * rewrite lookup_insert_ne by done. by eapply Hrec.
    + exists (extra ++ e). split; [by rewrite app_assoc|]. by apply Forall_app.
Qed.

Lemma visitState_validating provinces filled lo i ws0 pts ws :
  indexedById filled -> lo <= i ->
  validating provinces filled lo i ws0 pts ws ->
  exists pts' ws',
    visitState provinces filled pts i ws = (ws', Returned pts')
    /\ validating provinces filled lo (i + 1) ws0 pts' ws'.
Proof.
  intros Hidx Hlo Hval. unfold visitState.
  destruct (items filled !! i) as [st|] eqn:Hst.
  - destruct (foldEff_inv (validating provinces filled lo i ws0)
                (visitProvince provinces filled st) (stateProvinces (stateBase st)))
      with (s := pts) (ws := ws) as (pts' & ws' & E & Hval'); [|done|].
    { intros pts0 p ws1 Hp Hv. by eapply visitProvince_validating. }
    exists pts', ws'. split; [done|].
    destruct Hval as (Hown & _).
    assert (Hid : stateId (stateBase st) = i) by (by apply Hidx).
    destruct (visitProvinces_ok provinces filled st (stateProvinces (stateBase st)))
      with (pts := pts) (ws := ws) as (pts2 & e2 & E2 & _ & _ & _ & Hall & _);
      [rewrite Hid; eauto|done|].
    rewrite E in E2. injection E2 as _ ->.
    destruct Hval' as (Hown' & Hfirst' & Hrec' & Hw').
    split; [done|]. split; [|split; [|done]].
    + intros q o Hq. destruct (Hfirst' q o Hq). split; [lia|done].
    + intros j q Hj Hl. destruct (decide (j = i)) as [->|Hne].
      * destruct Hl as (sj & Hsj & Hq). rewrite Hst in Hsj. injection Hsj as <-.
        by apply Hall.
      * apply (Hrec' j q); [lia|done].
  - exists pts, ws. split; [done|].
    destruct Hval as (Hown & Hfirst & Hrec & Hw).
    split; [done|]. split; [|split; [|done]].
    + intros q o Hq. destruct (Hfirst q o Hq). split; [lia|done].
    + intros j q Hj Hl. destruct (decide (j = i)) as [->|Hne].
      * destruct Hl as (sj & Hsj & _). congruence.
      * apply (Hrec j q); [lia|done].
Qed.

Lemma visitStates_validating provinces filled lo ws0 (n : nat) :
  indexedById filled ->
  forall i pts ws, lo <= i ->
  validating provinces filled lo i ws0 pts ws ->
  exists pts' ws',
    foldEff (visitState provinces filled) (seqZ i (Z.of_nat n)) pts ws
    = (ws', Returned pts')
    /\ validating provinces filled lo (i + Z.of_nat n) ws0 pts' ws'.
Proof.
  intros Hidx. induction n as [|n IH]; intros i pts ws Hlo Hval.
  { exists pts, ws. split; [done|]. by rewrite Z.add_0_r. }
  rewrite seqZ_cons by lia. simpl. unfold bind at 1.
  destruct (visitState_validating provinces filled lo i ws0 pts ws Hidx Hlo Hval)
    as (pts1 & ws1 & -> & Hval1).
  replace (Z.pred (Z.of_nat (S n))) with (Z.of_nat n) by lia.
  destruct (IH (Z.succ i) pts1 ws1) as (pts2 & ws2 & E & Hval2); [lia|exact Hval1|].
  exists pts2, ws2. split; [exact E|].
  by replace (i + Z.of_nat (S n)) with (Z.succ i + Z.of_nat n) by lia.
Qed.

(** X14. On an array whose states sit at their ids,
    [validateProvinceInState] returns, and each multi-state warning it pushes
    is about an existing province and names as its owner the first state from
    [badStatesCount] on that lists the province, together with a state at or
    after the owner that lists it too; its related files are those of the two
    states. *)
Theorem multi_state_warnings_name_first_owner
    (provinces : gmap Z Province) (filled : JsArray State)
    (badStatesCount : Z) (ws : list Warning) :
  indexedById filled ->
  exists extra,
    validateProvinceInState provinces filled badStatesCount ws
    = (ws ++ extra, Returned tt)
    /\ Forall (namesFirstOwner provinces filled badStatesCount) extra.
Proof.
  intros Hidx. unfold validateProvinceInState.
  set (lo := badStatesCount).
  assert (H0 : validating provinces filled lo lo ws ∅ ws).
  { split; [intros q o; by rewrite lookup_empty|].
    split; [intros q o; by rewrite lookup_empty|].
    split; [intros; lia|]. exists []. rewrite app_nil_r. split; [done|constructor]. }
  destruct (Z_le_gt_dec lo (alength filled)) as [Hle|Hgt].
  - destruct (visitStates_validating provinces filled lo ws
                (Z.to_nat (alength filled - lo)) Hidx lo ∅ ws)
      as (pts' & ws' & E & _ & _ & _ & extra & -> & Hgood); [lia|done|].
    rewrite Z2Nat.id in E by lia.
    exists extra. unfold bind. rewrite E. done.
  - rewrite seqZ_nil by lia. exists []. rewrite app_nil_r. split; [done|constructor].
Qed.

End ValidationMore.

Lemma mergeFiles_returns_witness :
  exists extra res,
    StatesRegion.mergeFiles Common.mergeRegions Common.sortItems overlappingStates
      sampleProvinces 100 100 []
    = ([] ++ extra, Returned res)
    /\ StatesRegion.badStatesCount res = -1 + 1
    /\ alength (StatesRegion.states res) = alength overlappingSorted
    /\ forall i, items (StatesRegion.states res) !! i
         = if decide (-1 < i < alength overlappingSorted)
           then (fun s => mkState s (expectedRegion Common.mergeRegions sampleProvinces 100 s))
                  <$> items overlappingSorted !! i
           else None.
Proof.
  apply (mergeFiles_returns Common.mergeRegions Common.sortItems overlappingStates
           sampleProvinces 100 100 [] [] overlappingSorted (-1)).
  - vm_compute. reflexivity.
  - by_compute.
Defined.

Lemma overlappingFilled_indexed : indexedById overlappingFilled.
Proof.
  intros i st Hst.
  refine (map_Forall_lookup_1 (fun i st => stateId (stateBase st) = i) _ _ _ _ Hst).
  by_compute.
Qed.

Lemma multi_state_warnings_name_first_owner_witness :
  exists extra,
    StatesRegion.validateProvinceInState sampleProvinces overlappingFilled 0 []
    = ([] ++ extra, Returned tt)
    /\ Forall (namesFirstOwner sampleProvinces overlappingFilled 0) extra.
Proof.
  apply (multi_state_warnings_name_first_owner sampleProvinces overlappingFilled 0 []).
  exact overlappingFilled_indexed.
Defined.

(** The one warning of the sample: province 1, owner 1, second state 2. *)
Example overlapping_states_warning :
  fst (StatesRegion.validateProvinceInState sampleProvinces overlappingFilled 0 [])
  = [mkWarning [stateSource 2; stateSource 1; provinceSource 1 sampleProvince]
       ["b.txt"; "a.txt"] (ProvinceInMultiStates 1 1 2)].
Proof. vm_compute. reflexivity. Qed.

(** A state that lists a province twice is its own first owner: the second
    listing is reported as a province in the states 1 and 1. *)
Example province_listed_twice_by_one_state :
  fst (StatesRegion.validateProvinceInState sampleProvinces
         (mkJsArray {[ 1 := mkState (rawState 1 "a.txt" [1; 1]) zeroRegion ]} 2) 0 [])
  = [mkWarning [stateSource 1; stateSource 1; provinceSource 1 sampleProvince]
       ["a.txt"; "a.txt"] (ProvinceInMultiStates 1 1 1)].
Proof. vm_compute. reflexivity. Qed.

(** ** Validation of the states of supply areas *)

Lemma bind_returned {A B} (c : Eff A) (k : A -> Eff B) ws ws' b :
  bind c k ws = (ws', Returned b) ->
  exists a ws1, c ws = (ws1, Returned a) /\ k a ws1 = (ws', Returned b).
Proof.
  unfold bind. destruct (c ws) as [ws1 [a|m]]; [eauto|done].
Qed.

Section SupplyAreaValidation.
Import SupplyAreas.

Lemma visitMembers_returned states supplyAreas area l :
  forall acc ws acc' ws',
  foldEff (visitMember states supplyAreas area) l acc ws = (ws', Returned acc') ->
  snd acc' = snd acc ++ map (fun s => items states !! s) l
  /\ (forall s, is_Some (fst acc' !! s) <-> is_Some (fst acc !! s) \/ s ∈ l)
  /\ exists extra, ws' = ws ++ extra /\ Forall (fun w => isNoSupplyArea w = false) extra.
Proof.
  induction l as [|s l IH]; intros acc ws acc' ws'; simpl.
  { intros [= <- <-]. rewrite app_nil_r. split; [done|]. split.
    - intros s. rewrite elem_of_nil. tauto.
    - exists []. by rewrite app_nil_r. }
  intros (acc1 & ws1 & E1 & E2)%bind_returned.
  destruct (IH _ _ _ _ E2) as (Hout & Hdom & e2 & -> & He2).
  assert (H1 : snd acc1 = snd acc ++ [items states !! s]
               /\ (forall q, is_Some (fst acc1 !! q) <-> is_Some (fst acc !! q) \/ q = s)
               /\ exists e1, ws1 = ws ++ e1 /\ Forall (fun w => isNoSupplyArea w = false) e1).
  { unfold visitMember in E1. destruct (fst acc !! s) as [o|] eqn:Ho.
    - assert (Hsame : forall q, is_Some (fst acc !! q) <-> is_Some (fst acc !! q) \/ q = s).
      { intros q. split; [by left|]. intros [?| ->]; [done|]. rewrite Ho. eauto. }
      destruct (items states !! s) as [st|].
      + destruct (items supplyAreas !! o) as [owner|]; [|done].
        unfold bind, push, ret in E1. injection E1 as <- <-. simpl.
        split; [done|]. split; [done|]. eexists. split; [reflexivity|].
        by repeat constructor.
      + injection E1 as <- <-. simpl. split; [done|]. split; [done|].
        exists []. by rewrite app_nil_r.
    - injection E1 as <- <-. simpl. split; [done|]. split.
      + intros q. destruct (decide (q = s)) as [->|Hne].
        * rewrite lookup_insert_eq. split; [by right|eauto].
        * rewrite lookup_insert_ne by done. split; [by left|]. intros [?|?]; done.
      + exists []. by rewrite app_nil_r. }
  destruct H1 as (Hout1 & Hdom1 & e1 & -> & He1).
  split; [rewrite Hout, Hout1, <- app_assoc; reflexivity|]. split.
  - intros q. rewrite Hdom, Hdom1, elem_of_cons. tauto.
  - exists (e1 ++ e2). split; [by rewrite app_assoc|]. by apply Forall_app.
Qed.

Lemma visitSupplyArea_returned states supplyAreas provinces m i ws m' ws' :
  visitSupplyArea states supplyAreas provinces m i ws = (ws', Returned m') ->
  (forall s, is_Some (m' !! s)
             <-> is_Some (m !! s)
                 \/ exists a, items supplyAreas !! i = Some a /\ s ∈ saStates (saBase a))
  /\ exists extra, ws' = ws ++ extra /\ Forall (fun w => isNoSupplyArea w = false) extra.
Proof.
  unfold visitSupplyArea. destruct (items supplyAreas !! i) as [area|].
  - intros (acc & ws1 & E1 & E2)%bind_returned.
    destruct (visitMembers_returned _ _ _ _ _ _ _ _ E1) as (_ & Hdom & e1 & -> & He1).
    simpl in Hdom.
    assert (fst acc = m' /\ exists e2, ws' = (ws ++ e1) ++ e2
                                      /\ Forall (fun w => isNoSupplyArea w = false) e2)
      as (<- & e2 & -> & He2).
    { destruct (checkStatesContiguous _ _) as [[bad|]|msg]; [| |done].
      - unfold bind, push, ret in E2. injection E2 as <- <-.
        split; [done|]. eexists. split; [reflexivity|]. by repeat constructor.
      - injection E2 as <- <-. split; [done|]. exists []. by rewrite app_nil_r. }
    split.
    + intros s. rewrite Hdom. split; (intros [?|H]; [by left|right]).
      * by exists area.
      * destruct H as (a & [= <-] & Hs). done.
    + exists (e1 ++ e2). split; [by rewrite app_assoc|]. by apply Forall_app.
  - intros [= <- <-]. split.
    + intros s. split; [by left|]. intros [?|(a & ? & _)]; done.
    + exists []. by rewrite app_nil_r.
Qed.

Lemma visitSupplyAreas_returned states supplyAreas provinces (n : nat) :
  forall i m ws m' ws',
  foldEff (visitSupplyArea states supplyAreas provinces) (seqZ i (Z.of_nat n)) m ws
  = (ws', Returned m') ->
  (forall s, is_Some (m' !! s)
             <-> is_Some (m !! s)
                 \/ exists j a, i <= j < i + Z.of_nat n
                                /\ items supplyAreas !! j = Some a
                                /\ s ∈ saStates (saBase a))
  /\ exists extra, ws' = ws ++ extra /\ Forall (fun w => isNoSupplyArea w = false) extra.
Proof.
  induction n as [|n IH]; intros i m ws m' ws'.
  { simpl. intros [= <- <-]. split.
    - intros s. split; [by left|]. intros [?|(j & a & ? & _)]; [done|lia].
    - exists []. by rewrite app_nil_r. }
  rewrite seqZ_cons by lia. simpl.
  replace (Z.pred (Z.of_nat (S n))) with (Z.of_nat n) by lia.
  intros (m1 & ws1 & E1 & E2)%bind_returned.
  destruct (visitSupplyArea_returned _ _ _ _ _ _ _ _ E1) as (Hdom1 & e1 & -> & He1).
  destruct (IH _ _ _ _ _ E2) as (Hdom2 & e2 & -> & He2).
  split.
  - intros s. rewrite Hdom2, Hdom1. split.
    + intros [[?|(a & Ha & Hs)]|(j & a & Hj & Ha & Hs)]; [by left|right..].
      * exists i, a. split; [lia|done].
      * exists j, a. split; [lia|done].
    + intros [?|(j & a & Hj & Ha & Hs)]; [by left; left|].
      destruct (decide (j = i)) as [->|Hne].
      * left. right. by exists a.
      * right. exists j, a. split; [lia|done].
  - exists (e1 ++ e2). split; [by rewrite app_assoc|]. by apply Forall_app.
Qed.

Lemma listedIn_true supplyAreas bad s :
  listedIn supplyAreas bad s = true
  <-> exists j a, bad <= j < alength supplyAreas
                  /\ items supplyAreas !! j = Some a /\ s ∈ saStates (saBase a).
Proof.
  unfold listedIn. rewrite existsb_exists. split.
  - intros (j & Hj & H). apply list_elem_of_In, elem_of_seqZ in Hj.
    destruct (items supplyAreas !! j) as [a|] eqn:Ha; [|done].
    apply bool_decide_eq_true in H. exists j, a. split; [lia|done].
  - intros (j & a & Hj & Ha & Hs). exists j. split.
    + apply list_elem_of_In, elem_of_seqZ. lia.
    + rewrite Ha. by apply bool_decide_eq_true.
Qed.

Lemma visitUnassigned_all states m l : forall ws,
  foldEff (visitUnassigned states m) l tt ws
  = (ws ++ omap (fun i => match items states !! i with
                          | Some st => if bool_decide (is_Some (m !! i)) then None
                                       else Some (noSupplyAreaWarning i st)
                          | None => None
                          end) l,
     Returned tt).
Proof.
  induction l as [|i l IH]; intros ws; simpl.
  { by rewrite app_nil_r. }
  unfold bind at 1, visitUnassigned at 1.
  destruct (items states !! i) as [st|]; simpl.
  - destruct (bool_decide (is_Some (m !! i))); simpl.
    + apply IH.
    + unfold push. rewrite IH. by rewrite <- app_assoc.
  - apply IH.
Qed.

Lemma list_omap_same {A B} (f g : A -> option B) (l : list A) :
  (forall x, f x = g x) -> omap f l = omap g l.
Proof.
  intros Hfg. induction l as [|x l IH]; [done|].
  cbn [omap list_omap]. by rewrite Hfg, IH.
Qed.

Lemma filter_none {A} (f : A -> bool) l :
  Forall (fun x => f x = false) l -> List.filter f l = [].
Proof. induction 1 as [|x l Hx _ IH]; simpl; [done|]. by rewrite Hx. Qed.

Lemma filter_all {A} (f : A -> bool) l :
  Forall (fun x => f x = true) l -> List.filter f l = l.
Proof. induction 1 as [|x l Hx _ IH]; simpl; [done|]. by rewrite Hx, IH. Qed.

(** X15. When [validateStatesInSupplyAreas] returns, the "not in any supply
    area" warnings among those it has pushed are, in index order, one for
    every state from index 1 on that no supply area from
    [badSupplyAreasCount] on lists: a state at index 0 or below is never
    reported, and a state listed only by a supply area below the bad count
    is. *)
Theorem unassigned_states_are_reported
    (states : JsArray State) (supplyAreas : JsArray SupplyArea)
    (provinces : gmap Z Province) (badSupplyAreasCount : Z) (ws ws' : list Warning) :
  validateStatesInSupplyAreas states supplyAreas provinces badSupplyAreasCount ws
  = (ws', Returned tt) ->
  exists extra,
    ws' = ws ++ extra
    /\ List.filter isNoSupplyArea extra
       = unassignedWarnings states supplyAreas badSupplyAreasCount.
Proof.
  unfold validateStatesInSupplyAreas.
  intros (m & ws1 & E1 & E2)%bind_returned.
  set (bad := badSupplyAreasCount) in *.
  assert (Hdom : (forall s, is_Some (m !! s) <-> listedIn supplyAreas bad s = true)
                 /\ exists e1, ws1 = ws ++ e1
                               /\ Forall (fun w => isNoSupplyArea w = false) e1).
  { destruct (Z_le_gt_dec bad (alength supplyAreas)) as [Hle|Hgt].
    - rewrite <- (Z2Nat.id (alength supplyAreas - bad)) in E1 by lia.
      destruct (visitSupplyAreas_returned _ _ _ _ _ _ _ _ _ E1) as (Hd & He).
      split; [|done]. intros s. rewrite Hd, listedIn_true, lookup_empty.
      rewrite Z2Nat.id by lia. split.
      + intros [[? ?]|(j & a & Hj & H)]; [done|]. exists j, a. split; [lia|done].
      + intros (j & a & Hj & H). right. exists j, a. split; [lia|done].
    - rewrite seqZ_nil in E1 by lia. injection E1 as <- <-. split.
      + intros s. rewrite lookup_empty, listedIn_true. split; [intros [? ?]; done|].
        intros (j & a & Hj & _). lia.
      + exists []. by rewrite app_nil_r. }
  destruct Hdom as (Hdom & e1 & -> & He1).
  rewrite visitUnassigned_all in E2. injection E2 as <-.
  eexists. split; [by rewrite <- app_assoc|].
  rewrite List.filter_app, (filter_none _ _ He1). simpl.
  unfold unassignedWarnings.
  rewrite filter_all.
  - apply list_omap_same. intros i. destruct (items states !! i) as [st|]; [|done].
    destruct (listedIn supplyAreas bad i) eqn:Hl.
    + rewrite bool_decide_eq_true_2; [done|]. by apply Hdom.
    + rewrite bool_decide_eq_false_2; [done|]. rewrite Hdom. congruence.
  - apply Forall_forall. intros w Hw. apply list_elem_of_omap in Hw as (i & _ & Hw).
    destruct (items states !! i); [|done].
    destruct (bool_decide _); [done|]. by injection Hw as <-.
Qed.

Lemma members_distinct (states : JsArray State) l :
  indexedById states -> NoDup l ->
  NoDup (map sid (omap (fun s => items states !! s) l)).
Proof.
  intros Hidx. induction 1 as [|s l Hs _ IH]; simpl; [constructor|].
  destruct (items states !! s) as [st|] eqn:Hst; simpl; [|exact IH].
  constructor; [|exact IH].
  intros Hin. apply Hs.
  apply list_elem_of_In, in_map_iff in Hin as (st' & E & Hin).
  apply list_elem_of_In, list_elem_of_omap in Hin as (s' & Hs' & Hst').
  apply Hidx in Hst. apply Hidx in Hst'. unfold sid in *. congruence.
Qed.

Lemma visitMembers_ok states supplyAreas area l :
  is_Some (items supplyAreas !! saId (saBase area)) ->
  forall acc ws, supplyOwnersExist supplyAreas (fst acc) ->
  exists acc' ws',
    foldEff (visitMember states supplyAreas area) l acc ws = (ws', Returned acc')
    /\ supplyOwnersExist supplyAreas (fst acc').
Proof.
  intros Harea acc ws Hacc.
  apply (foldEff_inv (fun acc _ => supplyOwnersExist supplyAreas (fst acc))); [|done].
  intros acc0 s ws0 _ Hown. unfold visitMember.
  destruct (fst acc0 !! s) as [o|] eqn:Ho.
  - destruct (items states !! s) as [st|]; [|eauto].
    destruct (Hown s o Ho) as [owner ->]. unfold bind, push, ret. eauto.
  - eexists. eexists. split; [reflexivity|]. simpl.
    intros q o. destruct (decide (q = s)) as [->|Hne].
    + rewrite lookup_insert_eq. by intros [= <-].
    + rewrite lookup_insert_ne by done. apply Hown.
Qed.

Lemma visitSupplyArea_ok states supplyAreas provinces m i ws :
  indexedById states -> indexedSupplyAreas supplyAreas ->
  (forall a, items supplyAreas !! i = Some a -> NoDup (saStates (saBase a))) ->
  supplyOwnersExist supplyAreas m ->
  exists m' ws',
    visitSupplyArea states supplyAreas provinces m i ws = (ws', Returned m')
    /\ supplyOwnersExist supplyAreas m'.
Proof.
  intros Hidx Hsa Hnd Hown. unfold visitSupplyArea.
  destruct (items supplyAreas !! i) as [area|] eqn:Harea; [|eauto].
  destruct (visitMembers_ok states supplyAreas area (saStates (saBase area)))
    with (acc := (m, @nil (option State))) (ws := ws) as (acc' & ws1 & E & Hown');
    [rewrite (Hsa i area Harea); eauto|done|].
  unfold bind at 1. rewrite E.
  destruct (visitMembers_returned _ _ _ _ _ _ _ _ E) as (Hout & _). simpl in Hout.
  rewrite Hout, omap_id_map.
  pose proof (members_distinct states _ Hidx (Hnd area eq_refl)) as Hdist.
  destruct (omap (fun s => items states !! s) (saStates (saBase area))) as [|first rest].
  { simpl. eauto. }
  destruct (checkStatesContiguous_distinct first rest provinces Hdist) as (res & -> & _).
  destruct res as [bad|]; unfold bind, push, ret; eauto.
Qed.

(** X16. When states and supply areas sit at their ids and no supply area
    lists a state twice, [validateStatesInSupplyAreas] returns: neither the
    non-null assertion on the owning supply area nor the one inside
    [checkStatesContiguous] fails. *)
Theorem validateStatesInSupplyAreas_returns
    (states : JsArray State) (supplyAreas : JsArray SupplyArea)
    (provinces : gmap Z Province) (badSupplyAreasCount : Z) (ws : list Warning) :
  indexedById states ->
  indexedSupplyAreas supplyAreas ->
  (forall i a, items supplyAreas !! i = Some a -> NoDup (saStates (saBase a))) ->
  exists ws',
    validateStatesInSupplyAreas states supplyAreas provinces badSupplyAreasCount ws
    = (ws', Returned tt).
Proof.
  intros Hidx Hsa Hnd. unfold validateStatesInSupplyAreas.
  destruct (foldEff_inv (fun m _ => supplyOwnersExist supplyAreas m)
              (visitSupplyArea states supplyAreas provinces)
              (seqZ badSupplyAreasCount (alength supplyAreas - badSupplyAreasCount)))
    with (s := (∅ : gmap Z Z)) (ws := ws) as (m & ws1 & E & _).
  - intros m i ws0 _ Hown. apply visitSupplyArea_ok; auto. intros a. apply Hnd.
  - intros s o. by rewrite lookup_empty.
  - unfold bind. rewrite E, visitUnassigned_all. eauto.
Qed.

End SupplyAreaValidation.

Lemma validateStatesInSupplyAreas_returns_witness :
  exists ws',
    SupplyAreas.validateStatesInSupplyAreas chainStates chainSupplyAreas chainProvinces 0 []
    = (ws', Returned tt).
Proof.
  apply (validateStatesInSupplyAreas_returns chainStates chainSupplyAreas chainProvinces 0 []).
  - intros i st Hst.
    refine (map_Forall_lookup_1 (fun i st => stateId (stateBase st) = i) _ _ _ _ Hst).
    by_compute.
  - intros i a Ha.
    refine (map_Forall_lookup_1 (fun i a => saId (saBase a) = i) _ _ _ _ Ha).
    by_compute.
  - intros i a Ha.
    refine (map_Forall_lookup_1 (fun _ a => NoDup (saStates (saBase a))) _ _ _ _ Ha).
    by_compute.
Defined.

Lemma unassigned_states_are_reported_witness :
  exists extra,
    [mkWarning [stateSource 3] ["s.txt"] (StateNoSupplyArea 3)] = [] ++ extra
    /\ List.filter isNoSupplyArea extra = unassignedWarnings chainStates chainSupplyAreas 0.
Proof.
  apply (unassigned_states_are_reported chainStates chainSupplyAreas chainProvinces 0 []).
  vm_compute. reflexivity.
Defined.

(** ** Geometry of strategic regions *)

Section StrategicRegionGeometryMore.
Variable mergeRegions : list Region -> Z -> Region.
Import StrategicRegions.

Lemma mapEff_resolve_all provinces l ws :
  mapEff (resolveProvince provinces) l ws
  = (ws, if allResolve provinces l
         then Returned (map (fun p => provinces !! p) l)
         else Thrown "ReferenceError: Cannot access 'strategicRegion' before initialization").
Proof.
  induction l as [|p l IH]; [done|].
  rewrite mapEff_cons. unfold resolveProvince at 1.
  unfold allResolve in *. cbn [forallb].
  destruct (provinces !! p) as [prov|] eqn:Hp.
  - rewrite bool_decide_eq_true_2 by eauto. cbn [ret andb]. rewrite IH.
    destruct (forallb _ l); simpl; [by rewrite Hp|done].
  - rewrite bool_decide_eq_false_2; [done|]. by intros [? ?].
Qed.

Lemma resolved_length provinces l :
  allResolve provinces l = true ->
  length (resolvedProvinces provinces l) = length l.
Proof.
  unfold resolvedProvinces. induction l as [|p l IH]; simpl; [done|].
  intros [Hp Hl]%andb_true_iff. apply bool_decide_eq_true in Hp as [prov Hp].
  rewrite Hp. simpl. f_equal. by apply IH.
Qed.

(** X17. [calculateBoundingBox] of strategicregion.ts never pushes a
    warning.  It returns exactly when every declared province resolves, with
    the merged region of the provinces (the zero region when none is
    declared), and throws otherwise; its "no valid provinces" branch needs a
    province that does not resolve, and that has thrown before. *)
Theorem strategicRegion_calculateBoundingBox_never_warns
    (r : StrategicRegionNoRegion) (provinces : gmap Z Province) (width : Z)
    (ws : list Warning) :
  calculateBoundingBox mergeRegions r provinces width ws
  = (ws,
     if allResolve provinces (srProvinces r)
     then Returned (mkStrategicRegion r
                      (expectedStrategicRegion mergeRegions provinces width r))
     else Thrown "ReferenceError: Cannot access 'strategicRegion' before initialization").
Proof.
  unfold calculateBoundingBox, bind at 1. rewrite mapEff_resolve_all.
  destruct (allResolve provinces (srProvinces r)) eqn:Hall; [|done].
  rewrite omap_id_map. fold (resolvedProvinces provinces (srProvinces r)).
  unfold expectedStrategicRegion.
  pose proof (resolved_length provinces _ Hall) as Hlen.
  destruct (resolvedProvinces provinces (srProvinces r)) as [|m ms]; simpl.
  - simpl in Hlen. destruct (srProvinces r); [done|simpl in Hlen; lia].
  - done.
Qed.

End StrategicRegionGeometryMore.

(** ** States split over strategic regions *)

Section Majority.
Import StrategicRegionValidation.

Lemma occurrences_snoc l pr sr :
  occurrences (l ++ [pr]) sr = occurrences l sr + (if snd pr =? sr then 1 else 0).
Proof.
  unfold occurrences. rewrite List.filter_app, length_app. simpl.
  destruct (snd pr =? sr); simpl; lia.
Qed.

Lemma occurrences_nonneg l sr : 0 <= occurrences l sr.
Proof. unfold occurrences. lia. Qed.

Lemma occurrences_pos l sr : 0 < occurrences l sr <-> exists p, (p, sr) ∈ l.
Proof.
  unfold occurrences. induction l as [|[q s] l IH]; simpl.
  - split; [lia|]. intros [p Hp]. by apply elem_of_nil in Hp.
  - destruct (Z.eqb_spec s sr) as [->|Hne]; simpl.
    + split; [|lia]. intros _. exists q. by left.
    + rewrite IH. split; intros [p Hp]; exists p.
      * by right.
      * apply elem_of_cons in Hp as [[= -> ->]|Hp]; done.
Qed.

Lemma counting l :
  let c := strategicRegionIdCount l in
  (forall sr, countOf c !! sr
              = if occurrences l sr =? 0 then None else Some (occurrences l sr))
  /\ NoDup (inserted c)
  /\ (forall sr, sr ∈ inserted c <-> 0 < occurrences l sr).
Proof.
  induction l as [|pr l IH] using rev_ind.
  { simpl. split; [intros; apply lookup_empty|]. split; [constructor|].
    intros sr. rewrite elem_of_nil. unfold occurrences. simpl. lia. }
  unfold strategicRegionIdCount in *. rewrite fold_left_app. simpl.
  set (c := fold_left countStep l (mkCounts ∅ [])) in *.
  destruct IH as (Hc & Hnd & Hin). unfold countStep. simpl.
  split; [|split].
  - intros sr. rewrite occurrences_snoc.
    pose proof (occurrences_nonneg l sr) as Hnn.
    destruct (Z.eqb_spec (snd pr) sr) as [->|Hne].
    + rewrite lookup_insert_eq, Hc.
      destruct (Z.eqb_spec (occurrences l sr) 0) as [->|H0]; simpl.
      * done.
      * destruct (Z.eqb_spec (occurrences l sr + 1) 0); [lia|done].
    + rewrite lookup_insert_ne by done. rewrite Hc. by rewrite Z.add_0_r.
  - destruct (bool_decide (is_Some (countOf c !! snd pr))) eqn:Hb; [done|].
    apply NoDup_app. split; [done|]. split; [|apply NoDup_singleton].
    intros x Hx Hx'. apply list_elem_of_singleton in Hx'. subst x.
    apply bool_decide_eq_false in Hb. apply Hb. rewrite Hc.
    apply Hin in Hx. destruct (Z.eqb_spec (occurrences l (snd pr)) 0); [lia|eauto].
  - intros sr. rewrite occurrences_snoc.
    pose proof (occurrences_nonneg l sr) as Hnn.
    assert (Hmem : sr ∈ (if bool_decide (is_Some (countOf c !! snd pr))
                          then inserted c else inserted c ++ [snd pr])
                   <-> sr ∈ inserted c \/ sr = snd pr).
    { destruct (bool_decide (is_Some (countOf c !! snd pr))) eqn:Hb.
      - split; [by left|]. intros [?| ->]; [done|].
        apply bool_decide_eq_true in Hb. rewrite Hc in Hb. apply Hin.
        destruct (Z.eqb_spec (occurrences l (snd pr)) 0); [by destruct Hb|].
        pose proof (occurrences_nonneg l (snd pr)). lia.
      - rewrite elem_of_app, list_elem_of_singleton. done. }
    rewrite Hmem, Hin. destruct (Z.eqb_spec (snd pr) sr); split; lia.
Qed.

Lemma insertByCount_perm e l : insertByCount e l ≡ₚ e :: l.
Proof.
  induction l as [|x l IH]; simpl; [done|].
  destruct (snd x <? snd e); [done|]. rewrite IH. apply Permutation_swap.
Qed.

Lemma insertByCount_sorted e l :
  StronglySorted (fun a b => snd b <= snd a) l ->
  StronglySorted (fun a b => snd b <= snd a) (insertByCount e l).
Proof.
  induction 1 as [|x l Hl IH Hx]; simpl.
  { repeat constructor. }
  destruct (Z.ltb_spec (snd x) (snd e)).
  - constructor; [by constructor|]. constructor; [lia|].
    eapply Forall_impl; [exact Hx|]. simpl. intros; lia.
  - constructor; [exact IH|]. rewrite insertByCount_perm. by constructor.
Qed.

Lemma sortByCount_facts l :
  sortByCount l ≡ₚ l /\ StronglySorted (fun a b => snd b <= snd a) (sortByCount l).
Proof.
  unfold sortByCount. induction l as [|e l IH] using rev_ind; simpl.
  { split; [done|constructor]. }
  rewrite fold_left_app. simpl. destruct IH as [Hp Hs]. split.
  - rewrite insertByCount_perm, Hp. apply Permutation_cons_append.
  - by apply insertByCount_sorted.
Qed.

Lemma sortByCount_head l e rest :
  sortByCount l = e :: rest -> e ∈ l /\ forall x, x ∈ l -> snd x <= snd e.
Proof.
  intros Hs. destruct (sortByCount_facts l) as [Hp Hsorted]. rewrite Hs in Hp, Hsorted.
  split; [rewrite <- Hp; by left|].
  intros x Hx. rewrite <- Hp in Hx. apply StronglySorted_inv in Hsorted as [_ Hall].
  apply elem_of_cons in Hx as [->|Hx]; [lia|].
  rewrite Forall_forall in Hall. by apply Hall.
Qed.

(** X18. The state loop of [validateProvincesInStrategicRegions], for the
    provinces of a state that exist and have a strategic region: when they
    all lie in one region nothing is reported; otherwise the provinces
    reported are those outside one region [most], in listing order, no region
    holds more of the state's provinces than [most], and at least one province
    is reported. *)
Theorem badProvinces_spares_the_majority (provinces : gmap Z Province)
    (provinceToStrategicRegion : gmap Z Z) (stateProvinces : list Z) :
  let pairs := strategicRegionId provinces provinceToStrategicRegion stateProvinces in
  match badProvinces provinces provinceToStrategicRegion stateProvinces with
  | Some bad =>
      exists most,
        0 < occurrences pairs most
        /\ (forall sr, occurrences pairs sr <= occurrences pairs most)
        /\ bad = map fst (List.filter (fun v => negb (snd v =? most)) pairs)
        /\ bad <> []
  | None => forall v v', v ∈ pairs -> v' ∈ pairs -> snd v = snd v'
  end.
Proof.
  intros pairs. unfold badProvinces. fold pairs.
  destruct (counting pairs) as (Hc & Hnd & Hin).
  set (c := strategicRegionIdCount pairs) in *.
  pose proof (objectKeys_perm (inserted c)) as Hkeys.
  assert (Hlen : length (entries c) = length (inserted c)).
  { unfold entries. rewrite length_map. by apply Permutation_length. }
  assert (Hentry : forall e, e ∈ entries c ->
            snd e = occurrences pairs (fst e) /\ 0 < occurrences pairs (fst e)).
  { intros e He. unfold entries in He.
    apply list_elem_of_In, in_map_iff in He as (k & <- & Hk). simpl.
    apply list_elem_of_In in Hk. rewrite Hkeys in Hk. apply Hin in Hk.
    rewrite Hc. destruct (Z.eqb_spec (occurrences pairs k) 0); [lia|done]. }
  assert (Hhas : forall sr, 0 < occurrences pairs sr ->
            (sr, occurrences pairs sr) ∈ entries c).
  { intros sr Hsr. unfold entries. apply list_elem_of_In, in_map_iff.
    exists sr. split.
    - rewrite Hc. destruct (Z.eqb_spec (occurrences pairs sr) 0); [lia|done].
    - apply list_elem_of_In. rewrite Hkeys. by apply Hin. }
  rewrite Hlen.
  destruct (Z.ltb_spec 1 (Z.of_nat (length (inserted c)))) as [Hmany|Hfew].
  - destruct (sortByCount (entries c)) as [|entry rest] eqn:Hsort.
    { exfalso. destruct (sortByCount_facts (entries c)) as [Hp _].
      rewrite Hsort in Hp. apply Permutation_length in Hp. simpl in Hp. lia. }
    destruct (sortByCount_head _ _ _ Hsort) as [Hentry0 Hmax].
    destruct (Hentry entry Hentry0) as [Hcount Hpos].
    exists (fst entry). split; [done|]. split; [|split; [done|]].
    + intros sr. destruct (Z_lt_le_dec 0 (occurrences pairs sr)) as [Hsr|Hsr]; [|lia].
      specialize (Hmax _ (Hhas sr Hsr)). simpl in Hmax. lia.
    + (* another region is present *)
      assert (Hother : exists sr, sr ∈ inserted c /\ sr <> fst entry).
      { destruct (inserted c) as [|a [|b l]]; simpl in Hmany; [lia|lia|].
        destruct (decide (a = fst entry)) as [->|Hne].
        - exists b. split; [right; by left|].
          intros Hb. apply NoDup_cons in Hnd as [Hnot _]. apply Hnot.
          rewrite <- Hb. by left.
        - exists a. split; [by left|done]. }
      destruct Hother as (sr & Hsr & Hne).
      apply Hin, occurrences_pos in Hsr as [p Hp].
      intros Hnil.
      assert (Hp' : p ∈ map fst (List.filter (fun v => negb (snd v =? fst entry)) pairs)).
      { apply list_elem_of_In, in_map_iff. exists (p, sr). split; [done|].
        apply filter_In. split; [by apply list_elem_of_In|]. simpl.
        apply negb_true_iff, Z.eqb_neq. done. }
      rewrite Hnil in Hp'. by apply elem_of_nil in Hp'.
  - intros v v' Hv Hv'.
    assert (Hv1 : snd v ∈ inserted c).
    { apply Hin, occurrences_pos. exists (fst v). by destruct v. }
    assert (Hv2 : snd v' ∈ inserted c).
    { apply Hin, occurrences_pos. exists (fst v'). by destruct v'. }
    destruct (inserted c) as [|a [|b l]]; simpl in Hfew.
    + by apply elem_of_nil in Hv1.
    + apply list_elem_of_singleton in Hv1, Hv2. congruence.
    + lia.
Qed.

End Majority.

(** One province in region 7 and one in region 3: the entries come in the
    order of [Object.keys], 3 before 7, the stable sort keeps it, and province
    1 is the one reported. *)
Example tie_goes_to_the_lower_id :
  StrategicRegionValidation.badProvinces chainProvinces {[ 1 := 7; 2 := 3 ]} [1; 2]
  = Some [1].
Proof. vm_compute. reflexivity. Qed.

(** ** The two versions of [calculateBoundingBox] *)

Section TwoVersions.
Variable mergeBoundingBox : Zone -> Zone -> Z -> Zone.
Variable mergeRegions : list Region -> Z -> Region.

Lemma mapEff_resolveZone s provinces l ws :
  mapEff (StatesBox.resolveZone s provinces) l ws
  = (ws ++ map (StatesRegion.provinceNotExistWarning s) (unresolvedProvinces provinces l),
     Returned (map (fun p => (fun prov => boundingBox (provinceRegion prov))
                               <$> provinces !! p) l)).
Proof.
  revert ws. induction l as [|p l IH]; intros ws.
  { simpl. by rewrite app_nil_r. }
  rewrite mapEff_cons. unfold StatesBox.resolveZone at 1.
  unfold unresolvedProvinces in *. cbn [List.filter map].
  destruct (provinces !! p) as [prov|] eqn:Hp.
  - rewrite bool_decide_eq_true_2 by eauto. cbn [ret negb fmap option_fmap option_map].
    rewrite IH. done.
  - rewrite bool_decide_eq_false_2 by (by intros [? ?]).
    cbn [negb fmap option_fmap option_map]. unfold bind, push, ret. rewrite IH.
    cbn [map]. by rewrite <- app_assoc.
Qed.

Lemma resolved_zones provinces l :
  omap id (map (fun p => (fun prov => boundingBox (provinceRegion prov))
                           <$> provinces !! p) l)
  = map (fun prov => boundingBox (provinceRegion prov)) (resolvedProvinces provinces l).
Proof.
  unfold resolvedProvinces. induction l as [|p l IH]; [done|].
  cbn [map omap list_omap]. destruct (provinces !! p); simpl; [f_equal|]; exact IH.
Qed.

(** X19. The two versions of [calculateBoundingBox] of states.ts, given a
    [mergeRegions] whose box is the reduction of the member boxes with
    [mergeBoundingBox]: they compute the same box and push the same warnings,
    except that the bounding-box version also pushes "no valid provinces" for
    a state that declares no province at all. *)
Theorem bounding_box_versions_agree
    (s : StateNoBoundingBox) (provinces : gmap Z Province) (width height : Z)
    (ws : list Warning) :
  mergesBoxes mergeBoundingBox mergeRegions ->
  exists box region emitted,
    StatesBox.calculateBoundingBox mergeBoundingBox s provinces width height ws
    = (ws ++ emitted
          ++ (if Z.of_nat (length (stateProvinces s)) =? 0
              then [StatesRegion.noValidProvincesWarning s] else []),
       Returned (mkBoxedState s box))
    /\ StatesRegion.calculateBoundingBox mergeRegions s provinces width height ws
       = (ws ++ emitted, Returned (mkState s region))
    /\ boundingBox region = box.
Proof.
  intros Hmerge.
  rewrite (calculateBoundingBox_eq mergeRegions).
  unfold StatesBox.calculateBoundingBox, bind at 1.
  rewrite mapEff_resolveZone, resolved_zones.
  set (dangling := map (StatesRegion.provinceNotExistWarning s)
                     (unresolvedProvinces provinces (stateProvinces s))).
  destruct (resolvedProvinces provinces (stateProvinces s)) as [|m ms] eqn:Hres.
  - cbn [map]. unfold bind, push, ret.
    destruct (stateProvinces s) as [|p l] eqn:Hl.
    + exists (mkZone 0 0 0 0), zeroRegion, dangling. simpl.
      rewrite <- !app_assoc. done.
    + exists (mkZone 0 0 0 0), zeroRegion,
        (dangling ++ [StatesRegion.noValidProvincesWarning s]).
      replace (Z.of_nat (length (p :: l)) =? 0) with false
        by (symmetry; apply Z.eqb_neq; simpl; lia).
      replace (0 <? Z.of_nat (length (p :: l))) with true
        by (symmetry; apply Z.ltb_lt; simpl; lia).
      rewrite !app_nil_r. rewrite <- !app_assoc. done.
  - cbv zeta.
    set (r := mergeRegions (map provinceRegion (m :: ms)) width).
    cbn [map].
    assert (Hbox : StatesBox.reduceZones mergeBoundingBox width
                     (boundingBox (provinceRegion m))
                     (map (fun prov => boundingBox (provinceRegion prov)) ms)
                   = boundingBox r).
    { unfold r. cbn [map]. rewrite Hmerge. by rewrite map_map. }
    rewrite Hbox.
    assert (Hne : (Z.of_nat (length (stateProvinces s)) =? 0) = false).
    { apply Z.eqb_neq. destruct (stateProvinces s); [done|simpl; lia]. }
    exists (boundingBox r), r,
      (dangling ++ (if StatesRegion.isTooLarge r width height
                    then [StatesRegion.tooLargeWarning s r] else [])).
    rewrite Hne, app_nil_r.
    unfold StatesRegion.isTooLarge, bind, when, push, ret.
    destruct ((2 * zw (boundingBox r) >? width) || (2 * zh (boundingBox r) >? height));
      rewrite <- ?app_assoc, ?app_nil_r; done.
Qed.

End TwoVersions.

Lemma common_mergesBoxes : mergesBoxes Common.mergeBoundingBox Common.mergeRegions.
Proof.
  intros first others width. unfold Common.mergeRegions, StatesBox.reduceZones.
  revert first. induction others as [|o others IH]; intros first; [done|].
  cbn [fold_left map]. rewrite IH. done.
Qed.

Lemma bounding_box_versions_agree_witness :
  exists box region emitted,
    StatesBox.calculateBoundingBox Common.mergeBoundingBox (rawState 1 "a.txt" [1; 9])
      sampleProvinces 100 100 []
    = ([] ++ emitted
          ++ (if Z.of_nat (length (stateProvinces (rawState 1 "a.txt" [1; 9]))) =? 0
              then [StatesRegion.noValidProvincesWarning (rawState 1 "a.txt" [1; 9])]
              else []),
       Returned (mkBoxedState (rawState 1 "a.txt" [1; 9]) box))
    /\ StatesRegion.calculateBoundingBox Common.mergeRegions (rawState 1 "a.txt" [1; 9])
         sampleProvinces 100 100 []
       = ([] ++ emitted, Returned (mkState (rawState 1 "a.txt" [1; 9]) region))
    /\ boundingBox region = box.
Proof.
  apply (bounding_box_versions_agree Common.mergeBoundingBox Common.mergeRegions
           (rawState 1 "a.txt" [1; 9]) sampleProvinces 100 100 []).
  exact common_mergesBoxes.
Defined.

(** A state that declares no province: the bounding-box version reports that
    it has no valid provinces, the region version reports nothing. *)
Example empty_state_in_both_versions :
  fst (StatesBox.calculateBoundingBox Common.mergeBoundingBox (rawState 1 "a.txt" [])
         sampleProvinces 100 100 [])
  = [StatesRegion.noValidProvincesWarning (rawState 1 "a.txt" [])]
  /\ fst (StatesRegion.calculateBoundingBox Common.mergeRegions (rawState 1 "a.txt" [])
            sampleProvinces 100 100 [])
     = [].
Proof. split; reflexivity. Qed.

(** ** Webview utilities *)

Section Webview.
Import WebviewCommon.
Context {A : Type}.

Lemma copy_fold (read : Z -> option A) offsetDst (n : nat) : forall (dst : JsArray A) j,
  items (fold_left (fun d k => writeAt d (offsetDst + k) (read k))
           (seqZ 0 (Z.of_nat n)) dst) !! j
  = if decide (offsetDst <= j < offsetDst + Z.of_nat n)
    then read (j - offsetDst)
    else items dst !! j.
Proof.
  induction n as [|n IH]; intros dst j.
  { simpl. rewrite decide_False by lia. done. }
  rewrite seqZ_S, fold_left_app. simpl.
  unfold writeAt at 1. simpl.
  destruct (decide (j = offsetDst + Z.of_nat n)) as [->|Hne].
  - rewrite lookup_partial_alter_eq, decide_True by lia. f_equal. lia.
  - rewrite lookup_partial_alter_ne by done. rewrite IH.
    destruct (decide (offsetDst <= j < offsetDst + Z.of_nat n)).
    + by rewrite decide_True by lia.
    + by rewrite decide_False by lia.
Qed.

Lemma copy_fold_length (read : JsArray A -> Z -> option A) offsetDst (n : nat) :
  forall (dst : JsArray A),
  alength (fold_left (fun d k => writeAt d (offsetDst + k) (read d k))
             (seqZ 0 (Z.of_nat n)) dst)
  = if decide (Z.max 0 offsetDst < Z.min (offsetDst + Z.of_nat n) 4294967295)
    then Z.max (alength dst) (Z.min (offsetDst + Z.of_nat n) 4294967295)
    else alength dst.
Proof.
  induction n as [|n IH]; intros dst.
  { simpl. rewrite decide_False by lia. done. }
  rewrite seqZ_S, fold_left_app. simpl. rewrite IH.
  destruct (Z.leb_spec 0 (offsetDst + (0 + Z.of_nat n))),
           (Z.ltb_spec (offsetDst + (0 + Z.of_nat n)) 4294967295); simpl;
    repeat match goal with |- context [decide ?P] => destruct (decide P) end; lia.
Qed.

(** X20. [copyArray] between two different arrays: afterwards the
    destination holds, at the [length] subscripts from [offsetDst] on, the
    elements of the source from [offsetSrc] on, and is unchanged elsewhere.
    Its [length] moves only for the subscripts written that are array
    indices, 0 to 2^32 - 2: when there is one, [length] grows to the end of
    the copied range, at most 2^32 - 1, if that lies beyond it; when there is
    none, [length] stays. *)
Theorem copyArray_copies (src dst : JsArray A) (offsetSrc offsetDst length : Z) :
  0 <= length ->
  (forall j,
     items (copyArray src dst offsetSrc offsetDst length) !! j
     = if decide (offsetDst <= j < offsetDst + length)
       then items src !! (offsetSrc + (j - offsetDst))
       else items dst !! j)
  /\ alength (copyArray src dst offsetSrc offsetDst length)
     = if decide (Z.max 0 offsetDst < Z.min (offsetDst + length) 4294967295)
       then Z.max (alength dst) (Z.min (offsetDst + length) 4294967295)
       else alength dst.
Proof.
  intros Hlen. unfold copyArray.
  rewrite <- (Z2Nat.id length) by done. split.
  - intros j. apply (copy_fold (fun k => items src !! (offsetSrc + k))).
  - apply (copy_fold_length (fun _ k => items src !! (offsetSrc + k))).
Qed.

(** While the destination does not start after the source, a copy inside one
    array reads only elements it has not written. *)
Lemma copyInPlace_fold (a : JsArray A) offsetSrc offsetDst (n : nat) :
  offsetDst <= offsetSrc ->
  forall j,
    items (fold_left (fun d k => writeAt d (offsetDst + k) (items d !! (offsetSrc + k)))
             (seqZ 0 (Z.of_nat n)) a) !! j
    = if decide (offsetDst <= j < offsetDst + Z.of_nat n)
      then items a !! (offsetSrc + (j - offsetDst))
      else items a !! j.
Proof.
  intros Hoff. induction n as [|n IH]; intros j.
  { simpl. rewrite decide_False by lia. done. }
  rewrite seqZ_S, fold_left_app. simpl.
  unfold writeAt at 1. simpl.
  destruct (decide (j = offsetDst + Z.of_nat n)) as [->|Hne].
  - rewrite lookup_partial_alter_eq, decide_True by lia.
    rewrite IH, decide_False by lia. f_equal. lia.
  - rewrite lookup_partial_alter_ne by done. rewrite IH.
    destruct (decide (offsetDst <= j < offsetDst + Z.of_nat n)).
    + by rewrite decide_True by lia.
    + by rewrite decide_False by lia.
Qed.

(** X21. [copyArray] with one array as source and destination, the
    destination range not starting after the source range: the result is that
    of copying from an untouched copy of the array. *)
Theorem copyArrayInPlace_leftwards (a : JsArray A) (offsetSrc offsetDst length : Z) :
  0 <= length -> offsetDst <= offsetSrc ->
  forall j,
    items (copyArrayInPlace a offsetSrc offsetDst length) !! j
    = items (copyArray a a offsetSrc offsetDst length) !! j.
Proof.
  intros Hlen Hoff j. unfold copyArray, copyArrayInPlace.
  rewrite <- (Z2Nat.id length) by done.
  rewrite (copy_fold (fun k => items a !! (offsetSrc + k))).
  by apply copyInPlace_fold.
Qed.

End Webview.

Section ArrayToMap.
Import WebviewCommon.
Context {T : Type}.
Variable isObject : T -> bool.
Variable key : T -> option string.

Lemma arrayToMap_ended (l : list T) e :
  fold_left (arrayToMapStep isObject key) l (Some (Thrown e)) = Some (Thrown e).
Proof. induction l as [|x l IH]; simpl; [done|exact IH]. Qed.

Lemma arrayToMap_fold (l : list T) : forall m0,
  Forall (fun x => key x = Some "__proto__" -> isObject x = false) l ->
  fold_left (arrayToMapStep isObject key) l (Some (Returned m0))
  = Some (if forallb (fun x => bool_decide (is_Some (key x))) l
          then Returned (fold_left (fun m x => match key x with
                                               | Some id =>
                                                   if String.eqb id "__proto__" then m
                                                   else <[id := x]> m
                                               | None => m
                                               end) l m0)
          else Thrown "key of arrayToMap must be a string or number type").
Proof.
  induction l as [|x l IH]; intros m0 Hl; simpl; [done|].
  inversion Hl as [|? ? Hx Hl']; subst.
  destruct (key x) as [id|] eqn:Hk; simpl.
  - unfold assignProperty. destruct (String.eqb_spec id "__proto__") as [->|Hne].
    + rewrite Hx by done. simpl. by apply IH.
    + simpl. by apply IH.
  - apply arrayToMap_ended.
Qed.

Lemma inserts_lookup (l : list T) : forall (m0 : gmap string T) k,
  k <> "__proto__" ->
  fold_left (fun m x => match key x with
                        | Some id => if String.eqb id "__proto__" then m else <[id := x]> m
                        | None => m
                        end) l m0 !! k
  = match last (List.filter (fun x => bool_decide (key x = Some k)) l) with
    | Some x => Some x
    | None => m0 !! k
    end.
Proof.
  induction l as [|x l IH]; intros m0 k Hk; simpl; [done|].
  rewrite IH by done. destruct (decide (key x = Some k)) as [Hx|Hx].
  - rewrite bool_decide_eq_true_2 by done. rewrite Hx, last_cons.
    destruct (String.eqb_spec k "__proto__"); [done|].
    destruct (last _); [done|]. apply lookup_insert_eq.
  - rewrite bool_decide_eq_false_2 by done.
    destruct (last _); [done|].
    destruct (key x) as [id|]; [|done].
    destruct (String.eqb id "__proto__"); [done|].
    rewrite lookup_insert_ne; [done|]. congruence.
Qed.

Lemma inserts_no_proto (l : list T) : forall (m0 : gmap string T),
  m0 !! "__proto__" = None ->
  fold_left (fun m x => match key x with
                        | Some id => if String.eqb id "__proto__" then m else <[id := x]> m
                        | None => m
                        end) l m0 !! "__proto__" = None.
Proof.
  induction l as [|x l IH]; intros m0 Hm0; simpl; [done|].
  apply IH. destruct (key x) as [id|]; [|done].
  destruct (String.eqb_spec id "__proto__"); [done|].
  by rewrite lookup_insert_ne.
Qed.

(** X22. [arrayToMap] on items of which none is an object keyed
    [__proto__] (such an item would become the prototype of the result): it
    throws exactly when some item has a key that is neither a string nor a
    number; otherwise the object it returns has no own property [__proto__]
    and holds, under every other property name, the last item of the list
    with that key. *)
Theorem arrayToMap_last_wins (l : list T) :
  Forall (fun x => key x = Some "__proto__" -> isObject x = false) l ->
  exists outcome,
    arrayToMap isObject key l = Some outcome
    /\ match outcome with
       | Returned m =>
           Forall (fun x => is_Some (key x)) l
           /\ m !! "__proto__" = None
           /\ forall k, k <> "__proto__" ->
                m !! k = last (List.filter (fun x => bool_decide (key x = Some k)) l)
       | Thrown e =>
           e = "key of arrayToMap must be a string or number type"
           /\ Exists (fun x => key x = None) l
       end.
Proof.
  intros Hl. unfold arrayToMap. rewrite arrayToMap_fold by done.
  eexists. split; [reflexivity|].
  destruct (forallb _ l) eqn:Hall.
  - split; [|split].
    + apply Forall_forall. intros x Hx. rewrite forallb_forall in Hall.
      apply list_elem_of_In in Hx. apply Hall in Hx.
      by apply bool_decide_eq_true in Hx.
    + by apply inserts_no_proto.
    + intros k Hk. rewrite inserts_lookup, lookup_empty by done. by destruct (last _).
  - split; [done|]. clear -Hall. induction l as [|x l' IH]; simpl in Hall; [done|].
    apply andb_false_iff in Hall as [Hx|Hl].
    + apply Exists_cons_hd. apply bool_decide_eq_false in Hx.
      destruct (key x); [|done]. exfalso. apply Hx. eauto.
    + apply Exists_cons_tl. by apply IH.
Qed.

End ArrayToMap.

Lemma copyArray_copies_witness :
  0 <= 2
  /\ (forall j,
        items (WebviewCommon.copyArray shortArray longArray 0 2 2) !! j
        = if decide (2 <= j < 2 + 2)
          then items shortArray !! (0 + (j - 2))
          else items longArray !! j)
  /\ alength (WebviewCommon.copyArray shortArray longArray 0 2 2)
     = if decide (Z.max 0 2 < Z.min (2 + 2) 4294967295)
       then Z.max (alength longArray) (Z.min (2 + 2) 4294967295)
       else alength longArray.
Proof. split; [lia|]. apply (copyArray_copies shortArray longArray 0 2 2). lia. Defined.

(** A copy to the subscripts from 2^32 - 1 on writes ordinary properties: the
    element is there, and [length] is still 3. *)
Example copyArray_past_the_array_indices :
  items (WebviewCommon.copyArray shortArray longArray 0 4294967295 1) !! 4294967295
  = Some 7
  /\ alength (WebviewCommon.copyArray shortArray longArray 0 4294967295 1) = 3.
Proof. split; reflexivity. Qed.

Lemma arrayToMap_last_wins_witness :
  exists outcome,
    WebviewCommon.arrayToMap anObject itemKey keyedItems = Some outcome
    /\ match outcome with
       | Returned m =>
           Forall (fun x => is_Some (itemKey x)) keyedItems
           /\ m !! "__proto__" = None
           /\ forall k, k <> "__proto__" ->
                m !! k
                = last (List.filter (fun x => bool_decide (itemKey x = Some k)) keyedItems)
       | Thrown e =>
           e = "key of arrayToMap must be a string or number type"
           /\ Exists (fun x => itemKey x = None) keyedItems
       end.
Proof.
  apply (arrayToMap_last_wins anObject itemKey keyedItems).
  by_compute.
Defined.

(** An item keyed [__proto__] adds no property: one that is no object is
    passed over, and with one that is an object, which becomes the prototype
    of the result, the embedding ends. *)
Example proto_key_adds_no_property :
  WebviewCommon.arrayToMap aNumber itemKey [("__proto__", 1); ("a", 2)]
  = Some (Returned {[ "a" := ("a", 2) ]})
  /\ WebviewCommon.arrayToMap anObject itemKey [("__proto__", 1); ("a", 2)] = None.
Proof. split; reflexivity. Qed.

Lemma copyArrayInPlace_leftwards_witness :
  (0 <= 2 /\ 0 <= 1)
  /\ forall j,
       items (WebviewCommon.copyArrayInPlace longArray 1 0 2) !! j
       = items (WebviewCommon.copyArray longArray longArray 1 0 2) !! j.
Proof. split; [lia|]. apply (copyArrayInPlace_leftwards longArray 1 0 2); lia. Defined.

(** Copying rightwards inside one array reads what it has just written: the
    first element is repeated, where a copy from a second array holding the
    same elements keeps the second one. *)
Example copyArrayInPlace_rightwards_repeats :
  items (WebviewCommon.copyArrayInPlace longArray 0 1 2)
  = ({[ 0 := 1; 1 := 1; 2 := 1 ]} : gmap Z Z)
  /\ items (WebviewCommon.copyArray longArray longArray 0 1 2)
     = ({[ 0 := 1; 1 := 1; 2 := 2 ]} : gmap Z Z).
Proof. split; by_compute. Qed.

(** ** Placement of the focus grid *)

Section FocusTree.
Import FocusTreeLayout.

Lemma minFold_le xs : forall m,
  fold_left (fun p x => if p >? x then x else p) xs m <= m
  /\ Forall (fun x => fold_left (fun p x => if p >? x then x else p) xs m <= x) xs.
Proof.
  induction xs as [|x xs IH]; intros m; simpl; [split; [lia|constructor]|].
  destruct (IH (if m >? x then x else m)) as [Hle Hall].
  destruct (Z.gtb_spec m x); (split; [lia|]); constructor; auto; lia.
Qed.

Lemma minFold_attained xs : forall m,
  fold_left (fun p x => if p >? x then x else p) xs m = m
  \/ fold_left (fun p x => if p >? x then x else p) xs m ∈ xs.
Proof.
  induction xs as [|x xs IH]; intros m; simpl; [by left|].
  destruct (IH (if m >? x then x else m)) as [E|Hin]; [|right; by right].
  rewrite E. destruct (Z.gtb_spec m x); [right; by left|by left].
Qed.

(** X23. With the left padding [renderFocusTree] computes, the padding plus
    [x] grid cells is at least the base padding of 30 for every focus, and
    unless every focus has [x >= 1000] it is exactly 30 for some focus. *)
Theorem leftmost_focus_at_padding (xs : list Z) :
  Forall (fun x => leftPaddingBase <= leftPadding xs + x * xGridSize) xs
  /\ (minX xs = 1000
      \/ Exists (fun x => leftPadding xs + x * xGridSize = leftPaddingBase) xs).
Proof.
  unfold leftPadding, minX, leftPaddingBase, xGridSize. split.
  - destruct (minFold_le xs 1000) as [_ Hall].
    eapply Forall_impl; [exact Hall|]. simpl. intros x Hx. lia.
  - destruct (minFold_attained xs 1000) as [E|Hin]; [by left|right].
    apply Exists_exists. eexists. split; [exact Hin|]. lia.
Qed.

End FocusTree.
